(** * Symbolic multipole expansion: pairings, traceless tensors, contraction

    A shallow embedding of the combinatorial core of the
    [multipole_expansion] package: the index-pairing generator, the builders
    of the symmetric traceless tensor Q and of the Cartesian derivatives of
    1/r, and the index-contraction engine, together with the properties the
    specification states about them. *)

From Stdlib Require Import ZArith Lia Ascii.
From stdpp Require Import gmap strings list sorting pretty.

Set Warnings "-register-all".

(** ** Python control flow *)

(** [for x in xs: state = body(state, x)], where the body may raise. *)
Fixpoint for_each {A St : Type} (xs : list A) (body : St → A → option St)
    (state : St) : option St :=
  match xs with
  | [] => Some state
  | x :: rest => state' ← body state x; for_each rest body state'
  end.

(** [range(a, b)] over non-negative integers. *)
Definition range (a b : nat) : list nat := seq a (b - a).

(** [(-1) ** k]; for a negative [k] Python yields the float of the same
    value. *)
Definition pow_minus_one (k : Z) : Z := if Z.even k then 1%Z else (-1)%Z.

(** ** The expression substrate

    The package builds every symbolic value with the operators of the host
    computer-algebra system, whose expressions are kept in canonical form:
    sums and products are flattened and ordered, numeric coefficients are
    folded, equal factors are merged into powers and equal terms into one
    term, and products are not distributed over sums. *)
Module Symbolica.

(** Modelled from the spec: the expression substrate (host CAS), which is not
    part of the repository.  An expression is a sum of terms, a term is an
    integer coefficient times a product of powers of atoms, and an atom is a
    symbol, an indexed-symbol application, or a sum standing as a factor.
    The builders of this package only form integer coefficients. *)
Inductive atom : Type :=
| ASym (s : string)
| AFn (f : string) (args : list string)
| ASum (terms : list (list (atom * Z) * Z)).

Abbreviation monomial := (list (atom * Z)).
Abbreviation term := (list (atom * Z) * Z)%type.
Definition Expression : Type := list term.

Definition lex_compare {A} (cmp : A → A → comparison) : list A → list A → comparison :=
  fix go l1 l2 :=
    match l1, l2 with
    | [], [] => Eq
    | [], _ :: _ => Lt
    | _ :: _, [] => Gt
    | x :: l1', y :: l2' =>
        match cmp x y with
        | Eq => go l1' l2'
        | c => c
        end
    end.

Definition pair_compare {A} (cmp : A → A → comparison) (x y : A * Z) : comparison :=
  match cmp x.1 y.1 with
  | Eq => Z.compare x.2 y.2
  | c => c
  end.

(** The canonical order of factors: symbols, then applications by head and
    arguments, then sums.  Names are ordered as strings here, where the
    substrate orders symbols by the order of their creation.  The order
    fixes where a factor stands in a product and which of several possible
    matches a replacement takes first; no property stated below depends on
    that choice. *)
Fixpoint compare_atom (a b : atom) {struct a} : comparison :=
  match a, b with
  | ASym s, ASym t => String.compare s t
  | ASym _, _ => Lt
  | AFn _ _, ASym _ => Gt
  | AFn f xs, AFn g ys =>
      match String.compare f g with
      | Eq => lex_compare String.compare xs ys
      | c => c
      end
  | AFn _ _, ASum _ => Lt
  | ASum p, ASum q =>
      lex_compare (pair_compare (lex_compare (pair_compare compare_atom))) p q
  | ASum _, _ => Gt
  end.

Definition compare_monomial : monomial → monomial → comparison :=
  lex_compare (pair_compare compare_atom).

(** Multiply a monomial by [a^e]: equal factors merge, a zero exponent
    removes the factor. *)
Fixpoint insert_factor (a : atom) (e : Z) (m : monomial) : monomial :=
  match m with
  | [] => [(a, e)]
  | (b, e') :: m' =>
      match compare_atom a b with
      | Lt => (a, e) :: m
      | Eq => if decide (e + e' = 0)%Z then m' else (b, (e + e')%Z) :: m'
      | Gt => (b, e') :: insert_factor a e m'
      end
  end.

Definition mono_mul (m1 m2 : monomial) : monomial :=
  foldr (λ f acc, insert_factor f.1 f.2 acc) m2 m1.

(** Add the term [c * m] to a sum: like terms merge, a zero coefficient
    removes the term. *)
Fixpoint insert_term (m : monomial) (c : Z) (p : Expression) : Expression :=
  match p with
  | [] => [(m, c)]
  | (m', c') :: p' =>
      match compare_monomial m m' with
      | Lt => (m, c) :: p
      | Eq => if decide (c + c' = 0)%Z then p' else (m', (c + c')%Z) :: p'
      | Gt => (m', c') :: insert_term m c p'
      end
  end.

(** [Expression.num(c)] *)
Definition num (c : Z) : Expression := if decide (c = 0%Z) then [] else [([], c)].

(** [S(name)]: a named symbol. *)
Definition symbol (name : string) : Expression := [([(ASym name, 1%Z)], 1%Z)].

(** [f(i, ...)]: a function symbol applied to index symbols. *)
Definition call (f : string) (args : list string) : Expression :=
  [([(AFn f args, 1%Z)], 1%Z)].

(** [p + q] *)
Definition add (p q : Expression) : Expression :=
  foldr (λ t acc, insert_term t.1 t.2 acc) q p.

(** A sum of several terms enters a product as one factor. *)
Definition as_term (p : Expression) : term :=
  match p with
  | [t] => t
  | _ => ([(ASum p, 1%Z)], 1%Z)
  end.

Definition of_term (t : term) : Expression :=
  match t with
  | ([(ASum p, 1%Z)], 1%Z) => p
  | _ => [t]
  end.

(** [p * q]: coefficients multiply, factors merge, nothing is distributed. *)
Definition mul (p q : Expression) : Expression :=
  match p, q with
  | [], _ | _, [] => []
  | _, _ =>
      of_term (mono_mul (as_term p).1 (as_term q).1, ((as_term p).2 * (as_term q).2)%Z)
  end.

(** [p ** e] for an integer exponent. *)
Definition pow (p : Expression) (e : Z) : Expression :=
  if decide (e = 0%Z) then num 1
  else if decide (e = 1%Z) then p
  else match p with
       | [(m, c)] =>
           if decide (0 < e)%Z then [((λ f, (f.1, (f.2 * e)%Z)) <$> m, (c ^ e)%Z)]
           else if decide (c = 1%Z) then [((λ f, (f.1, (f.2 * e)%Z)) <$> m, 1%Z)]
           else [([(ASum p, e)], 1%Z)]
       | [] => if decide (0 < e)%Z then [] else [([(ASum p, e)], 1%Z)]
       | _ => [([(ASum p, e)], 1%Z)]
       end.

(** [-p], [p - q], [p / q] *)
Definition neg (p : Expression) : Expression := mul p (num (-1)).
Definition sub (p q : Expression) : Expression := add p (neg q).
Definition div (p q : Expression) : Expression := mul p (pow q (-1)).

(** *** Pattern replacement

    Modelled from the spec: the substrate's structural pattern-substitute,
    which returns the expression with all non-overlapping matches of a
    pattern replaced.  The patterns of the contraction engine are products
    of powers of indexed symbols whose arguments are wildcards.  A pattern
    with several factors matches any sub-collection of the factors of a
    product, exponents included; a pattern that is a power matches a factor
    with that exponent; a pattern that is a single atom matches that atom
    wherever it stands, also as the base of a power. *)

(** A symbol whose name ends in an underscore is a wildcard. *)
Fixpoint is_wildcard (s : string) : bool :=
  match s with
  | EmptyString => false
  | String c EmptyString => bool_decide (c = "_"%char)
  | String _ rest => is_wildcard rest
  end.

Definition binding := list (string * string).

Fixpoint lookup_binding (θ : binding) (w : string) : option string :=
  match θ with
  | [] => None
  | (w', v) :: θ' => if String.eqb w w' then Some v else lookup_binding θ' w
  end.

Definition match_arg (p t : string) (θ : binding) : option binding :=
  if is_wildcard p then
    match lookup_binding θ p with
    | Some v => if String.eqb v t then Some θ else None
    | None => Some ((p, t) :: θ)
    end
  else if String.eqb p t then Some θ else None.

Fixpoint match_args (ps ts : list string) (θ : binding) : option binding :=
  match ps, ts with
  | [], [] => Some θ
  | p :: ps', t :: ts' => θ' ← match_arg p t θ; match_args ps' ts' θ'
  | _, _ => None
  end.

(** A pattern atom matches an atom with the same head and matching
    arguments. *)
Definition match_atom (pa ta : atom) (θ : binding) : option binding :=
  match pa, ta with
  | AFn f ps, AFn g ts => if String.eqb f g then match_args ps ts θ else None
  | ASym s, ASym t => if String.eqb s t then Some θ else None
  | _, _ => None
  end.

(** Inside a product pattern, a pattern factor matches a factor of the
    product with a matching atom and the same exponent. *)
Definition match_factor (pf tf : atom * Z) (θ : binding) : option binding :=
  if bool_decide (pf.2 = tf.2) then match_atom pf.1 tf.1 θ else None.

(** The first factor of [after] for which [try] succeeds, tried in order;
    [try] receives the factor and all the other factors. *)
Fixpoint pick {R} (try : atom * Z → monomial → option R) (before after : monomial)
    : option R :=
  match after with
  | [] => None
  | tf :: after' =>
      match try tf (before ++ after') with
      | Some r => Some r
      | None => pick try (before ++ [tf]) after'
      end
  end.

(** Match all pattern factors against distinct factors of [m]; the result
    is the binding and the factors left over. *)
Fixpoint match_product (pat : monomial) (m : monomial) (θ : binding)
    : option (binding * monomial) :=
  match pat with
  | [] => Some (θ, m)
  | pf :: pat' =>
      pick (λ tf others, match_factor pf tf θ ≫= match_product pat' others) [] m
  end.

Definition subst_label (θ : binding) (s : string) : string :=
  default s (lookup_binding θ s).

Fixpoint instantiate_atom (θ : binding) (a : atom) : Expression :=
  match a with
  | ASym s => symbol s
  | AFn f args => call f (subst_label θ <$> args)
  | ASum p =>
      foldr (λ t acc,
        add (foldr (λ f acc', mul (pow (instantiate_atom θ f.1) f.2) acc') (num t.2) t.1) acc)
        (num 0) p
  end.

(** The right-hand side with the wildcards replaced by what they matched. *)
Definition instantiate (θ : binding) (rhs : Expression) : Expression :=
  instantiate_atom θ (ASum rhs).

(** Replace every non-overlapping match among the factors of one product;
    each match removes at least one factor, so [length m] rounds suffice. *)
Fixpoint replace_matches (fuel : nat) (pat : monomial) (rhs : Expression) (m : monomial)
    : list Expression * monomial :=
  match fuel with
  | O => ([], m)
  | Datatypes.S fuel' =>
      match match_product pat m [] with
      | None => ([], m)
      | Some (θ, rest) =>
          let r := replace_matches fuel' pat rhs rest in
          (instantiate θ rhs :: r.1, r.2)
      end
  end.

(** A pattern that is one atom, not a product and not a power, is looked for
    in every sub-expression, so it is also found as the base of a power:
    [a^e] with [a] matched becomes the right-hand side to the power [e]. *)
Fixpoint replace_bases (pa : atom) (rhs : Expression) (m : monomial)
    : list Expression * monomial :=
  match m with
  | [] => ([], [])
  | tf :: m' =>
      let r := replace_bases pa rhs m' in
      match match_atom pa tf.1 [] with
      | Some θ => (pow (instantiate θ rhs) tf.2 :: r.1, r.2)
      | None => (r.1, tf :: r.2)
      end
  end.

Definition is_sum (a : atom) : bool :=
  match a with
  | ASum _ => true
  | _ => false
  end.

(** Replacement inside one term; [rec] is the replacement inside a factor.
    [None] means that nothing matched. *)
Definition replace_term (rec : atom → option Expression) (pat : monomial)
    (rhs : Expression) (t : term) : option Expression :=
  let flat := filter (λ f, is_sum f.1 = false) t.1 in
  let r :=
    match pat with
    | [(pa, 1%Z)] => replace_bases pa rhs flat
    | _ => replace_matches (length flat) pat rhs flat
    end in
  let nested := (λ f, (f, rec f.1)) <$> t.1 in
  if bool_decide (r.1 = []) && forallb (λ x, bool_decide (x.2 = None)) nested then None
  else
    let e1 := foldl mul [(r.2, t.2)] r.1 in
    Some (foldl (λ acc x,
            if is_sum x.1.1
            then mul acc (pow (default [([(x.1.1, 1%Z)], 1%Z)] x.2) x.1.2)
            else acc) e1 nested).

Fixpoint replace_atom (pat : monomial) (rhs : Expression) (a : atom)
    : option Expression :=
  match a with
  | ASum p =>
      let rs := (λ t, (t, replace_term (replace_atom pat rhs) pat rhs t)) <$> p in
      if forallb (λ x, bool_decide (x.2 = None)) rs then None
      else Some (foldl (λ acc x, add acc (default [x.1] x.2)) (num 0) rs)
  | _ => None
  end.

(** [expr.replace(pattern, rhs)] *)
Definition replace (expr pattern rhs : Expression) : Expression :=
  match pattern with
  | [(f :: pat, 1%Z)] => default expr (replace_atom (f :: pat) rhs (ASum expr))
  | _ => expr
  end.

End Symbolica.

(** ** contraction.py *)
Module TensorContraction.
Import Symbolica.

Definition xa (i : string) : Expression := call "xa" [i].
Definition x (i : string) : Expression := call "x" [i].
Definition n (i : string) : Expression := call "n" [i].
Definition delta (i j : string) : Expression := call "delta" [i; j].
Definition r0 : Expression := symbol "r0".
Definition ra0 : Expression := symbol "ra0".
Definition dot (a b : string) : Expression := call "dot" [a; b].

Definition i_ : string := "i_".
Definition j_ : string := "j_".
Definition k_ : string := "k_".
Definition l_ : string := "l_".

Definition _contract_xa_xa (expr : Expression) : Expression :=
  let pattern := mul (xa i_) (xa i_) in
  let replacement := pow ra0 2 in
  replace expr pattern replacement.

Definition _contract_xa_n (expr : Expression) : Expression :=
  let pattern := mul (xa i_) (n i_) in
  let replacement := dot "xa" "n" in
  let result := replace expr pattern replacement in
  let pattern_rev := mul (n i_) (xa i_) in
  replace result pattern_rev replacement.

Definition _contract_x_x (expr : Expression) : Expression :=
  let pattern := mul (x i_) (x i_) in
  let replacement := pow r0 2 in
  replace expr pattern replacement.

Definition _contract_x_n (expr : Expression) : Expression :=
  let pattern := mul (x i_) (n i_) in
  let replacement := r0 in
  let result := replace expr pattern replacement in
  let pattern_rev := mul (n i_) (x i_) in
  replace result pattern_rev replacement.

Definition _contract_n_n (expr : Expression) : Expression :=
  let pattern := mul (n i_) (n i_) in
  let replacement := num 1 in
  replace expr pattern replacement.

Definition _contract_delta (expr : Expression) : Expression :=
  let pattern := mul (delta i_ j_) (xa j_) in
  let replacement := xa i_ in
  let result := replace expr pattern replacement in
  let pattern_rev := mul (xa j_) (delta i_ j_) in
  let result := replace result pattern_rev replacement in
  let pattern := mul (delta i_ j_) (n j_) in
  let replacement := n i_ in
  let result := replace result pattern replacement in
  let pattern_rev := mul (n j_) (delta i_ j_) in
  let result := replace result pattern_rev replacement in
  let pattern := delta i_ i_ in
  let replacement := num 3 in
  replace result pattern replacement.

Definition contract_indices (expr : Expression) : Expression :=
  let result := expr in
  let result := _contract_xa_xa result in
  let result := _contract_xa_n result in
  let result := _contract_x_x result in
  let result := _contract_x_n result in
  let result := _contract_n_n result in
  let result := _contract_delta result in
  result.

Definition expand_dot_products (expr : Expression) : Expression :=
  let pattern := dot "xa" "n" in
  let i1 := "i1"%string in
  let replacement := mul (xa i1) (n i1) in
  replace expr pattern replacement.

End TensorContraction.

(** [create_indexed_product(tensor_fn, indices)], a function of the module
    [contraction]; a label given as a string and a label given as a symbol
    are the same label. *)
Definition create_indexed_product (tensor_fn : string) (indices : list string)
    : Symbolica.Expression :=
  foldl (λ result idx, Symbolica.mul result (Symbolica.call tensor_fn [idx]))
    (Symbolica.num 1) indices.

(** ** The index-pairing generator

    [_generate_k_pairings] is defined twice in the package, with the same
    body, in [MultipoleMoments] and in [DerivativeEngine].  A pairing is a
    list of position pairs.  [n] and [k] range over the non-negative
    integers, as at every call site. *)
Module Pairings.

Definition pairing := list (nat * nat).

(** [tuple(sorted(p))] for a pair [p]. *)
Definition tuple_sorted (p : nat * nat) : nat * nat :=
  if decide (p.1 ≤ p.2) then p else (p.2, p.1).

(** The order of Python tuples of integers. *)
Definition tuple_le (p q : nat * nat) : Prop :=
  p.1 < q.1 ∨ (p.1 = q.1 ∧ p.2 ≤ q.2).

Global Instance tuple_le_dec p q : Decision (tuple_le p q).
Proof. unfold tuple_le. apply _. Defined.

(** [sorted(l)] on a list of pairs. *)
Definition sorted (l : list (nat * nat)) : list (nat * nat) := merge_sort tuple_le l.

(** [tuple(sorted([tuple(sorted(p)) for p in pairing]))] *)
Definition normalized (p : pairing) : list (nat * nat) := sorted (tuple_sorted <$> p).

(** The loop that drops every pairing whose normal form was seen before. *)
Fixpoint remove_duplicates (result : list pairing) (seen : gset (list (nat * nat)))
    (unique : list pairing) : list pairing :=
  match result with
  | [] => unique
  | p :: rest =>
      if decide (normalized p ∈ seen) then remove_duplicates rest seen unique
      else remove_duplicates rest ({[normalized p]} ∪ seen) (unique ++ [p])
  end.

(** [[tuple(remaining[idx] for idx in pair) for pair in sub_pairing]];
    indexing past the end of [remaining] raises. *)
Definition map_back (remaining : list nat) (sub_pairing : pairing) : option pairing :=
  mapM (λ pair, a ← remaining !! pair.1; b ← remaining !! pair.2; Some (a, b)) sub_pairing.

(** The pairs [(i, j)] in the order of
    [for i in range(n): for j in range(i + 1, n)]. *)
Definition all_pairs (n : nat) : list (nat * nat) :=
  i ← range 0 n; j ← range (i + 1) n; [(i, j)].

(** [[idx for idx in range(n) if idx != i and idx != j]] *)
Definition remaining_of (n : nat) (first_pair : nat * nat) : list nat :=
  filter (λ idx, idx ≠ first_pair.1 ∧ idx ≠ first_pair.2) (range 0 n).

Fixpoint _generate_k_pairings (n k : nat) {struct k} : option (list pairing) :=
  match k with
  | 0 => Some [[]]
  | Datatypes.S k' =>
      match k' with
      | 0 => Some ((λ ij, [ij]) <$> all_pairs n)
      | Datatypes.S _ =>
          blocks ← mapM (λ first_pair,
            let remaining := remaining_of n first_pair in
            if decide (2 * k' ≤ length remaining) then
              sub_pairings ← _generate_k_pairings (length remaining) k';
              mapM (λ sub_pairing,
                      mapped_pairing ← map_back remaining sub_pairing;
                      Some (first_pair :: mapped_pairing)) sub_pairings
            else Some []) (all_pairs n);
          Some (remove_duplicates (concat blocks) ∅ [])
      end
  end.

(** The enumeration with the exception plumbing removed: [remaining[idx]]
    is read with a default.  [generate_total] below shows that the generator
    never raises and returns exactly this list. *)
Definition map_back_total (remaining : list nat) (sub_pairing : pairing) : pairing :=
  (λ pair, (remaining !!! pair.1, remaining !!! pair.2)) <$> sub_pairing.

Fixpoint pairings (n k : nat) {struct k} : list pairing :=
  match k with
  | 0 => [[]]
  | Datatypes.S k' =>
      match k' with
      | 0 => (λ ij, [ij]) <$> all_pairs n
      | Datatypes.S _ =>
          remove_duplicates
            (first_pair ← all_pairs n;
             let remaining := remaining_of n first_pair in
             if decide (2 * k' ≤ length remaining) then
               (λ sub_pairing, first_pair :: map_back_total remaining sub_pairing)
                 <$> pairings (length remaining) k'
             else []) ∅ []
      end
  end.

(** The positions a pairing covers, in order of appearance. *)
Definition positions (p : pairing) : list nat := p ≫= λ pair, [pair.1; pair.2].

(** A pairing of [n] positions with [k] pairs: every pair is [(a, b)] with
    [a < b < n], and no position occurs twice. *)
Definition is_pairing (n k : nat) (p : pairing) : Prop :=
  length p = k ∧ Forall (λ pair, pair.1 < pair.2 < n) p ∧ NoDup (positions p).

(** The position that [remaining[y]] holds after [i < j] are removed. *)
Definition skip2 (i j y : nat) : nat :=
  if decide (y < i) then y else if decide (y + 1 < j) then y + 1 else y + 2.

Definition unskip2 (i j x : nat) : nat :=
  if decide (x < i) then x else if decide (x < j) then x - 1 else x - 2.

(** What the duplicate-removal loop appends to [unique]: the pairings whose
    normal form is not in [seen] and did not occur earlier in the list. *)
Fixpoint first_occurrences (seen : gset (list (nat * nat))) (result : list pairing)
    : list pairing :=
  match result with
  | [] => []
  | p :: rest =>
      if decide (normalized p ∈ seen) then first_occurrences seen rest
      else p :: first_occurrences ({[normalized p]} ∪ seen) rest
  end.

End Pairings.

(** ** multipole_moments.py *)
Module MultipoleMoments.
Import Symbolica.

Definition xa := TensorContraction.xa.
Definition n := TensorContraction.n.
Definition r0 := TensorContraction.r0.
Definition ra0 := TensorContraction.ra0.
Definition delta := TensorContraction.delta.

Definition _generate_k_pairings := Pairings._generate_k_pairings.

(** The generator called with integers.  For [k < 0] neither base case
    applies: the general branch calls itself with [k - 1] on two positions
    fewer until no pair is left, appends nothing and returns the empty
    list.  [range(n)] is empty for [n <= 0]. *)
Definition generate_k_pairings_at (n k : Z) : option (list Pairings.pairing) :=
  if decide (k < 0)%Z then Some []
  else _generate_k_pairings (Z.to_nat n) (Z.to_nat k).

Fixpoint double_factorial_nat (m : nat) : Z :=
  match m with
  | 0 => 1
  | 1 => 1
  | Datatypes.S (Datatypes.S m' as p) => Z.of_nat (Datatypes.S p) * double_factorial_nat m'
  end.

(** [_double_factorial(n)]: 1 for [n <= 0] and for [n == 1], otherwise
    [n * _double_factorial(n - 2)]. *)
Definition _double_factorial (n : Z) : Z := double_factorial_nat (Z.to_nat n).

Definition _Q_0 : Expression := num 1.

Definition _Q_1 (i : string) : Expression := xa i.

Definition _Q_2 (i j : string) : Expression :=
  let term1 := mul (mul (num 3) (xa i)) (xa j) in
  let term2 := mul (delta i j) (pow ra0 2) in
  sub term1 term2.

Definition _Q_3 (i j k : string) : Expression :=
  let term1 := mul (mul (mul (num 15) (xa i)) (xa j)) (xa k) in
  let term2 :=
    mul (mul (num 3) (pow ra0 2))
        (add (add (mul (delta i j) (xa k)) (mul (delta i k) (xa j)))
             (mul (delta j k) (xa i))) in
  sub term1 term2.

(** The term of one pairing: a delta per pair, then [xa] for every
    position that is in no pair.  [indices[pos]] past the end raises. *)
Definition pairing_term (n : Z) (indices : list string) (pairing : Pairings.pairing)
    : option Expression :=
  term ← for_each pairing (λ term p,
            a ← indices !! p.1; b ← indices !! p.2;
            Some (mul term (delta a b))) (num 1);
  let paired_positions : gset nat :=
    foldl (λ s p, {[p.2]} ∪ ({[p.1]} ∪ s)) ∅ pairing in
  for_each (range 0 (Z.to_nat n)) (λ term pos,
    if decide (pos ∉ paired_positions)
    then a ← indices !! pos; Some (mul term (xa a))
    else Some term) term.

Definition _trace_with_k_pairs (n : Z) (indices : list string) (k : Z)
    : option Expression :=
  if decide (k > n `div` 2)%Z then Some (num 0)
  else
    all_pairings ← generate_k_pairings_at n k;
    total ← for_each all_pairings (λ total pairing,
               term ← pairing_term n indices pairing;
               Some (add total term)) (num 0);
    let coeff_arg := (2 * n - 2 * k - 1)%Z in
    let trace_coeff :=
      if decide (coeff_arg > 0)%Z then _double_factorial coeff_arg else 1%Z in
    let sign := pow_minus_one k in
    Some (mul (mul (num (sign * trace_coeff)) (pow ra0 (2 * k))) total).

Definition _compute_all_traces (n : Z) (indices : list string) : option Expression :=
  let max_pairs := (n `div` 2)%Z in
  for_each (seqZ 1 max_pairs) (λ total num_pairs,
    pair_terms ← _trace_with_k_pairs n indices num_pairs;
    Some (add total pair_terms)) (num 0).

Definition _Q_n_general (n : Z) (indices : list string) : option Expression :=
  let main_coeff := _double_factorial (2 * n - 1) in
  let product := foldl (λ product idx, mul product (xa idx)) (num main_coeff) indices in
  trace_terms ← _compute_all_traces n indices;
  Some (add product trace_terms).

(** [[S(f"i{k}") for k in range(1, n + 1)]] *)
Definition generic_indices (n : Z) : list string :=
  (λ k : Z, "i" +:+ pretty k) <$> seqZ 1 n.

(** [Q_tensor(n, indices=None)]; [None] stands for an exception. *)
Definition Q_tensor (n : Z) (indices : option (list string)) : option Expression :=
  let indices := default (generic_indices n) indices in
  if decide (n = 0%Z) then Some _Q_0
  else if decide (n = 1%Z) then i ← indices !! 0%nat; Some (_Q_1 i)
  else _Q_n_general n indices.

(** [_factorial(n)]: 1 for [n <= 0], otherwise the product accumulated over
    [range(1, n + 1)]. *)
Definition _factorial (n : Z) : Z :=
  if decide (n ≤ 0)%Z then 1%Z
  else foldl (λ result i, (result * i)%Z) 1%Z (seqZ 1 n).

End MultipoleMoments.

(** [verify_traceless(Q_expr, indices, tc)], a function of the module
    [multipole_moments]: it builds the tensor with the first two labels set
    equal, contracts it, prints the result and returns [True].  Printing is
    left out. *)
Definition verify_traceless (Q_expr : Symbolica.Expression) (indices : list string)
    : option bool :=
  if decide (length indices < 2) then Some true
  else
    i_same ← indices !! 0;
    let contracted_indices := [i_same; i_same] ++ drop 2 indices in
    Q_contracted ← MultipoleMoments.Q_tensor (Z.of_nat (length indices))
                      (Some contracted_indices);
    let result := TensorContraction.contract_indices Q_contracted in
    Some true.

(** ** derivatives.py *)
Module DerivativeEngine.
Import Symbolica.

Definition r0 := TensorContraction.r0.
Definition x := TensorContraction.x.
Definition n := TensorContraction.n.
Definition delta := TensorContraction.delta.

Definition derivative_1_over_r_power (power : Z) (index : string) : Expression :=
  let coeff := neg (num power) in
  div (mul coeff (x index)) (pow r0 (power + 2)).

Definition derivative_1_over_r (index : string) : Expression :=
  derivative_1_over_r_power 1 index.

Definition second_derivative_1_over_r (index1 index2 : string) : Expression :=
  let numerator :=
    sub (mul (mul (num 3) (x index1)) (x index2)) (mul (delta index1 index2) (pow r0 2)) in
  div numerator (pow r0 5).

Definition _generate_k_pairings := Pairings._generate_k_pairings.

Definition generate_k_pairings_at (n k : Z) : option (list Pairings.pairing) :=
  if decide (k < 0)%Z then Some []
  else _generate_k_pairings (Z.to_nat n) (Z.to_nat k).

Definition _double_factorial (n : Z) : Z :=
  MultipoleMoments.double_factorial_nat (Z.to_nat n).

Definition pairing_term (n : Z) (indices : list string) (pairing : Pairings.pairing)
    : option Expression :=
  term ← for_each pairing (λ term p,
            a ← indices !! p.1; b ← indices !! p.2;
            Some (mul term (delta a b))) (num 1);
  let paired_positions : gset nat :=
    foldl (λ s p, {[p.2]} ∪ ({[p.1]} ∪ s)) ∅ pairing in
  for_each (range 0 (Z.to_nat n)) (λ term pos,
    if decide (pos ∉ paired_positions)
    then a ← indices !! pos; Some (mul term (x a))
    else Some term) term.

Definition _derivative_trace_with_k_pairs (n : Z) (indices : list string) (k : Z)
    : option Expression :=
  if decide (k > n `div` 2)%Z then Some (num 0)
  else
    all_pairings ← generate_k_pairings_at n k;
    total ← for_each all_pairings (λ total pairing,
               term ← pairing_term n indices pairing;
               Some (add total term)) (num 0);
    let coeff_arg := (2 * n - 2 * k - 1)%Z in
    let trace_coeff :=
      if decide (coeff_arg > 0)%Z then _double_factorial coeff_arg else 1%Z in
    Some (mul (mul (num trace_coeff) (pow r0 (2 * k))) total).

Definition _compute_all_derivative_traces (n : Z) (indices : list string)
    : option Expression :=
  let max_pairs := (n `div` 2)%Z in
  for_each (seqZ 1 max_pairs) (λ total num_pairs,
    pair_terms ← _derivative_trace_with_k_pairs n indices num_pairs;
    Some (add total pair_terms)) (num 0).

Definition _build_derivative_numerator (n : Z) (indices : list string)
    : option Expression :=
  let main_coeff := _double_factorial (2 * n - 1) in
  let main_term := foldl (λ main_term idx, mul main_term (x idx)) (num main_coeff) indices in
  trace_terms ← _compute_all_derivative_traces n indices;
  Some (sub main_term trace_terms).

Definition _recursive_derivative (n : Z) (indices : list string) : option Expression :=
  numerator ← _build_derivative_numerator n indices;
  let power := (2 * n + 1)%Z in
  let sign := pow_minus_one n in
  Some (div (mul (num sign) numerator) (pow r0 power)).

Definition nth_derivative_1_over_r (n : Z) (indices : list string) : option Expression :=
  if decide (n = 0%Z) then Some (div (num 1) r0)
  else if decide (n = 1%Z) then i ← indices !! 0%nat; Some (derivative_1_over_r i)
  else if decide (n = 2%Z) then
    i ← indices !! 0%nat; j ← indices !! 1%nat; Some (second_derivative_1_over_r i j)
  else _recursive_derivative n indices.

Definition apply_derivative_with_contraction (n : Z) (indices : list string)
    : option Expression :=
  deriv ← nth_derivative_1_over_r n indices;
  Some (TensorContraction.contract_indices deriv).

End DerivativeEngine.

(** [generate_derivative_table(max_order)], a function of the module
    [derivatives]: a dictionary from [(n, tuple(indices))] to the derivative
    of order [n] on the labels [i1 ... in].  An order whose derivative raises
    is reported and left out. *)
Definition generate_derivative_table (max_order : Z)
    : gmap (Z * list string) Symbolica.Expression :=
  foldl (λ table n,
      let indices := MultipoleMoments.generic_indices n in
      match DerivativeEngine.nth_derivative_1_over_r n indices with
      | Some deriv => <[(n, indices) := deriv]> table
      | None => table
      end) ∅ (seqZ 0 (max_order + 1)).

(** ** verification.py *)
Module Verifier.

(** [verify_Q_symmetry(n, verbose)]: it builds the tensor on the labels
    [i1 ... in], for the orders 2 and 3 also on some permutations of them,
    prints what it built and returns [True].  Printing is left out;
    [i, j = indices] raises unless there are exactly two labels. *)
Definition verify_Q_symmetry (n : Z) (verbose : bool) : option bool :=
  if decide (n = 0%Z) then Some true
  else if decide (n = 1%Z) then Some true
  else
    let indices := MultipoleMoments.generic_indices n in
    Q_original ← MultipoleMoments.Q_tensor n (Some indices);
    if decide (n = 2%Z) then
      match indices with
      | [i; j] =>
          Q_ij ← MultipoleMoments.Q_tensor 2 (Some [i; j]);
          Q_ji ← MultipoleMoments.Q_tensor 2 (Some [j; i]);
          Some true
      | _ => None
      end
    else if decide (n = 3%Z) then
      match indices with
      | [i; j; k] =>
          let perms_to_check := [[i; j; k]; [j; i; k]; [k; j; i]] in
          _ ← for_each perms_to_check (λ _ perm_indices,
                 Q_perm ← MultipoleMoments.Q_tensor 3 (Some perm_indices);
                 Some ()) ();
          Some true
      | _ => None
      end
    else Some true.

End Verifier.

(** ** The pairing-sum algorithm in the words of the specification

    Both builders share one algorithm shape.  It is written here once, over
    the vector symbol, the magnitude symbol and the sign convention, without
    the exception plumbing: [indices[pos]] is read with a default. *)
Module PairingSum.
Import Symbolica.

Section pairing_sum.
Context (vec : string → Expression) (mag : Expression) (alternating : bool).

  (** [doubleFactorial(2n-1) · Π_{idx in indices} vec(idx)] *)
Definition main_term (n : Z) (indices : list string) : Expression :=
    foldl (λ product idx, mul product (vec idx))
      (num (MultipoleMoments._double_factorial (2 * n - 1))) indices.

  (** [Π_{(p,q) in pairing} delta(indices[p], indices[q])] times
      [Π_{pos not covered by pairing} vec(indices[pos])] *)
Definition pairing_product (n : Z) (indices : list string) (pairing : Pairings.pairing)
      : Expression :=
    foldl (λ term pos,
        if decide (pos ∈ Pairings.positions pairing) then term
        else mul term (vec (indices !!! pos)))
      (foldl (λ term p,
          mul term (TensorContraction.delta (indices !!! p.1) (indices !!! p.2)))
        (num 1) pairing)
      (range 0 (Z.to_nat n)).

  (** The coefficient of the [k]-pair term: [doubleFactorial(2n-2k-1)], and 1
      when [2n-2k-1 <= 0]; with the sign [(-1)^k] when the sum alternates. *)
Definition coefficient (n k : Z) : Z :=
    ((if alternating then (-1) ^ k else 1)
     * (if decide (2 * n - 2 * k - 1 > 0)
        then MultipoleMoments._double_factorial (2 * n - 2 * k - 1) else 1))%Z.

  (** [coefficient · mag^{2k} · Σ_{pairing in generate_pairings(n,k)} ...] *)
Definition trace_term (n : Z) (indices : list string) (k : Z) : Expression :=
    mul (mul (num (coefficient n k)) (pow mag (2 * k)))
      (foldl (λ total pairing, add total (pairing_product n indices pairing)) (num 0)
         (Pairings.pairings (Z.to_nat n) (Z.to_nat k))).

  (** [Σ_{k=1}^{⌊n/2⌋} trace_term(k)] *)
Definition trace_sum (n : Z) (indices : list string) : Expression :=
    foldl (λ total k, add total (trace_term n indices k)) (num 0) (seqZ 1 (n `div` 2)).

  (** The text that [_trace_with_k_pairs] and [_derivative_trace_with_k_pairs]
      have in common, and likewise for the functions around them. *)
Definition pairing_term_body (n : Z) (indices : list string)
      (pairing : Pairings.pairing) : option Expression :=
    term ← for_each pairing (λ term p,
              a ← indices !! p.1; b ← indices !! p.2;
              Some (mul term (TensorContraction.delta a b))) (num 1);
    let paired_positions : gset nat :=
      foldl (λ s p, {[p.2]} ∪ ({[p.1]} ∪ s)) ∅ pairing in
    for_each (range 0 (Z.to_nat n)) (λ term pos,
      if decide (pos ∉ paired_positions)
      then a ← indices !! pos; Some (mul term (vec a))
      else Some term) term.

Definition total_body (n : Z) (indices : list string)
      (all_pairings : list Pairings.pairing) : option Expression :=
    for_each all_pairings (λ total pairing,
      term ← pairing_term_body n indices pairing;
      Some (add total term)) (num 0).
End pairing_sum.

End PairingSum.

(** ** The two builders in the words of the specification

    [build_Q] and the numerator of [build_nth_derivative] are one pairing
    sum; the weights are double factorials, defined here as the
    specification defines them and not as the code computes them. *)
Module BuilderSpec.
Import Symbolica.

(** [doubleFactorial(m)]: 1 for [m <= 0]; otherwise the product of the
    integers of one parity up to [m], as in [5!! = 5·3·1]. *)
Definition doubleFactorial (m : Z) : Z :=
  if decide (m ≤ 0)%Z then 1%Z
  else foldr Z.mul 1%Z (filter (λ j, Z.even j = Z.even m) (seqZ 1 m)).

Section builder.
Context (vec : string → Expression) (mag : Expression) (alternating : bool).

  (** [doubleFactorial(2n-1) · Π_{idx in indices} vec(idx)] *)
Definition main_term (n : Z) (indices : list string) : Expression :=
    foldl (λ product idx, mul product (vec idx))
      (num (doubleFactorial (2 * n - 1))) indices.

  (** [(-1)^k · doubleFactorial(2n-2k-1) · mag^{2k} · Σ_{pairing} ...];
      without the sign [(-1)^k] when the sum does not alternate. *)
Definition trace_term (n : Z) (indices : list string) (k : Z) : Expression :=
    mul (mul (num ((if alternating then (-1) ^ k else 1)
                   * doubleFactorial (2 * n - 2 * k - 1))%Z)
             (pow mag (2 * k)))
      (foldl (λ total pairing,
                add total (PairingSum.pairing_product vec n indices pairing))
         (num 0) (Pairings.pairings (Z.to_nat n) (Z.to_nat k))).

  (** [Σ_{k=1}^{⌊n/2⌋} trace_term(k)] *)
Definition trace_sum (n : Z) (indices : list string) : Expression :=
    foldl (λ total k, add total (trace_term n indices k)) (num 0) (seqZ 1 (n `div` 2)).
End builder.

(** [build_Q(n, indices)] for [n >= 2]: [main_term + trace_correction],
    the trace terms alternating in sign. *)
Definition build_Q (n : Z) (indices : list string) : Expression :=
  add (main_term TensorContraction.xa n indices)
      (trace_sum TensorContraction.xa TensorContraction.ra0 true n indices).

(** [numerator(n, indices)]: [main_term - trace_sum_without_alternation]. *)
Definition numerator (n : Z) (indices : list string) : Expression :=
  sub (main_term TensorContraction.x n indices)
      (trace_sum TensorContraction.x TensorContraction.r0 false n indices).

(** [build_nth_derivative(n, indices)] for [n >= 3]:
    [sign · numerator(n, indices) / field-magnitude^{2n+1}]. *)
Definition build_nth_derivative (n : Z) (indices : list string) : Expression :=
  div (mul (num ((-1) ^ n)) (numerator n indices)) (pow TensorContraction.r0 (2 * n + 1)).

End BuilderSpec.

(** ** Occurrences of a pattern

    What it means for an expression to contain a rewrite pattern, stated
    without reference to the matching algorithm. *)
Module Occurrence.
Import Symbolica.

(** A wildcard assignment applied to the arguments of a pattern factor. *)
Definition assign (θ : string → string) (s : string) : string :=
  if is_wildcard s then θ s else s.

Definition assign_factor (θ : string → string) (f : atom * Z) : atom * Z :=
  match f.1 with
  | AFn g args => (AFn g (assign θ <$> args), f.2)
  | _ => f
  end.

(** The product [m] contains the pattern: under some assignment of the
    wildcards, the factors of the pattern are among the factors of [m], or
    the pattern is a single atom and that atom is the base of a factor of
    [m], whatever the exponent. *)
Definition matches (pat m : monomial) : Prop :=
  ∃ θ : string → string,
    assign_factor θ <$> pat ⊆+ m
    ∨ ∃ pa e, pat = [(pa, 1%Z)] ∧ ((assign_factor θ (pa, 1%Z)).1, e) ∈ m.

(** The pattern occurs in a term of the expression or, recursively, in a sum
    that is a factor of one of its terms. *)
Inductive occurs (pat : monomial) : Expression → Prop :=
| occurs_here (e : Expression) (m : monomial) (c : Z) :
    (m, c) ∈ e → matches pat m → occurs pat e
| occurs_nested (e : Expression) (m : monomial) (c : Z) (q : Expression) (k : Z) :
    (m, c) ∈ e → (ASum q, k) ∈ m → occurs pat q → occurs pat e.

(** The factors of a pattern given as an expression. *)
Definition pattern_factors (pattern : Expression) : monomial := (as_term pattern).1.

(** The patterns that [contract_indices] rewrites, in the order in which it
    tries them. *)
Definition recognized_patterns : list Expression :=
  let xa := TensorContraction.xa in
  let x := TensorContraction.x in
  let n := TensorContraction.n in
  let delta := TensorContraction.delta in
  let i_ := TensorContraction.i_ in
  let j_ := TensorContraction.j_ in
  [ mul (xa i_) (xa i_);
    mul (xa i_) (n i_); mul (n i_) (xa i_);
    mul (x i_) (x i_);
    mul (x i_) (n i_); mul (n i_) (x i_);
    mul (n i_) (n i_);
    mul (delta i_ j_) (xa j_); mul (xa j_) (delta i_ j_);
    mul (delta i_ j_) (n j_); mul (n j_) (delta i_ j_);
    delta i_ i_ ].

(** The expression contains none of the recognized patterns. *)
Definition pattern_free (e : Expression) : Prop :=
  ∀ pattern, pattern ∈ recognized_patterns → ¬ occurs (pattern_factors pattern) e.

(** [r] is what repeated contraction of [e] arrives at: some number of
    passes gives [r], and one more pass leaves [r] unchanged. *)
Definition contracts_to (e r : Expression) : Prop :=
  ∃ passes : nat,
    Nat.iter passes TensorContraction.contract_indices e = r
    ∧ TensorContraction.contract_indices r = r.

Fixpoint atom_size (a : atom) : nat :=
  match a with
  | ASum p =>
      Datatypes.S (sum_list_with (λ t, sum_list_with (λ f, atom_size f.1) t.1) p)
  | _ => 1
  end.

End Occurrence.

(** ** The value of an expression

    An interpretation assigns an integer to every symbol and to every
    indexed symbol applied to labels; sums, products and non-negative powers
    are read as such.  (A negative power reads as 0: the tensor Q, for which
    this reading is used, has none.) *)
Module Semantics.
Import Symbolica.

Record interpretation : Type := {
  sym_value : string → Z;
  fn_value : string → list string → Z
}.

Fixpoint eval_atom (ρ : interpretation) (a : atom) : Z :=
  match a with
  | ASym s => sym_value ρ s
  | AFn f args => fn_value ρ f args
  | ASum p =>
      foldr (λ t acc,
        (t.2 * foldr (λ f acc', (eval_atom ρ f.1 ^ f.2 * acc')%Z) 1%Z t.1 + acc)%Z)
        0%Z p
  end.

Definition eval_monomial (ρ : interpretation) (m : monomial) : Z :=
  foldr (λ f acc, (eval_atom ρ f.1 ^ f.2 * acc)%Z) 1%Z m.

Definition eval (ρ : interpretation) (e : Expression) : Z :=
  foldr (λ t acc, (t.2 * eval_monomial ρ t.1 + acc)%Z) 0%Z e.

(** The interpretation reads [delta] as a symmetric symbol. *)
Definition delta_symmetric (ρ : interpretation) : Prop :=
  ∀ a b, fn_value ρ "delta" [a; b] = fn_value ρ "delta" [b; a].

Definition sumZ (l : list Z) : Z := foldr Z.add 0%Z l.
Definition prodZ (l : list Z) : Z := foldr Z.mul 1%Z l.

(** No top-level exponent is negative. *)
Definition nonneg (e : Expression) : Prop :=
  Forall (λ t : term, Forall (λ f : atom * Z, (0 ≤ f.2)%Z) t.1) e.

(** At most one term, whose factors are symbols and indexed symbols with
    non-negative exponents. *)
Definition flat (e : Expression) : Prop :=
  length e ≤ 1
  ∧ Forall (λ t : term, Forall (λ f : atom * Z, (0 ≤ f.2)%Z ∧ is_sum f.1 = false) t.1) e.

End Semantics.

(** ** Auxiliary notions of the proofs *)

(** The list the duplicate-removal loop of the generator runs over. *)
Definition candidates (n k : nat) : list Pairings.pairing :=
  first_pair ← Pairings.all_pairs n;
  if decide (2 * k ≤ length (Pairings.remaining_of n first_pair)) then
    (λ sub_pairing,
       first_pair :: Pairings.map_back_total (Pairings.remaining_of n first_pair) sub_pairing)
      <$> Pairings.pairings (length (Pairings.remaining_of n first_pair)) k
  else [].

Definition ascending (p : Pairings.pairing) : Prop := Forall (λ pair, pair.1 < pair.2) p.

(** The set of unordered pairs of a pairing. *)
Definition unordered_pairs (p : Pairings.pairing) : gset (gset nat) :=
  list_to_set ((λ pair, {[pair.1; pair.2]} : gset nat) <$> p).

(** The assignment that a binding list stands for. *)
Definition assignment_of (θ : Symbolica.binding) : string → string :=
  λ s, default s (Symbolica.lookup_binding θ s).

Definition extends (θ θ' : Symbolica.binding) : Prop :=
  ∀ w v, Symbolica.lookup_binding θ w = Some v → Symbolica.lookup_binding θ' w = Some v.

(** The transposition of the positions [a] and [a + 1]. *)
Definition swap_at (a p : nat) : nat :=
  if decide (p = a) then S a else if decide (p = S a) then a else p.

(** A pairing with its positions renamed by [σ]. *)
Definition act (σ : nat → nat) (P : Pairings.pairing) : Pairings.pairing :=
  (λ pair, Pairings.tuple_sorted (σ pair.1, σ pair.2)) <$> P.

(** The value of the term of one pairing. *)
Definition pairing_value (ρ : Semantics.interpretation) (vec : string) (n : nat)
    (indices : list string) (P : Pairings.pairing) : Z :=
  (Semantics.prodZ
     ((λ p, Semantics.fn_value ρ "delta" [indices !!! p.1; indices !!! p.2]) <$> P)
   * Semantics.prodZ
       ((λ pos, Semantics.fn_value ρ vec [indices !!! pos])
          <$> filter (λ pos, pos ∉ Pairings.positions P) (seq 0 n)))%Z.

(** A pairing in normal form. *)
Definition canonical (n k : nat) (s : Pairings.pairing) : Prop :=
  Pairings.is_pairing n k s ∧ Pairings.normalized s = s.

(** An interpretation: [delta] is the Kronecker symbol, a vector component
    is the length of its label, and a magnitude is 2. *)
Definition kronecker : Semantics.interpretation :=
  {| Semantics.sym_value := λ _, 2%Z;
     Semantics.fn_value := λ f args,
       match args with
       | [a] => Z.of_nat (String.length a)
       | [a; b] => if decide (a = b) then 1%Z else 0%Z
       | _ => 0%Z
       end |}.

(** Sums of products of powers of symbols and indexed symbols, with
    non-negative exponents. *)
Definition flat_terms (e : Symbolica.Expression) : Prop :=
  Forall (λ t : list (Symbolica.atom * Z) * Z,
            Forall (λ f : Symbolica.atom * Z, (0 ≤ f.2)%Z ∧ Symbolica.is_sum f.1 = false) t.1) e.

(** The value of the sum over the pairings with [k] pairs. *)
Definition pairing_sum (ρ : Semantics.interpretation) (vec : string) (k : nat)
    (indices : list string) : Z :=
  Semantics.sumZ (pairing_value ρ vec (length indices) indices
                    <$> Pairings.pairings (length indices) k).

(** The labels that are left when the positions of a pair are taken out. *)
Definition without (indices : list string) (pair : nat * nat) : list string :=
  (λ pos, indices !!! pos) <$> Pairings.remaining_of (length indices) pair.

(** The Euclidean reading in three dimensions: a label stands for a
    coordinate, every vector symbol reads as the vector [X], [delta] as the
    Kronecker symbol and every magnitude symbol as [r]. *)
Definition euclid (coord : string → nat) (X : nat → Z) (r : Z) : Semantics.interpretation :=
  {| Semantics.sym_value := λ _, r;
     Semantics.fn_value := λ f args,
       match args with
       | [a] => X (coord a)
       | [a; b] => if decide (coord a = coord b) then 1%Z else 0%Z
       | _ => 0%Z
       end |}.

(** The label [i] set to the coordinate [c]. *)
Definition set_coord (i : string) (c : nat) (coord : string → nat) : string → nat :=
  λ l, if decide (l = i) then c else coord l.

(** The sum of the values of an expression over the three coordinates that
    the label [i] can stand for. *)
Definition trace_over (i : string) (coord : string → nat) (X : nat → Z) (r : Z)
    (e : Symbolica.Expression) : Z :=
  Semantics.sumZ ((λ c, Semantics.eval (euclid (set_coord i c coord) X r) e) <$> seq 0 3).

(** * Properties *)

Import Symbolica Pairings PairingSum Occurrence Semantics.

(** ** The generator: ranges and remaining positions *)

Section generator.

Lemma range_0 n : range 0 n = seq 0 n.
Proof. unfold range. by rewrite Nat.sub_0_r. Qed.

Lemma filter_all {A} (P : A → Prop) `{∀ x, Decision (P x)} (l : list A) :
  Forall P l → filter P l = l.
Proof.
  induction 1 as [|x l Hx Hl IH]; [done|].
  by rewrite filter_cons_True, IH.
Qed.

Lemma remaining_of_split n i j :
  i < j < n →
  remaining_of n (i, j) = seq 0 i ++ seq (S i) (j - i - 1) ++ seq (S j) (n - j - 1).
Proof.
  intros Hij. unfold remaining_of. rewrite range_0. simpl.
  replace n with (i + (1 + ((j - i - 1) + (1 + (n - j - 1))))) at 1 by lia.
  rewrite !seq_app, !filter_app. simpl.
  replace (i + 1) with (S i) by lia.
  replace (S i + (j - i - 1)) with j by lia.
  replace (j + 1) with (S j) by lia.
  rewrite (filter_cons_False _ i), (filter_cons_False _ j) by lia.
  rewrite !filter_nil. simpl.
  rewrite !filter_all; [done|..]; apply Forall_forall; intros x Hx;
    apply elem_of_seq in Hx; lia.
Qed.

Lemma remaining_of_length n i j : i < j < n → length (remaining_of n (i, j)) = n - 2.
Proof.
  intros Hij. rewrite remaining_of_split by done.
  rewrite !length_app, !length_seq. lia.
Qed.

Lemma remaining_of_lookup n i j y :
  i < j < n → y < n - 2 → remaining_of n (i, j) !! y = Some (skip2 i j y).
Proof.
  intros Hij Hy. rewrite remaining_of_split by done. unfold skip2.
  destruct (decide (y < i)).
  { rewrite lookup_app_l by (rewrite length_seq; lia).
    rewrite lookup_seq_lt by lia. done. }
  rewrite lookup_app_r by (rewrite length_seq; lia). rewrite length_seq.
  destruct (decide (y + 1 < j)).
  { rewrite lookup_app_l by (rewrite length_seq; lia).
    rewrite lookup_seq_lt by lia. f_equal. lia. }
  rewrite lookup_app_r by (rewrite length_seq; lia). rewrite length_seq.
  rewrite lookup_seq_lt by lia. f_equal. lia.
Qed.

Lemma remaining_of_lookup_total n i j y :
  i < j < n → y < n - 2 → remaining_of n (i, j) !!! y = skip2 i j y.
Proof.
  intros. apply list_lookup_total_correct. by apply remaining_of_lookup.
Qed.

Lemma elem_of_all_pairs n i j : (i, j) ∈ all_pairs n ↔ i < j < n.
Proof.
  unfold all_pairs. rewrite list_elem_of_bind. split.
  - intros (a & Hj & Ha). apply list_elem_of_bind in Hj as (b & Hij & Hb).
    apply list_elem_of_singleton in Hij. simplify_eq.
    unfold range in *. apply elem_of_seq in Ha, Hb. lia.
  - intros Hij. exists i. split.
    + apply list_elem_of_bind. exists j. split; [by apply list_elem_of_singleton|].
      unfold range. apply elem_of_seq. lia.
    + unfold range. apply elem_of_seq. lia.
Qed.

End generator.

(** ** The generator never raises *)

Ltac skip2_lia := unfold skip2, unskip2 in *; repeat case_decide; lia.

Lemma skip2_lt i j y y' : y < y' → skip2 i j y < skip2 i j y'.
Proof. skip2_lia. Qed.

Lemma skip2_inj i j : Inj (=) (=) (skip2 i j).
Proof. intros y y' H. skip2_lia. Qed.

Lemma skip2_bound n i j y : i < j < n → y < n - 2 → skip2 i j y < n.
Proof. skip2_lia. Qed.

Lemma skip2_avoids i j y : i < j → skip2 i j y ≠ i ∧ skip2 i j y ≠ j.
Proof. skip2_lia. Qed.

Lemma unskip2_skip2 i j y : i < j → unskip2 i j (skip2 i j y) = y.
Proof. skip2_lia. Qed.

Lemma skip2_unskip2 i j x : i < j → x ≠ i → x ≠ j → skip2 i j (unskip2 i j x) = x.
Proof. skip2_lia. Qed.

Lemma unskip2_lt i j x x' :
  i < j → x ≠ i → x ≠ j → x' ≠ i → x' ≠ j → x < x' → unskip2 i j x < unskip2 i j x'.
Proof. skip2_lia. Qed.

Lemma unskip2_bound n i j x :
  i < j < n → x ≠ i → x ≠ j → x < n → unskip2 i j x < n - 2.
Proof. skip2_lia. Qed.

Lemma remove_duplicates_first_occurrences l seen acc :
  remove_duplicates l seen acc = acc ++ first_occurrences seen l.
Proof.
  revert seen acc. induction l as [|p l IH]; intros seen acc; simpl.
  - by rewrite app_nil_r.
  - case_decide; [apply IH|]. rewrite IH, <-app_assoc. done.
Qed.

Lemma first_occurrences_elem_of seen l p :
  p ∈ first_occurrences seen l → p ∈ l ∧ normalized p ∉ seen.
Proof.
  revert seen. induction l as [|q l IH]; intros seen; simpl.
  - by intros ?%elem_of_nil.
  - case_decide as Hq.
    + intros [??]%IH. split; [by right|done].
    + intros [->|Hp]%elem_of_cons; [split; [by left|done]|].
      apply IH in Hp as [? Hn]. split; [by right|]. set_solver.
Qed.

Lemma first_occurrences_complete seen l p :
  p ∈ l → normalized p ∉ seen →
  ∃ q, q ∈ first_occurrences seen l ∧ normalized q = normalized p.
Proof.
  revert seen. induction l as [|a l IH]; intros seen Hp Hn; simpl.
  - by apply elem_of_nil in Hp.
  - apply elem_of_cons in Hp as [->|Hp].
    + rewrite decide_False by done. exists a. split; [by left|done].
    + case_decide as Ha; [by apply IH|].
      destruct (decide (normalized p = normalized a)) as [Heq|Hne].
      * exists a. split; [by left|done].
      * destruct (IH ({[normalized a]} ∪ seen) Hp) as (q & Hq & Hqp); [set_solver|].
        exists q. split; [by right|done].
Qed.

Lemma first_occurrences_NoDup seen l : NoDup (normalized <$> first_occurrences seen l).
Proof.
  revert seen. induction l as [|a l IH]; intros seen; simpl.
  - constructor.
  - case_decide; [apply IH|]. rewrite fmap_cons. constructor; [|apply IH].
    intros (q & Hq & Hin)%list_elem_of_fmap.
    apply first_occurrences_elem_of in Hin as [_ Hn]. set_solver.
Qed.

Lemma concat_fmap_bind {A B} (f : A → list B) (l : list A) :
  concat (f <$> l) = l ≫= f.
Proof. induction l as [|x l IH]; [done|]. simpl. f_equal. exact IH. Qed.

Lemma mapM_total {A B} (f : A → option B) (g : A → B) (l : list A) :
  (∀ x, x ∈ l → f x = Some (g x)) → mapM f l = Some (g <$> l).
Proof.
  intros Hf. apply mapM_Some. apply Forall2_fmap_r, Forall_Forall2_diag.
  apply Forall_forall. intros x Hx. by apply Hf.
Qed.

Lemma map_back_total_correct remaining sub :
  Forall (λ pair, pair.1 < length remaining ∧ pair.2 < length remaining) sub →
  map_back remaining sub = Some (map_back_total remaining sub).
Proof.
  intros Hsub. unfold map_back, map_back_total. apply mapM_total.
  intros [a b] Hab. rewrite Forall_forall in Hsub. destruct (Hsub _ Hab) as [Ha Hb].
  simpl in *.
  destruct (lookup_lt_is_Some_2 remaining a Ha) as [x Hx].
  destruct (lookup_lt_is_Some_2 remaining b Hb) as [y Hy].
  rewrite Hx, Hy. simpl.
  do 2 f_equal; symmetry; by apply list_lookup_total_correct.
Qed.

Lemma map_back_total_skip2 n i j sub :
  i < j < n → Forall (λ pair, pair.1 < pair.2 < n - 2) sub →
  map_back_total (remaining_of n (i, j)) sub
  = (λ pair, (skip2 i j pair.1, skip2 i j pair.2)) <$> sub.
Proof.
  intros Hij Hsub. unfold map_back_total. apply Forall_fmap_ext_1.
  eapply Forall_impl; [exact Hsub|]. intros [a b] [??]. simpl in *.
  by rewrite !(remaining_of_lookup_total n) by lia.
Qed.

Lemma positions_cons a b p : positions ((a, b) :: p) = a :: b :: positions p.
Proof. done. Qed.

Lemma positions_fmap (f : nat → nat) p :
  positions ((λ pair, (f pair.1, f pair.2)) <$> p) = f <$> positions p.
Proof.
  induction p as [|[a b] p IH]; [done|].
  rewrite fmap_cons, !positions_cons, !fmap_cons. simpl. by rewrite IH.
Qed.

Lemma is_pairing_cons n k i j sub :
  i < j < n → is_pairing (n - 2) k sub →
  is_pairing n (S k) ((i, j) :: ((λ pair, (skip2 i j pair.1, skip2 i j pair.2)) <$> sub)).
Proof.
  intros Hij (Hlen & Hrange & Hnd). split_and!.
  - simpl. by rewrite length_fmap, Hlen.
  - constructor; [done|]. apply Forall_fmap. eapply Forall_impl; [exact Hrange|].
    intros [a b] [??]. simpl in *. split; [by apply skip2_lt|].
    apply skip2_bound; lia.
  - rewrite positions_cons, positions_fmap.
    assert (∀ x, x ∈ skip2 i j <$> positions sub → x ≠ i ∧ x ≠ j) as Hav.
    { intros x (y & -> & _)%list_elem_of_fmap. apply skip2_avoids. lia. }
    constructor; [|constructor].
    + intros [->|Hin]%elem_of_cons; [lia|]. apply Hav in Hin. lia.
    + intros Hin. apply Hav in Hin. lia.
    + apply NoDup_fmap; [apply skip2_inj|done].
Qed.

Lemma generate_unfold n k :
  _generate_k_pairings n (S (S k)) =
    blocks ← mapM (λ first_pair,
        let remaining := remaining_of n first_pair in
        if decide (2 * S k ≤ length remaining) then
          sub_pairings ← _generate_k_pairings (length remaining) (S k);
          mapM (λ sub_pairing,
                  mapped_pairing ← map_back remaining sub_pairing;
                  Some (first_pair :: mapped_pairing)) sub_pairings
        else Some []) (all_pairs n);
    Some (remove_duplicates (concat blocks) ∅ []).
Proof. reflexivity. Qed.

Lemma pairings_unfold n k :
  pairings n (S (S k)) = first_occurrences ∅ (candidates n (S k)).
Proof.
  change (pairings n (S (S k))) with (remove_duplicates (candidates n (S k)) ∅ []).
  by rewrite remove_duplicates_first_occurrences.
Qed.

(** The generator never raises, returns the enumeration [pairings], and every
    pairing it returns is well formed. *)
Lemma generate_total k :
  ∀ n, _generate_k_pairings n k = Some (pairings n k)
       ∧ ∀ p, p ∈ pairings n k → is_pairing n k p.
Proof.
  induction k as [|k IH]; intros n.
  { split; [done|]. intros p ->%list_elem_of_singleton.
    split_and!; [done|constructor|constructor]. }
  destruct k as [|k'].
  { split; [done|]. simpl. intros p ([i j] & -> & Hij)%list_elem_of_fmap.
    apply elem_of_all_pairs in Hij.
    split_and!; [done|apply Forall_singleton; simpl; lia|].
    rewrite positions_cons. apply NoDup_cons. split; [|apply NoDup_singleton].
    intros ->%list_elem_of_singleton. lia. }
  rewrite generate_unfold, pairings_unfold. unfold candidates.
  remember (S k') as k eqn:Hk'. clear Hk' k'.
  assert (∀ ij, ij ∈ all_pairs n → 2 * k ≤ length (remaining_of n ij) →
     ∀ sub, sub ∈ pairings (length (remaining_of n ij)) k →
       map_back (remaining_of n ij) sub = Some (map_back_total (remaining_of n ij) sub)
       ∧ is_pairing n (S k) (ij :: map_back_total (remaining_of n ij) sub)) as Hblock.
  { intros [i j] Hij%elem_of_all_pairs Hk sub Hsub.
    destruct (IH (length (remaining_of n (i, j)))) as [_ Hwf].
    specialize (Hwf _ Hsub). rewrite remaining_of_length in Hwf by done.
    split.
    - apply map_back_total_correct. destruct Hwf as (_ & Hrange & _).
      eapply Forall_impl; [exact Hrange|]. intros [a b] [??]. simpl in *.
      rewrite remaining_of_length by done. lia.
    - rewrite (map_back_total_skip2 n) by (done || apply Hwf).
      by apply is_pairing_cons. }
  split.
  - rewrite (mapM_total _ (λ first_pair,
      if decide (2 * k ≤ length (remaining_of n first_pair)) then
        (λ sub_pairing, first_pair :: map_back_total (remaining_of n first_pair) sub_pairing)
          <$> pairings (length (remaining_of n first_pair)) k
      else [])).
    { cbn [mbind option_bind].
      rewrite concat_fmap_bind, remove_duplicates_first_occurrences. done. }
    intros ij Hij. cbv zeta beta. case_decide as Hk; [|done].
    destruct (IH (length (remaining_of n ij))) as [-> _]. cbn [mbind option_bind].
    apply mapM_total. intros sub Hsub.
    destruct (Hblock ij Hij Hk sub Hsub) as [-> _]. done.
  - intros p Hp.
    apply first_occurrences_elem_of in Hp as [Hp _].
    apply list_elem_of_bind in Hp as (ij & Hp & Hij).
    case_decide as Hk; [|by apply elem_of_nil in Hp].
    apply list_elem_of_fmap in Hp as (sub & -> & Hsub).
    by apply Hblock.
Qed.

(** ** The generator is complete and free of duplicates *)

Global Instance tuple_le_total : Total tuple_le.
Proof. intros [a b] [c d]. unfold tuple_le. simpl. lia. Qed.

Global Instance tuple_le_trans : Transitive tuple_le.
Proof. intros [a b] [c d] [e f]. unfold tuple_le. simpl. lia. Qed.

Global Instance tuple_le_antisymm : AntiSymm (=) tuple_le.
Proof.
  intros [a b] [c d]. unfold tuple_le. simpl. intros ??.
  f_equal; lia.
Qed.

Lemma sorted_eq_iff l1 l2 : sorted l1 = sorted l2 ↔ l1 ≡ₚ l2.
Proof.
  unfold sorted. split.
  - intros Heq. rewrite <-(merge_sort_Permutation tuple_le l1), Heq.
    apply merge_sort_Permutation.
  - intros Hperm. apply (Sorted_unique tuple_le).
    + apply Sorted_merge_sort, _.
    + apply Sorted_merge_sort, _.
    + by rewrite !merge_sort_Permutation.
Qed.

Lemma tuple_sorted_ascending p : ascending p → tuple_sorted <$> p = p.
Proof.
  intros Hp. rewrite <-(list_fmap_id p) at 2. apply Forall_fmap_ext_1.
  eapply Forall_impl; [exact Hp|]. intros [a b] ?. unfold tuple_sorted. simpl in *.
  rewrite decide_True by lia. done.
Qed.

Lemma normalized_eq_iff p q :
  ascending p → ascending q → normalized p = normalized q ↔ p ≡ₚ q.
Proof.
  intros Hp Hq. unfold normalized.
  rewrite !tuple_sorted_ascending by done. apply sorted_eq_iff.
Qed.

Lemma is_pairing_ascending n k p : is_pairing n k p → ascending p.
Proof.
  intros (_ & Hr & _). eapply Forall_impl; [exact Hr|]. intros [??] ?. simpl in *. lia.
Qed.

Lemma positions_Permutation p q : p ≡ₚ q → positions p ≡ₚ positions q.
Proof. intros Hpq. unfold positions. by rewrite Hpq. Qed.

Lemma is_pairing_Permutation n k p q : p ≡ₚ q → is_pairing n k p → is_pairing n k q.
Proof.
  intros Hpq (Hl & Hr & Hnd). split_and!.
  - by rewrite <-Hpq.
  - by rewrite <-Hpq.
  - by rewrite <-(positions_Permutation _ _ Hpq).
Qed.

Lemma elem_of_positions p x : x ∈ positions p ↔ ∃ pair, pair ∈ p ∧ (x = pair.1 ∨ x = pair.2).
Proof.
  unfold positions. rewrite list_elem_of_bind. split.
  - intros (pr & Hx & Hpr). exists pr. split; [done|]. set_solver.
  - intros (pr & Hpr & Hx). exists pr. split; [|done]. set_solver.
Qed.

(** A pairing of [n] positions has at most [n / 2] pairs. *)
Lemma is_pairing_bound n k p : is_pairing n k p → 2 * k ≤ n.
Proof.
  intros (Hl & Hr & Hnd).
  assert (length (positions p) = 2 * k) as <-.
  { rewrite <-Hl. clear. induction p as [|[a b] p IH]; [done|].
    rewrite positions_cons. simpl. lia. }
  rewrite <-(length_seq n 0). apply submseteq_length, NoDup_submseteq; [done|].
  intros x (pr & Hpr & Hx)%elem_of_positions. apply elem_of_seq.
  rewrite Forall_forall in Hr. specialize (Hr _ Hpr). lia.
Qed.

(** Removing the first pair [(i, j)] of a pairing and renumbering the other
    positions gives a pairing of [n - 2] positions. *)
Lemma is_pairing_uncons n k i j p :
  is_pairing n (S k) ((i, j) :: p) →
  i < j < n
  ∧ is_pairing (n - 2) k ((λ pair, (unskip2 i j pair.1, unskip2 i j pair.2)) <$> p)
  ∧ (λ pair, (skip2 i j pair.1, skip2 i j pair.2)) <$>
      ((λ pair, (unskip2 i j pair.1, unskip2 i j pair.2)) <$> p) = p.
Proof.
  intros (Hl & Hr & Hnd). apply Forall_cons in Hr as [Hij Hr]. simpl in Hij.
  rewrite positions_cons in Hnd.
  apply NoDup_cons in Hnd as [Hi Hnd]. apply NoDup_cons in Hnd as [Hj Hnd].
  assert (∀ x, x ∈ positions p → x ≠ i ∧ x ≠ j) as Hav.
  { intros x Hx. split; intros ->; [|done]. apply Hi. by right. }
  assert (∀ pair, pair ∈ p →
    pair.1 ≠ i ∧ pair.1 ≠ j ∧ pair.2 ≠ i ∧ pair.2 ≠ j ∧ pair.1 < pair.2 < n) as Hp.
  { intros pr Hpr. rewrite Forall_forall in Hr. specialize (Hr _ Hpr).
    destruct (Hav pr.1) as [??]; [apply elem_of_positions; eauto|].
    destruct (Hav pr.2) as [??]; [apply elem_of_positions; eauto|]. done. }
  split; [done|]. split; [split_and!|].
  - rewrite length_fmap. simpl in Hl. lia.
  - apply Forall_fmap, Forall_forall. intros [a b] Hab.
    destruct (Hp _ Hab) as (? & ? & ? & ? & ? & ?). simpl in *. split.
    + apply unskip2_lt; lia.
    + apply unskip2_bound; lia.
  - rewrite positions_fmap. apply NoDup_fmap_2_strong; [|done].
    intros x y Hx Hy Hxy. destruct (Hav _ Hx), (Hav _ Hy).
    rewrite <-(skip2_unskip2 i j x), <-(skip2_unskip2 i j y) by lia. by rewrite Hxy.
  - rewrite <-list_fmap_compose. rewrite <-(list_fmap_id p) at 2.
    apply Forall_fmap_ext_1, Forall_forall. intros [a b] Hab.
    destruct (Hp _ Hab) as (? & ? & ? & ? & ? & ?). simpl in *.
    by rewrite !skip2_unskip2 by lia.
Qed.

Lemma candidates_is_pairing n k p :
  p ∈ candidates n k → is_pairing n (S k) p.
Proof.
  intros (ij & Hp & Hij)%list_elem_of_bind.
  case_decide as Hk; [|by apply elem_of_nil in Hp].
  apply list_elem_of_fmap in Hp as (sub & -> & Hsub).
  destruct ij as [i j]. apply elem_of_all_pairs in Hij.
  destruct (generate_total k (length (remaining_of n (i, j)))) as [_ Hwf].
  specialize (Hwf _ Hsub). rewrite remaining_of_length in Hwf by done.
  rewrite (map_back_total_skip2 n) by (done || apply Hwf).
  by apply is_pairing_cons.
Qed.

Lemma pairings_is_pairing n k p : p ∈ pairings n k → is_pairing n k p.
Proof. apply generate_total. Qed.

Lemma elem_of_candidates n k i j sub :
  i < j < n → 2 * k ≤ n - 2 → sub ∈ pairings (n - 2) k →
  (i, j) :: ((λ pair, (skip2 i j pair.1, skip2 i j pair.2)) <$> sub) ∈ candidates n k.
Proof.
  intros Hij Hk Hsub. apply list_elem_of_bind. exists (i, j).
  split; [|by apply elem_of_all_pairs].
  rewrite remaining_of_length by done. rewrite decide_True by done.
  apply list_elem_of_fmap. exists sub. split; [|done].
  rewrite (map_back_total_skip2 n); [done..|].
  apply pairings_is_pairing in Hsub. apply Hsub.
Qed.

(** Every pairing is enumerated, up to the order of its pairs. *)
Lemma pairings_complete k : ∀ n p, is_pairing n k p → ∃ q, q ∈ pairings n k ∧ q ≡ₚ p.
Proof.
  induction k as [|k IH]; intros n p Hp.
  { destruct Hp as (Hl & _). apply nil_length_inv in Hl as ->.
    exists []. split; [by apply list_elem_of_singleton|done]. }
  destruct p as [|[i j] p]; [by destruct Hp|].
  destruct k as [|k'].
  { destruct Hp as (Hl & Hr & _). destruct p; [|simpl in Hl; lia].
    rewrite Forall_singleton in Hr. exists [(i, j)]. split; [|done].
    apply list_elem_of_fmap. exists (i, j). split; [done|].
    apply elem_of_all_pairs. exact Hr. }
  destruct (is_pairing_uncons _ _ _ _ _ Hp) as (Hij & Hsub & Hback).
  destruct (IH _ _ Hsub) as (sub & Hin & Hperm).
  pose proof (is_pairing_bound _ _ _ Hsub) as Hk.
  pose proof (elem_of_candidates n (S k') i j sub Hij Hk Hin) as Hcand.
  rewrite pairings_unfold.
  destruct (first_occurrences_complete ∅ _ _ Hcand) as (q & Hq & Hnorm); [set_solver|].
  exists q. split; [done|].
  apply first_occurrences_elem_of in Hq as [Hq _].
  apply normalized_eq_iff in Hnorm;
    [|eapply is_pairing_ascending, candidates_is_pairing; done..].
  rewrite Hnorm, Hperm, Hback. done.
Qed.

(** No two enumerated pairings have the same normal form. *)
Lemma pairings_NoDup n k : NoDup (normalized <$> pairings n k).
Proof.
  destruct k as [|[|k]].
  - simpl. apply NoDup_singleton.
  - simpl. rewrite <-list_fmap_compose.
    apply NoDup_fmap_2_strong.
    + intros [a b] [c d] Hab%elem_of_all_pairs Hcd%elem_of_all_pairs Heq.
      simpl in Heq. apply normalized_eq_iff in Heq.
      * by apply Permutation_singleton_inj in Heq.
      * apply Forall_singleton. simpl. lia.
      * apply Forall_singleton. simpl. lia.
    + unfold all_pairs. apply NoDup_bind.
      * intros i1 i2 [a b] _ _ (y1 & Hy1 & _)%list_elem_of_bind (y2 & Hy2 & _)%list_elem_of_bind.
        apply list_elem_of_singleton in Hy1, Hy2. congruence.
      * intros i _. apply NoDup_bind.
        -- intros j1 j2 y _ _ Hy1%list_elem_of_singleton Hy2%list_elem_of_singleton.
           congruence.
        -- intros. apply NoDup_singleton.
        -- apply NoDup_seq.
      * apply NoDup_seq.
  - rewrite pairings_unfold. apply first_occurrences_NoDup.
Qed.

(** ** The number of pairings *)

Lemma filter_ext_elem {A} (P Q : A → Prop) `{∀ x, Decision (P x)} `{∀ x, Decision (Q x)}
    (l : list A) :
  (∀ x, x ∈ l → P x ↔ Q x) → filter P l = filter Q l.
Proof.
  induction l as [|x l IH]; intros HPQ; [done|].
  rewrite !filter_cons.
  rewrite IH by (intros; apply HPQ; by right).
  destruct (decide (P x)) as [HP|HP], (decide (Q x)) as [HQ|HQ]; try done;
    exfalso; apply (HPQ x) in HP || apply (HPQ x) in HQ; try done; by left.
Qed.

Lemma filter_none {A} (P : A → Prop) `{∀ x, Decision (P x)} (l : list A) :
  (∀ x, x ∈ l → ¬ P x) → filter P l = [].
Proof.
  induction l as [|x l IH]; intros HP; [done|].
  rewrite filter_cons_False by (apply HP; by left). apply IH. intros; apply HP; by right.
Qed.

Lemma filter_bind {A B} (P : B → Prop) `{∀ x, Decision (P x)} (f : A → list B) (l : list A) :
  filter P (l ≫= f) = l ≫= (λ a, filter P (f a)).
Proof.
  induction l as [|x l IH]; [done|]. csimpl. by rewrite filter_app, IH.
Qed.

Lemma filter_fmap_length {A B} (P : B → Prop) `{∀ x, Decision (P x)} (f : A → B) (l : list A) :
  length (filter P (f <$> l)) = length (filter (λ a, P (f a)) l).
Proof.
  induction l as [|x l IH]; [done|]. csimpl. rewrite !filter_cons.
  destruct (decide (P (f x))); simpl; by rewrite IH.
Qed.

Lemma length_bind_indicator {A B} (Q : A → Prop) `{∀ x, Decision (Q x)}
    (g : A → list B) (l : list A) :
  (∀ a, a ∈ l → length (g a) = if decide (Q a) then 1 else 0) →
  length (l ≫= g) = length (filter Q l).
Proof.
  induction l as [|x l IH]; intros Hg; [done|]. csimpl.
  rewrite length_app, IH by (intros; apply Hg; by right).
  rewrite Hg by (by left). rewrite filter_cons. by destruct (decide (Q x)).
Qed.

Lemma length_bind_const {A B} (g : A → list B) (l : list A) c :
  (∀ a, a ∈ l → length (g a) = c) → length (l ≫= g) = length l * c.
Proof.
  induction l as [|x l IH]; intros Hg; [done|]. csimpl.
  rewrite length_app, IH by (intros; apply Hg; by right).
  rewrite Hg by (by left). done.
Qed.

(** In a list whose keys are pairwise distinct, exactly one element has the
    key of a given member. *)
Lemma filter_unique_key {A K} `{EqDecision K} (key : A → K) (l : list A) x :
  NoDup (key <$> l) → x ∈ l → length (filter (λ y, key y = key x) l) = 1.
Proof.
  induction l as [|a l IH]; intros Hnd Hx; [by apply elem_of_nil in Hx|].
  rewrite fmap_cons in Hnd. apply NoDup_cons in Hnd as [Ha Hnd].
  rewrite filter_cons. apply elem_of_cons in Hx as [->|Hx].
  - rewrite decide_True by done. simpl. rewrite filter_none; [done|].
    intros y Hy Heq. apply Ha. rewrite <-Heq. apply list_elem_of_fmap. eauto.
  - rewrite decide_False; [by apply IH|].
    intros Heq. apply Ha. rewrite Heq. apply list_elem_of_fmap. eauto.
Qed.

Section dedup_count.
Context (m : nat).

Lemma filter_seen_split (a : list (nat * nat)) (seen : gset (list (nat * nat))) l :
    a ∉ seen →
    length (filter (λ y, normalized y ∉ seen) l)
    = length (filter (λ y, normalized y = a) l)
      + length (filter (λ y, normalized y ∉ {[a]} ∪ seen) l).
  Proof.
    intros Ha. induction l as [|y l IH]; [done|].
    rewrite !filter_cons.
    destruct (decide (normalized y = a)) as [Heq|Hne].
    - rewrite decide_True by (by rewrite Heq).
      rewrite decide_False by set_solver. simpl. by rewrite IH.
    - destruct (decide (normalized y ∉ seen)) as [Hy|Hy].
      + rewrite decide_True by set_solver. simpl. rewrite IH. lia.
      + rewrite decide_False by set_solver. done.
  Qed.

  (** If every normal form occurs [m] times, the loop keeps one pairing out
      of every [m]. *)
Lemma first_occurrences_count seen l :
    (∀ x, x ∈ l → normalized x ∉ seen →
       length (filter (λ y, normalized y = normalized x) l) = m) →
    length (filter (λ y, normalized y ∉ seen) l) = m * length (first_occurrences seen l).
  Proof.
    revert seen. induction l as [|a l IH]; intros seen Hm; [simpl; lia|].
    simpl first_occurrences. rewrite filter_cons.
    destruct (decide (normalized a ∈ seen)) as [Ha|Ha].
    - rewrite decide_False by (intros Hn; by apply Hn).
      apply IH. intros x Hx Hn.
      rewrite <-(Hm x) by (done || by right).
      rewrite filter_cons, decide_False; [done|]. intros Heq. apply Hn. by rewrite <-Heq.
    - rewrite decide_True by done. simpl.
      rewrite (filter_seen_split (normalized a)) by done.
      rewrite (IH ({[normalized a]} ∪ seen)).
      + specialize (Hm a (list_elem_of_here _ _) Ha).
        rewrite filter_cons, decide_True in Hm by done. simpl in Hm. lia.
      + intros x Hx Hn.
        rewrite <-(Hm x) by (by right || set_solver).
        rewrite filter_cons, decide_False; [done|]. set_solver.
  Qed.
End dedup_count.

Lemma NoDup_all_pairs n : NoDup (all_pairs n).
Proof.
  unfold all_pairs. apply NoDup_bind.
  - intros i1 i2 [a b] _ _ (y1 & Hy1 & _)%list_elem_of_bind (y2 & Hy2 & _)%list_elem_of_bind.
    apply list_elem_of_singleton in Hy1, Hy2. congruence.
  - intros i _. apply NoDup_bind.
    + intros j1 j2 y _ _ Hy1%list_elem_of_singleton Hy2%list_elem_of_singleton.
      congruence.
    + intros. apply NoDup_singleton.
    + apply NoDup_seq.
  - apply NoDup_seq.
Qed.

Lemma NoDup_positions p : NoDup (positions p) → NoDup p.
Proof.
  induction p as [|[a b] p IH]; [constructor|].
  rewrite positions_cons. intros [Ha [Hb Hnd]%NoDup_cons]%NoDup_cons.
  apply NoDup_cons. split; [|by apply IH].
  intros Hin. apply Hb. apply elem_of_positions. exists (a, b). split; [done|]. by right.
Qed.

Lemma length_all_pairs n : 2 * length (all_pairs n) = n * (n - 1).
Proof.
  unfold all_pairs. rewrite range_0.
  assert (∀ m a, a + m = n →
    2 * length (seq a m ≫= λ i, range (i + 1) n ≫= λ j, [(i, j)]) = m * (m - 1)) as H.
  { induction m as [|m IH]; intros a Ha; [done|].
    specialize (IH (S a) ltac:(lia)).
    change (seq a (S m)) with (a :: seq (S a) m). rewrite bind_cons, length_app.
    set (L := length (seq (S a) m ≫= _)) in *. clearbody L.
    rewrite (length_bind_const _ _ 1) by done.
    unfold range. rewrite length_seq.
    replace (n - (a + 1)) with m by lia.
    destruct m as [|m']; [lia|].
    replace (S m' - 1) with m' in IH by lia.
    replace (S (S m') - 1) with (S m') by lia. nia. }
  apply H. lia.
Qed.

Lemma length_candidates n k :
  2 * S k ≤ n → 2 * length (candidates n k) = n * (n - 1) * length (pairings (n - 2) k).
Proof.
  intros Hk. unfold candidates.
  rewrite (length_bind_const _ _ (length (pairings (n - 2) k))).
  - pose proof (length_all_pairs n). nia.
  - intros [i j] Hij%elem_of_all_pairs.
    rewrite remaining_of_length by done.
    rewrite decide_True by lia. by rewrite length_fmap.
Qed.

(** Every normal form among the candidates occurs once for each of its
    pairs, the pair chosen first. *)
Lemma candidates_multiplicity n k x :
  x ∈ candidates n k →
  length (filter (λ y, normalized y = normalized x) (candidates n k)) = S k.
Proof.
  intros Hx. pose proof (candidates_is_pairing _ _ _ Hx) as Hwf.
  assert (length (filter (λ ij, ij ∈ x) (all_pairs n)) = S k) as <-.
  { destruct Hwf as (Hl & Hr & Hnd). rewrite <-Hl.
    apply Permutation_length, NoDup_Permutation.
    - apply NoDup_filter, NoDup_all_pairs.
    - by apply NoDup_positions.
    - intros [i j]. rewrite list_elem_of_filter, elem_of_all_pairs.
      split; [by intros [??]|]. intros Hin. split; [done|].
      rewrite Forall_forall in Hr. apply (Hr _ Hin). }
  unfold candidates at 1. rewrite filter_bind.
  apply length_bind_indicator. intros [i j] Hij.
  pose proof Hij as Hijn%elem_of_all_pairs.
  rewrite remaining_of_length by done.
  destruct (decide ((i, j) ∈ x)) as [Hin|Hnin].
  - apply elem_of_Permutation in Hin as [x' Hx'].
    pose proof (is_pairing_Permutation _ _ _ _ Hx' Hwf) as Hwf'.
    destruct (is_pairing_uncons _ _ _ _ _ Hwf') as (_ & Hsub & Hback).
    pose proof (is_pairing_bound _ _ _ Hsub) as Hk.
    rewrite decide_True by done.
    destruct (pairings_complete _ _ _ Hsub) as (sub0 & Hsub0 & Hperm0).
    rewrite filter_fmap_length.
    etrans; [|apply (filter_unique_key normalized (pairings (n - 2) k) sub0);
                [apply pairings_NoDup|done]].
    f_equal. apply filter_ext_elem. intros sub Hs.
    pose proof (pairings_is_pairing _ _ _ Hs) as Hswf.
    rewrite (map_back_total_skip2 n) by (done || apply Hswf).
    assert (ascending ((i, j) :: ((λ pair, (skip2 i j pair.1, skip2 i j pair.2)) <$> sub)))
      by (eapply is_pairing_ascending, is_pairing_cons; done).
    assert (ascending x) by (eapply is_pairing_ascending; done).
    assert (ascending sub) by (eapply is_pairing_ascending; done).
    assert (ascending sub0)
      by (eapply is_pairing_ascending, pairings_is_pairing; done).
    rewrite (normalized_eq_iff _ x), (normalized_eq_iff sub sub0) by done.
    rewrite Hx', Hperm0. split.
    + intros Hp%Permutation_cons_inv.
      apply (fmap_Permutation (λ pair, (unskip2 i j pair.1, unskip2 i j pair.2))) in Hp.
      rewrite <-Hp, <-list_fmap_compose.
      assert ((λ pair, (unskip2 i j pair.1, unskip2 i j pair.2))
                ∘ (λ pair, (skip2 i j pair.1, skip2 i j pair.2)) <$> sub = sub) as ->;
        [|done].
      rewrite <-(list_fmap_id sub) at 2. apply list_fmap_ext.
      intros ? [a b] _. simpl. by rewrite !unskip2_skip2 by lia.
    + intros Hp. apply Permutation_cons; [done|]. by rewrite Hp, Hback.
  - assert (∀ y, y ∈ (if decide (2 * k ≤ n - 2)
                      then (λ sub, (i, j) :: map_back_total (remaining_of n (i, j)) sub)
                             <$> pairings (n - 2) k
                      else []) → ¬ normalized y = normalized x) as Hnone.
    { intros y Hy Heq. apply Hnin.
      assert (y ∈ candidates n k) as Hyc.
      { apply list_elem_of_bind. exists (i, j). split; [|done].
        by rewrite remaining_of_length. }
      apply normalized_eq_iff in Heq;
        [|eapply is_pairing_ascending, candidates_is_pairing; done..].
      rewrite <-Heq. case_decide; [|by apply elem_of_nil in Hy].
      apply list_elem_of_fmap in Hy as (sub & -> & _). by left. }
    by rewrite filter_none.
Qed.

Lemma pairings_count_step n k :
  2 * S (S k) ≤ n →
  2 * S (S k) * length (pairings n (S (S k)))
  = n * (n - 1) * length (pairings (n - 2) (S k)).
Proof.
  intros Hk. rewrite <-length_candidates by done.
  rewrite pairings_unfold.
  pose proof (first_occurrences_count (S (S k)) ∅ (candidates n (S k))) as Hc.
  rewrite (filter_all _ (candidates n (S k))) in Hc
    by (apply Forall_forall; intros; set_solver).
  rewrite Hc; [lia|]. intros x Hx _. by apply candidates_multiplicity.
Qed.

(** The number of enumerated pairings: [n! / (2^k k! (n - 2k)!)], stated
    without division. *)
Lemma pairings_count k :
  ∀ n, 2 * k ≤ n →
    length (pairings n k) * (2 ^ k * fact k * fact (n - 2 * k)) = fact n.
Proof.
  induction k as [|k IH]; intros n Hk.
  { simpl. rewrite Nat.sub_0_r. lia. }
  destruct k as [|k'].
  { cbn [pairings]. rewrite length_fmap.
    pose proof (length_all_pairs n) as Hp.
    destruct n as [|[|n]]; [lia..|].
    replace (S (S n) - 2 * 1) with n by lia.
    change (fact (S (S n))) with (S (S n) * (S n * fact n)).
    replace (S (S n) - 1) with (S n) in Hp by lia.
    change (2 ^ 1) with 2. change (fact 1) with 1. nia. }
  pose proof (pairings_count_step n k' Hk) as Hstep.
  specialize (IH (n - 2) ltac:(lia)).
  destruct n as [|[|n]]; [lia..|].
  replace (S (S n) - 2) with n in * by lia.
  replace (S (S n) - 2 * S (S k')) with (n - 2 * S k') by lia.
  replace (S (S n) - 1) with (S n) in Hstep by lia.
  change (fact (S (S n))) with (S (S n) * (S n * fact n)).
  rewrite <-IH.
  change (fact (S (S k'))) with (S (S k') * fact (S k')).
  rewrite (Nat.pow_succ_r' 2 (S k')).
  set (G := length (pairings (S (S n)) (S (S k')))) in *.
  set (G' := length (pairings n (S k'))) in *.
  set (F := fact (S k')). set (R := fact (n - 2 * S k')). set (T := 2 ^ S k').
  replace (G * (2 * T * (S (S k') * F) * R)) with ((2 * S (S k') * G) * (T * F * R)) by lia.
  rewrite Hstep. lia.
Qed.

(** ** Unordered pairs, and too many pairs *)

Lemma unordered_pair_eq (a b c d : nat) :
  a < b → c < d → ({[a; b]} : gset nat) = {[c; d]} → (a, b) = (c, d).
Proof.
  intros Hab Hcd Heq.
  assert (a ∈ ({[c; d]} : gset nat)) as Ha by (rewrite <-Heq; set_solver).
  assert (b ∈ ({[c; d]} : gset nat)) as Hb by (rewrite <-Heq; set_solver).
  assert (c ∈ ({[a; b]} : gset nat)) as Hc by (rewrite Heq; set_solver).
  assert (d ∈ ({[a; b]} : gset nat)) as Hd by (rewrite Heq; set_solver).
  f_equal; set_solver by lia.
Qed.

Lemma unordered_pairs_subset n k p q x :
  is_pairing n k p → is_pairing n k q →
  unordered_pairs p = unordered_pairs q → x ∈ p → x ∈ q.
Proof.
  intros (_ & Hp & _) (_ & Hq & _) Heq Hx. destruct x as [a b].
  assert (({[a; b]} : gset nat) ∈ unordered_pairs q) as Hin.
  { rewrite <-Heq. unfold unordered_pairs. apply elem_of_list_to_set, list_elem_of_fmap.
    by exists (a, b). }
  unfold unordered_pairs in Hin.
  apply elem_of_list_to_set, list_elem_of_fmap in Hin as ([c d] & Hcd & Hinq).
  rewrite Forall_forall in Hp, Hq.
  specialize (Hp _ Hx). specialize (Hq _ Hinq). simpl in *.
  by rewrite (unordered_pair_eq a b c d) by (lia || done).
Qed.

Lemma unordered_pairs_Permutation n k p q :
  is_pairing n k p → is_pairing n k q →
  unordered_pairs p = unordered_pairs q → p ≡ₚ q.
Proof.
  intros Hp Hq Heq. apply NoDup_Permutation.
  - apply NoDup_positions, Hp.
  - apply NoDup_positions, Hq.
  - intros x. split; by eapply unordered_pairs_subset.
Qed.

Lemma bind_all_nil {A B} (f : A → list B) (l : list A) :
  (∀ x, x ∈ l → f x = []) → l ≫= f = [].
Proof.
  induction l as [|x l IH]; intros Hf; [done|].
  rewrite bind_cons, Hf by (by left). apply IH. intros; apply Hf; by right.
Qed.

Lemma pairings_empty n k : n < 2 * k → pairings n k = [].
Proof.
  intros Hk. destruct k as [|[|k]]; [lia| |].
  - cbn [pairings]. destruct n as [|[|n]]; [done..|lia].
  - rewrite pairings_unfold. unfold candidates. rewrite bind_all_nil; [done|].
    intros [i j] Hij%elem_of_all_pairs. rewrite remaining_of_length by done.
    rewrite decide_False by lia. done.
Qed.

(** ** The loops of the builders *)

Lemma for_each_total {A St} (xs : list A) (body : St → A → option St) (g : St → A → St) s :
  (∀ s x, x ∈ xs → body s x = Some (g s x)) →
  for_each xs body s = Some (foldl g s xs).
Proof.
  revert s. induction xs as [|x xs IH]; intros s Hb; [done|].
  simpl. rewrite Hb by (by left). simpl. apply IH. intros; apply Hb; by right.
Qed.

Lemma for_each_None {A St} (xs : list A) (body : St → A → option St) s x :
  x ∈ xs → (∀ s, body s x = None) → for_each xs body s = None.
Proof.
  revert s. induction xs as [|y xs IH]; intros s Hx Hb; [by apply elem_of_nil in Hx|].
  simpl. apply elem_of_cons in Hx as [<-|Hx]; [by rewrite Hb|].
  destruct (body s y); [|done]. simpl. by apply IH.
Qed.

(** When the loop runs through, every element was processed without an exception. *)
Lemma for_each_Some {A St} (xs : list A) (body : St → A → option St) s r x :
  for_each xs body s = Some r → x ∈ xs → ∃ s', is_Some (body s' x).
Proof.
  revert s. induction xs as [|y xs IH]; intros s Hr Hx; [by apply elem_of_nil in Hx|].
  simpl in Hr. destruct (body s y) as [s'|] eqn:Hy; [|done]. simpl in Hr.
  apply elem_of_cons in Hx as [->|Hx]; [exists s; by rewrite Hy|]. by eapply IH.
Qed.

Lemma elem_of_paired_positions (P : pairing) (s0 : gset nat) pos :
  pos ∈ foldl (λ s p, {[p.2]} ∪ ({[p.1]} ∪ s)) s0 P ↔ pos ∈ s0 ∨ pos ∈ positions P.
Proof.
  revert s0. induction P as [|[a b] P IH]; intros s0.
  - simpl. rewrite elem_of_nil. tauto.
  - simpl foldl. rewrite IH, positions_cons, !elem_of_cons. set_solver.
Qed.

Section pairing_sum.
Context (vec : string → Expression) (mag : Expression) (alternating : bool).

Lemma pairing_term_body_total n indices (P : pairing) :
    Forall (λ p, p.1 < p.2 < Z.to_nat n) P → Z.to_nat n ≤ length indices →
    pairing_term_body vec n indices P = Some (pairing_product vec n indices P).
  Proof.
    intros HP Hn. unfold pairing_term_body, pairing_product.
    rewrite (for_each_total _ _
      (λ term p, mul term (TensorContraction.delta (indices !!! p.1) (indices !!! p.2)))).
    2:{ intros s [a b] Hab. rewrite Forall_forall in HP. specialize (HP _ Hab). simpl in *.
        destruct (lookup_lt_is_Some_2 indices a ltac:(lia)) as [x Hx].
        destruct (lookup_lt_is_Some_2 indices b ltac:(lia)) as [y Hy].
        rewrite Hx, Hy. simpl.
        by rewrite (list_lookup_total_correct _ _ _ Hx), (list_lookup_total_correct _ _ _ Hy). }
    cbn [mbind option_bind]. apply for_each_total.
    intros s pos Hpos. unfold range in Hpos. apply elem_of_seq in Hpos.
    destruct (decide (pos ∈ positions P)) as [Hin|Hin].
    - rewrite decide_False; [done|]. intros Hn'. apply Hn', elem_of_paired_positions. by right.
    - rewrite decide_True.
      2:{ intros [Hf|Hf]%elem_of_paired_positions; [set_solver|done]. }
      destruct (lookup_lt_is_Some_2 indices pos ltac:(lia)) as [x Hx].
      rewrite Hx. simpl. by rewrite (list_lookup_total_correct _ _ _ Hx).
  Qed.

  (** Every pairing term reads every position below [n]: with fewer than
      [n] indices an index lookup raises. *)
Lemma pairing_term_body_None n indices (P : pairing) :
    length indices < Z.to_nat n → pairing_term_body vec n indices P = None.
  Proof.
    intros Hn. unfold pairing_term_body.
    destruct (for_each P _ (num 1)) as [term|] eqn:Hfirst; [|done].
    cbn [mbind option_bind].
    apply (for_each_None _ _ _ (Z.to_nat n - 1)).
    { unfold range. apply elem_of_seq. lia. }
    intros s. rewrite decide_True.
    { rewrite (lookup_ge_None_2 indices) by lia. done. }
    intros [Hf|Hf]%elem_of_paired_positions; [set_solver|].
    apply elem_of_positions in Hf as ([a b] & Hab & Hpos).
    destruct (for_each_Some _ _ _ _ _ Hfirst Hab) as (s' & Hs'). simpl in *.
    destruct (indices !! a) eqn:Ha; [|by destruct Hs'].
    destruct (indices !! b) eqn:Hb; [|by destruct Hs'].
    apply lookup_lt_Some in Ha, Hb. lia.
  Qed.

Lemma total_body_total n indices (l : list pairing) :
    (∀ P, P ∈ l → Forall (λ p, p.1 < p.2 < Z.to_nat n) P) →
    Z.to_nat n ≤ length indices →
    total_body vec n indices l
    = Some (foldl (λ total pairing, add total (pairing_product vec n indices pairing))
              (num 0) l).
  Proof.
    intros Hl Hn. unfold total_body. apply for_each_total.
    intros s P HP. by rewrite pairing_term_body_total by auto.
  Qed.

Lemma total_body_None n indices (l : list pairing) :
    l ≠ [] → length indices < Z.to_nat n → total_body vec n indices l = None.
  Proof.
    intros Hl Hn. destruct l as [|P l]; [done|].
    unfold total_body. simpl. by rewrite pairing_term_body_None.
  Qed.
End pairing_sum.

(** ** The builders follow the pairing sum *)

Lemma pow_minus_one_spec k : (0 ≤ k)%Z → pow_minus_one k = ((-1) ^ k)%Z.
Proof.
  intros Hk. unfold pow_minus_one.
  destruct (Z.even k) eqn:He.
  - apply Z.even_spec in He as [m ->].
    rewrite Z.pow_mul_r by lia. change ((-1) ^ 2)%Z with 1%Z. by rewrite Z.pow_1_l by lia.
  - assert (Z.odd k = true) as [m ->]%Z.odd_spec by (by rewrite <-Z.negb_even, He).
    rewrite Z.pow_add_r, Z.pow_mul_r by lia.
    change ((-1) ^ 2)%Z with 1%Z. rewrite Z.pow_1_l by lia. done.
Qed.

Lemma pairings_range n k P :
  P ∈ pairings n k → Forall (λ p, p.1 < p.2 < n) P.
Proof. intros HP%pairings_is_pairing. apply HP. Qed.

Lemma generate_pairings_eq n k : _generate_k_pairings n k = Some (pairings n k).
Proof. apply generate_total. Qed.

Lemma pairings_one_nonempty n : 2 ≤ n → pairings n 1 ≠ [].
Proof.
  intros Hn Hnil.
  assert ([(0, 1)] ∈ pairings n 1) as Hin.
  { cbn [pairings]. apply list_elem_of_fmap. exists (0, 1). split; [done|].
    apply elem_of_all_pairs. lia. }
  rewrite Hnil in Hin. by apply elem_of_nil in Hin.
Qed.

Section multipole_moments.
Import MultipoleMoments.

Lemma trace_with_k_pairs_total n indices k :
    (0 ≤ k ≤ n `div` 2)%Z → Z.to_nat n ≤ length indices →
    _trace_with_k_pairs n indices k
    = Some (trace_term xa ra0 true n indices k).
  Proof.
    intros Hk Hn. unfold _trace_with_k_pairs.
    rewrite decide_False by lia.
    unfold generate_k_pairings_at, _generate_k_pairings.
    rewrite (decide_False (P := (_ < 0)%Z)) by lia.
    rewrite generate_pairings_eq. cbn [mbind option_bind].
    change (for_each ?l _ (num 0)) with (total_body xa n indices l).
    rewrite total_body_total; [|intros; by eapply pairings_range|done].
    cbn [mbind option_bind]. unfold trace_term, coefficient.
    by rewrite pow_minus_one_spec by lia.
  Qed.

Lemma trace_with_k_pairs_None n indices :
    (2 ≤ n)%Z → length indices < Z.to_nat n → _trace_with_k_pairs n indices 1 = None.
  Proof.
    intros Hn Hlen. unfold _trace_with_k_pairs.
    rewrite decide_False by (pose proof (Z.div_le_mono 2 n 2); change (2 `div` 2)%Z with 1%Z in *; lia).
    unfold generate_k_pairings_at, _generate_k_pairings.
    rewrite (decide_False (P := (_ < 0)%Z)) by lia.
    rewrite generate_pairings_eq. cbn [mbind option_bind].
    change (for_each ?l _ (num 0)) with (total_body xa n indices l).
    rewrite total_body_None; [done| |done].
    apply pairings_one_nonempty. lia.
  Qed.

Lemma compute_all_traces_total n indices :
    Z.to_nat n ≤ length indices →
    _compute_all_traces n indices = Some (trace_sum xa ra0 true n indices).
  Proof.
    intros Hn. unfold _compute_all_traces, trace_sum. apply for_each_total.
    intros s k Hk%elem_of_seqZ. by rewrite trace_with_k_pairs_total by lia.
  Qed.

Lemma compute_all_traces_None n indices :
    (2 ≤ n)%Z → length indices < Z.to_nat n → _compute_all_traces n indices = None.
  Proof.
    intros Hn Hlen. unfold _compute_all_traces.
    apply (for_each_None _ _ _ 1%Z).
    - apply elem_of_seqZ. pose proof (Z.div_le_mono 2 n 2).
      change (2 `div` 2)%Z with 1%Z in *. lia.
    - intros s. by rewrite trace_with_k_pairs_None.
  Qed.

Lemma Q_n_general_total n indices :
    Z.to_nat n ≤ length indices →
    _Q_n_general n indices
    = Some (add (main_term xa n indices) (trace_sum xa ra0 true n indices)).
  Proof.
    intros Hn. unfold _Q_n_general. by rewrite compute_all_traces_total.
  Qed.
End multipole_moments.

Section derivative_engine.
Import DerivativeEngine.

Lemma derivative_trace_with_k_pairs_total n indices k :
    (0 ≤ k ≤ n `div` 2)%Z → Z.to_nat n ≤ length indices →
    _derivative_trace_with_k_pairs n indices k
    = Some (trace_term x r0 false n indices k).
  Proof.
    intros Hk Hn. unfold _derivative_trace_with_k_pairs.
    rewrite decide_False by lia.
    unfold generate_k_pairings_at, _generate_k_pairings.
    rewrite (decide_False (P := (_ < 0)%Z)) by lia.
    rewrite generate_pairings_eq. cbn [mbind option_bind].
    change (for_each ?l _ (num 0)) with (total_body x n indices l).
    rewrite total_body_total; [|intros; by eapply pairings_range|done].
    cbn [mbind option_bind]. unfold trace_term, coefficient.
    rewrite Z.mul_1_l. done.
  Qed.

Lemma derivative_trace_with_k_pairs_None n indices :
    (2 ≤ n)%Z → length indices < Z.to_nat n →
    _derivative_trace_with_k_pairs n indices 1 = None.
  Proof.
    intros Hn Hlen. unfold _derivative_trace_with_k_pairs.
    rewrite decide_False by (pose proof (Z.div_le_mono 2 n 2); change (2 `div` 2)%Z with 1%Z in *; lia).
    unfold generate_k_pairings_at, _generate_k_pairings.
    rewrite (decide_False (P := (_ < 0)%Z)) by lia.
    rewrite generate_pairings_eq. cbn [mbind option_bind].
    change (for_each ?l _ (num 0)) with (total_body x n indices l).
    rewrite total_body_None; [done| |done].
    apply pairings_one_nonempty. lia.
  Qed.

Lemma compute_all_derivative_traces_total n indices :
    Z.to_nat n ≤ length indices →
    _compute_all_derivative_traces n indices = Some (trace_sum x r0 false n indices).
  Proof.
    intros Hn. unfold _compute_all_derivative_traces, trace_sum. apply for_each_total.
    intros s k Hk%elem_of_seqZ. by rewrite derivative_trace_with_k_pairs_total by lia.
  Qed.

Lemma compute_all_derivative_traces_None n indices :
    (2 ≤ n)%Z → length indices < Z.to_nat n →
    _compute_all_derivative_traces n indices = None.
  Proof.
    intros Hn Hlen. unfold _compute_all_derivative_traces.
    apply (for_each_None _ _ _ 1%Z).
    - apply elem_of_seqZ. pose proof (Z.div_le_mono 2 n 2).
      change (2 `div` 2)%Z with 1%Z in *. lia.
    - intros s. by rewrite derivative_trace_with_k_pairs_None.
  Qed.
End derivative_engine.

(** ** Evaluation of expressions with label variables *)

Lemma string_compare_refl s : String.compare s s = Eq.
Proof.
  induction s as [|c s IH]; [done|]. simpl.
  unfold Ascii.compare. by rewrite N.compare_refl.
Qed.

Lemma string_compare_cases i j :
  i ≠ j →
  (String.compare i j = Lt ∧ String.compare j i = Gt)
  ∨ (String.compare i j = Gt ∧ String.compare j i = Lt).
Proof.
  intros Hij. rewrite (String.compare_antisym j i).
  destruct (String.compare i j) eqn:Hc; simpl; auto.
  by apply String.compare_eq_iff in Hc.
Qed.

Ltac order_labels i j H :=
  destruct (string_compare_cases i j H) as [[? ?]|[? ?]];
  pose proof (proj2 (String.eqb_neq i j) H);
  pose proof (proj2 (String.eqb_neq j i) (not_eq_sym H)).

(** Evaluation of the operators on canonical forms whose labels are
    variables: the comparisons of labels are resolved from the hypotheses,
    innermost operation first. *)
Ltac rewrite_compare :=
  repeat match goal with
         | H : String.compare _ _ = _ |- _ => rewrite !H
         | |- context [String.compare ?a ?b] =>
             let r := eval vm_compute in (String.compare a b) in
             lazymatch r with
             | Eq => change (String.compare a b) with Eq
             | Lt => change (String.compare a b) with Lt
             | Gt => change (String.compare a b) with Gt
             end
         end;
  rewrite ?string_compare_refl.

Ltac settled t :=
  lazymatch t with
  | context [insert_factor] => fail
  | context [insert_term] => fail
  | context [String.compare] => fail
  | context [mul] => fail
  | context [add] => fail
  | context [pow] => fail
  | _ => idtac
  end.

Ltac resolve_compare :=
  repeat (cbv -[String.compare]; progress rewrite_compare); cbv -[String.compare].

Ltac eval_inserts :=
  repeat match goal with
         | |- context [insert_factor ?a ?e ?m] =>
             settled a; settled m;
             let H := fresh in
             eassert (insert_factor a e m = _) as H by (resolve_compare; reflexivity);
             rewrite !H; clear H
         | |- context [insert_term ?m ?c ?p] =>
             settled m; settled p;
             let H := fresh in
             eassert (insert_term m c p = _) as H by (resolve_compare; reflexivity);
             rewrite !H; clear H
         end.

Ltac eval_op t :=
  let H := fresh in
  eassert (t = _) as H
    by (repeat (cbv -[insert_factor insert_term String.compare]; progress eval_inserts);
        cbv -[insert_factor insert_term String.compare]; reflexivity);
  rewrite !H; clear H.

Ltac eval_ops :=
  repeat match goal with
         | |- context [pow ?a ?e] => settled a; eval_op (pow a e)
         | |- context [mul ?a ?b] => settled a; settled b; eval_op (mul a b)
         | |- context [add ?a ?b] => settled a; settled b; eval_op (add a b)
         end.

Ltac eval_leaves :=
  repeat match goal with
         | |- context [num ?c] =>
             let r := eval cbv in (num c) in change (num c) with r
         end.

Ltac eval_expression :=
  unfold sub, neg, div;
  cbv [TensorContraction.xa TensorContraction.x TensorContraction.n
       TensorContraction.delta TensorContraction.ra0 TensorContraction.r0
       MultipoleMoments.xa MultipoleMoments.delta MultipoleMoments.ra0
       call symbol];
  eval_leaves; eval_ops.

Ltac unfold_builder :=
  cbv -[mul add num pow sub neg div
        TensorContraction.xa TensorContraction.x TensorContraction.delta
        TensorContraction.ra0 TensorContraction.r0
        MultipoleMoments.xa MultipoleMoments.delta MultipoleMoments.ra0
        DerivativeEngine.x DerivativeEngine.delta DerivativeEngine.r0
        TensorContraction.contract_indices replace].

Import MultipoleMoments.

Lemma Q_general_order_two i j : i ≠ j → _Q_n_general 2 [i; j] = Some (_Q_2 i j).
Proof.
  intros Hij. rewrite Q_n_general_total by (simpl; lia). apply f_equal.
  unfold _Q_2. unfold_builder.
  order_labels i j Hij; (eval_expression; reflexivity).
Qed.

Lemma Q_general_order_three i j k :
  i ≠ j → i ≠ k → j ≠ k → _Q_n_general 3 [i; j; k] = Some (_Q_3 i j k).
Proof.
  intros Hij Hik Hjk. rewrite Q_n_general_total by (simpl; lia). apply f_equal.
  unfold _Q_3. unfold_builder.
  order_labels i j Hij; order_labels i k Hik; order_labels j k Hjk;
    (eval_expression; reflexivity).
Qed.

(** ** Contraction of the tensor *)

Import MultipoleMoments.

Ltac rewrite_eqb :=
  repeat match goal with
         | |- context [String.eqb ?a ?a] => rewrite (String.eqb_refl a)
         | H : String.eqb _ _ = _ |- _ => rewrite !H
         | |- context [String.eqb ?a ?b] =>
             let r := eval vm_compute in (String.eqb a b) in
             lazymatch r with
             | true => change (String.eqb a b) with true
             | false => change (String.eqb a b) with false
             end
         end.

Ltac settled_all t :=
  settled t;
  lazymatch t with
  | context [match_product] => fail
  | context [match_atom] => fail
  | context [instantiate] => fail
  | context [String.eqb] => fail
  | context [replace] => fail
  | _ => idtac
  end.

Ltac eval_matching :=
  repeat (cbv -[String.eqb]; progress rewrite_eqb); cbv -[String.eqb].

Ltac eval_instantiate :=
  repeat (cbv -[mul add pow String.eqb]; progress rewrite_eqb);
  cbv -[mul add pow String.eqb]; eval_ops.

Ltac eval_stage :=
  repeat match goal with
         | |- context [match_product ?p ?m ?θ] =>
             settled_all p; settled_all m; settled_all θ;
             let H := fresh in
             eassert (match_product p m θ = _) as H by (eval_matching; reflexivity);
             rewrite !H; clear H
         | |- context [match_atom ?p ?a ?θ] =>
             settled_all p; settled_all a; settled_all θ;
             let H := fresh in
             eassert (match_atom p a θ = _) as H by (eval_matching; reflexivity);
             rewrite !H; clear H
         | |- context [instantiate ?θ ?rhs] =>
             settled_all θ; settled_all rhs;
             let H := fresh in
             eassert (instantiate θ rhs = _) as H by (eval_instantiate; reflexivity);
             rewrite !H; clear H
         | |- context [pow ?a ?e] => settled_all a; eval_op (pow a e)
         | |- context [mul ?a ?b] => settled_all a; settled_all b; eval_op (mul a b)
         | |- context [add ?a ?b] => settled_all a; settled_all b; eval_op (add a b)
         end.

Ltac cbv_stage :=
  cbv -[match_product match_atom instantiate mul add pow insert_factor insert_term
        String.compare String.eqb].

Ltac eval_replace :=
  repeat match goal with
         | |- context [replace ?e ?p ?r] =>
             settled_all e;
             let p' := eval vm_compute in p in
             let r' := eval vm_compute in r in
             change (replace e p r) with (replace e p' r');
             let H := fresh in
             eassert (replace e p' r' = _) as H
               by (repeat (cbv_stage; progress eval_stage); cbv_stage; reflexivity);
             rewrite !H; clear H
         end.

Ltac eval_contract :=
  unfold TensorContraction.contract_indices, TensorContraction._contract_xa_xa,
    TensorContraction._contract_xa_n, TensorContraction._contract_x_x,
    TensorContraction._contract_x_n, TensorContraction._contract_n_n,
    TensorContraction._contract_delta;
  cbv zeta; eval_replace.

Lemma Q_tensor_general n indices :
  n ≠ 0%Z → n ≠ 1%Z → Z.to_nat n ≤ length indices →
  Q_tensor n (Some indices)
  = Some (add (main_term xa n indices) (trace_sum xa ra0 true n indices)).
Proof.
  intros H0 H1 Hn. unfold Q_tensor. rewrite !decide_False by done.
  by apply Q_n_general_total.
Qed.



(** C3. The code at the failing input: for order 3 with the shared label at
    positions 0 and 1, repeated contraction never arrives at zero.  It stops
    at [15·ra0²·xa(k) - 3·ra0²·(2·delta(i,k)·xa(i) + 3·xa(k))], because no
    rule contracts [delta(i,k)] with a vector that carries its first
    index. *)
Lemma Q_trace_order_three_not_zero :
  ∃ e, Q_tensor 3 (Some ["i"; "i"; "k"]) = Some e
       ∧ ∀ r, Occurrence.contracts_to e r → r ≠ num 0.
Proof.
  destruct (Q_tensor 3 (Some ["i"; "i"; "k"])) as [e|] eqn:He;
    [|vm_compute in He; discriminate].
  exists e. split; [done|]. vm_compute in He. injection He as <-.
  set (e1 := [([(ASym "ra0", 2%Z); (AFn "xa" ["k"], 1%Z)], 15%Z);
              ([(ASym "ra0", 2%Z);
                (ASum [([(AFn "delta" ["i"; "k"], 1%Z); (AFn "xa" ["i"], 1%Z)], 2%Z);
                       ([(AFn "xa" ["k"], 1%Z)], 3%Z)], 1%Z)], (-3)%Z)] : Expression).
  assert (TensorContraction.contract_indices e1 = e1) as Hfix
    by (vm_compute; reflexivity).
  intros r (passes & <- & _).
  destruct passes as [|m]; [vm_compute; discriminate|].
  rewrite Nat.iter_succ_r.
  match goal with
  | |- context [TensorContraction.contract_indices ?e] =>
      assert (TensorContraction.contract_indices e = e1) as ->
        by (vm_compute; reflexivity)
  end.
  assert (Nat.iter m TensorContraction.contract_indices e1 = e1) as ->; [|done].
  induction m as [|m IH]; [done|]. simpl. rewrite IH. exact Hfix.
Qed.

(** For order 3 the contraction does reach zero when the shared label
    stands at the last two positions. *)
Example Q_trace_order_three_last_two :
  ∃ e, Q_tensor 3 (Some ["i"; "j"; "j"]) = Some e
       ∧ TensorContraction.contract_indices e = num 0.
Proof.
  destruct (Q_tensor 3 (Some ["i"; "j"; "j"])) as [e|] eqn:He;
    [|vm_compute in He; discriminate].
  exists e. split; [done|]. vm_compute in He. injection He as <-.
  vm_compute. reflexivity.
Qed.

(** The labels that [verify_Q_traceless(3)] builds, [i, i, i3], are of the
    shape that does not contract to zero. *)
Example Q_trace_order_three_verifier_labels :
  ∃ e, Q_tensor 3 (Some ["i"; "i"; "i3"]) = Some e
       ∧ TensorContraction.contract_indices e ≠ num 0
       ∧ TensorContraction.contract_indices (TensorContraction.contract_indices e)
         = TensorContraction.contract_indices e.
Proof.
  destruct (Q_tensor 3 (Some ["i"; "i"; "i3"])) as [e|] eqn:He;
    [|vm_compute in He; discriminate].
  exists e. split; [done|]. vm_compute in He. injection He as <-.
  split; [vm_compute; discriminate|vm_compute; reflexivity].
Qed.

(** ** Soundness of the matcher *)

Lemma extends_refl θ : extends θ θ.
Proof. by intros w v. Qed.

Lemma extends_trans θ1 θ2 θ3 : extends θ1 θ2 → extends θ2 θ3 → extends θ1 θ3.
Proof. intros H12 H23 w v Hw. by apply H23, H12. Qed.

Lemma match_arg_sound p t θ θ' :
  match_arg p t θ = Some θ' →
  extends θ θ' ∧ ∀ θ'', extends θ' θ'' → assign (assignment_of θ'') p = t.
Proof.
  unfold match_arg, assign, assignment_of.
  destruct (is_wildcard p) eqn:Hw.
  - destruct (lookup_binding θ p) as [v|] eqn:Hl.
    + destruct (String.eqb v t) eqn:Heq; [|done]. intros [= <-].
      apply String.eqb_eq in Heq as ->. split; [apply extends_refl|].
      intros θ'' Hext. by rewrite (Hext _ _ Hl).
    + intros [= <-]. split.
      * intros w v Hwv. simpl. destruct (String.eqb w p) eqn:Heq; [|done].
        apply String.eqb_eq in Heq as ->. congruence.
      * intros θ'' Hext. rewrite (Hext p t); [done|].
        simpl. by rewrite String.eqb_refl.
  - destruct (String.eqb p t) eqn:Heq; [|done]. intros [= <-].
    apply String.eqb_eq in Heq as ->. split; [apply extends_refl|done].
Qed.

Lemma match_args_sound ps : ∀ ts θ θ',
  match_args ps ts θ = Some θ' →
  extends θ θ' ∧ ∀ θ'', extends θ' θ'' → assign (assignment_of θ'') <$> ps = ts.
Proof.
  induction ps as [|p ps IH]; intros [|t ts] θ θ' Hm; simpl in Hm; try done.
  - injection Hm as <-. split; [apply extends_refl|done].
  - destruct (match_arg p t θ) as [θ1|] eqn:Hp; [|done]. simpl in Hm.
    apply match_arg_sound in Hp as [He1 Hp]. apply IH in Hm as [He2 Hps].
    split; [by eapply extends_trans|].
    intros θ'' Hext. rewrite fmap_cons. f_equal; [|by apply Hps].
    apply Hp. by eapply extends_trans.
Qed.

Lemma match_atom_sound pa ta θ θ' :
  match_atom pa ta θ = Some θ' →
  extends θ θ'
  ∧ ∀ θ'' e, extends θ' θ'' → assign_factor (assignment_of θ'') (pa, e) = (ta, e).
Proof.
  destruct pa as [s|f ps|p], ta as [t|g ts|q];
    unfold match_atom, assign_factor; simpl; try done.
  - destruct (String.eqb s t) eqn:Heq; [|done]. intros [= <-].
    apply String.eqb_eq in Heq as ->. split; [apply extends_refl|done].
  - destruct (String.eqb f g) eqn:Heq; [|done]. intros Hm.
    apply String.eqb_eq in Heq as ->.
    apply match_args_sound in Hm as [He Hps]. split; [done|].
    intros θ'' e Hext. by rewrite Hps.
Qed.

Lemma match_factor_sound pf tf θ θ' :
  match_factor pf tf θ = Some θ' →
  extends θ θ' ∧ ∀ θ'', extends θ' θ'' → assign_factor (assignment_of θ'') pf = tf.
Proof.
  destruct pf as [pa e], tf as [ta e']. unfold match_factor. simpl.
  case_bool_decide as He; [|done]. subst e'.
  intros [Hext Hm]%match_atom_sound. split; [done|].
  intros θ'' Hext'. by apply Hm.
Qed.

Lemma pick_Some {R} (try : atom * Z → monomial → option R) after : ∀ before r,
  pick try before after = Some r →
  ∃ tf a1 a2, after = a1 ++ tf :: a2 ∧ try tf (before ++ a1 ++ a2) = Some r.
Proof.
  induction after as [|tf after IH]; intros before r Hp; [done|].
  simpl in Hp. destruct (try tf (before ++ after)) as [r'|] eqn:Ht.
  - injection Hp as ->. by exists tf, [], after.
  - apply IH in Hp as (tf' & a1 & a2 & -> & Hr).
    exists tf', (tf :: a1), a2. split; [done|].
    by rewrite <-app_assoc in Hr.
Qed.

(** A successful match exhibits the instantiated pattern factors among the
    factors of the product. *)
Lemma match_product_sound pat : ∀ m θ θ' rest,
  match_product pat m θ = Some (θ', rest) →
  extends θ θ'
  ∧ ∀ θ'', extends θ' θ'' → (assign_factor (assignment_of θ'') <$> pat) ++ rest ≡ₚ m.
Proof.
  induction pat as [|pf pat IH]; intros m θ θ' rest Hm; simpl in Hm.
  - injection Hm as <- <-. split; [apply extends_refl|done].
  - apply pick_Some in Hm as (tf & a1 & a2 & -> & Hm). simpl in Hm.
    destruct (match_factor pf tf θ) as [θ1|] eqn:Hf; [|done]. simpl in Hm.
    apply match_factor_sound in Hf as [He1 Hf]. apply IH in Hm as [He2 Hm].
    split; [by eapply extends_trans|].
    intros θ'' Hext. rewrite fmap_cons. simpl.
    rewrite Hm by done. rewrite Hf by (by eapply extends_trans).
    by rewrite Permutation_middle.
Qed.

Lemma match_product_matches pat m θ rest :
  match_product pat (filter (λ f, is_sum f.1 = false) m) [] = Some (θ, rest) →
  matches pat m.
Proof.
  intros [_ Hm]%match_product_sound. exists (assignment_of θ). left.
  specialize (Hm θ (extends_refl θ)).
  etrans; [|apply sublist_submseteq, (sublist_filter (λ f : atom * Z, is_sum f.1 = false))].
  rewrite <-Hm. by apply submseteq_inserts_r.
Qed.

Lemma replace_matches_None fuel pat rhs m :
  match_product pat m [] = None → replace_matches fuel pat rhs m = ([], m).
Proof. intros Hm. destruct fuel; [done|]. simpl. by rewrite Hm. Qed.

Lemma replace_bases_None pa rhs m :
  (∀ tf, tf ∈ m → match_atom pa tf.1 [] = None) → replace_bases pa rhs m = ([], m).
Proof.
  induction m as [|tf m IH]; intros Hm; [done|]. simpl.
  rewrite (Hm tf) by (by left). rewrite IH by (intros; apply Hm; by right). done.
Qed.

Lemma forallb_None {A B} (g : A → option B) (l : list A) :
  (∀ x, x ∈ l → g x = None) →
  forallb (λ x : A * option B, bool_decide (x.2 = None)) ((λ x, (x, g x)) <$> l) = true.
Proof.
  induction l as [|x l IH]; intros Hg; [done|]. simpl.
  rewrite Hg by (by left). simpl. apply IH. intros; apply Hg; by right.
Qed.

(** Where the product does not contain the pattern, neither way of
    looking for it finds anything. *)
Lemma replace_term_None rec pat rhs t :
  ¬ matches pat t.1 →
  (∀ f, f ∈ t.1 → rec f.1 = None) →
  replace_term rec pat rhs t = None.
Proof.
  intros Hfree Hrec. unfold replace_term.
  set (flat := filter (λ f : atom * Z, is_sum f.1 = false) t.1).
  assert (replace_matches (length flat) pat rhs flat = ([], flat)) as Hgen.
  { apply replace_matches_None.
    destruct (match_product pat flat []) as [[θ rest]|] eqn:Hm; [|done].
    exfalso. apply Hfree. by eapply match_product_matches. }
  assert (∀ pa, pat = [(pa, 1%Z)] → replace_bases pa rhs flat = ([], flat)) as Hbase.
  { intros pa ->. apply replace_bases_None. intros [ta e] Hin. simpl.
    destruct (match_atom pa ta []) as [θ|] eqn:Hm; [|done].
    exfalso. apply Hfree. apply match_atom_sound in Hm as [_ Hm].
    exists (assignment_of θ). right. exists pa, e. split; [done|].
    rewrite (Hm θ 1%Z (extends_refl θ)). simpl.
    by apply list_elem_of_filter in Hin as [_ Hin]. }
  assert ((match pat with
           | [(pa, 1%Z)] => replace_bases pa rhs flat
           | _ => replace_matches (length flat) pat rhs flat
           end) = ([], flat)) as ->.
  { destruct pat as [|[pa e] tl]; [exact Hgen|].
    destruct e as [|[| |]|], tl; try exact Hgen. by apply Hbase. }
  simpl. rewrite (forallb_None (λ f, rec f.1)) by done. done.
Qed.

Lemma atom_size_elem (p : Expression) m c a k :
  (m, c) ∈ p → (a, k) ∈ m → atom_size a < atom_size (ASum p).
Proof.
  intros Hm Ha. cbn [atom_size]. apply Nat.lt_succ_r.
  etrans; [|apply (sum_list_with_in (m, c)); done].
  apply (sum_list_with_in (a, k) (λ f, atom_size f.1)). done.
Qed.

(** Where the pattern does not occur, the replacement finds nothing. *)
Lemma replace_atom_None pat rhs : ∀ size a,
  atom_size a < size →
  (∀ q, a = ASum q → ¬ occurs pat q) →
  replace_atom pat rhs a = None.
Proof.
  induction size as [|size IH]; intros a Hsize Hfree; [lia|].
  destruct a as [s|f args|p]; [done..|].
  cbn [replace_atom].
  rewrite (forallb_None (λ t, replace_term (replace_atom pat rhs) pat rhs t)); [done|].
  intros [m c] Hmc. apply replace_term_None.
  - intros Hm. apply (Hfree p eq_refl). by eapply occurs_here.
  - intros [a k] Ha. simpl. apply IH.
    + pose proof (atom_size_elem p m c a k Hmc Ha). lia.
    + intros q -> Hocc. apply (Hfree p eq_refl). by eapply occurs_nested.
Qed.

Lemma replace_free e pattern rhs :
  ¬ occurs (pattern_factors pattern) e → replace e pattern rhs = e.
Proof.
  intros Hfree. unfold replace.
  destruct pattern as [|[m c] tl]; [done|].
  destruct m as [|f pat], c as [|[| |]|], tl; try done.
  rewrite (replace_atom_None _ _ (S (atom_size (ASum e)))); [done|lia|].
  by intros q [= <-].
Qed.

Lemma contract_indices_pattern_free e :
  pattern_free e → TensorContraction.contract_indices e = e.
Proof.
  intros Hfree.
  unfold TensorContraction.contract_indices, TensorContraction._contract_xa_xa,
    TensorContraction._contract_xa_n, TensorContraction._contract_x_x,
    TensorContraction._contract_x_n, TensorContraction._contract_n_n,
    TensorContraction._contract_delta. cbv zeta.
  assert (∀ pattern rhs, pattern ∈ recognized_patterns → replace e pattern rhs = e) as Hr.
  { intros pattern rhs Hp. by apply replace_free, Hfree. }
  repeat rewrite Hr
    by (unfold recognized_patterns; cbv zeta;
        repeat (apply list_elem_of_here || apply list_elem_of_further)).
  done.
Qed.

(** The matcher looks into powers: the squared trace of the identity
    becomes 9, and the square of a component that no rule pairs is kept. *)
Example contract_indices_power :
  TensorContraction.contract_indices (pow (TensorContraction.delta "i" "i") 2) = num 9
  ∧ TensorContraction.contract_indices
      (mul (pow (TensorContraction.delta "i" "j") 2) (pow (TensorContraction.xa "k") 4))
    = mul (pow (TensorContraction.delta "i" "j") 2) (pow (TensorContraction.xa "k") 4).
Proof. split; vm_compute; reflexivity. Qed.

Ltac refute_membership :=
  repeat first
    [ match goal with
      | H : _ ∈ [] |- _ => by apply elem_of_nil in H
      | H : _ ∈ _ :: _ |- _ => apply elem_of_cons in H as [H|H]
      end
    | progress simplify_eq ];
  try congruence.

(** C8. An expression that one contraction pass leaves unchanged is left
    unchanged by a further pass, and an expression that contains none of the
    recognized patterns, in a product or as the base of a power, at any
    depth, is returned unchanged.  [contract_indices] is a total function:
    no pass raises. *)
Theorem contract_fixed_point (e : Expression) :
  (TensorContraction.contract_indices e = e →
   TensorContraction.contract_indices (TensorContraction.contract_indices e) = e)
  ∧ (pattern_free e → TensorContraction.contract_indices e = e).
Proof.
  split.
  - intros Hfix. by rewrite !Hfix.
  - apply contract_indices_pattern_free.
Qed.

Lemma contract_fixed_point_witness :
  TensorContraction.contract_indices
    (TensorContraction.contract_indices (MultipoleMoments._Q_2 "i" "j"))
  = MultipoleMoments._Q_2 "i" "j"
  ∧ TensorContraction.contract_indices (MultipoleMoments._Q_2 "i" "j")
    = MultipoleMoments._Q_2 "i" "j".
Proof.
  split.
  - apply (proj1 (contract_fixed_point (MultipoleMoments._Q_2 "i" "j"))).
    vm_compute. reflexivity.
  - apply (proj2 (contract_fixed_point (MultipoleMoments._Q_2 "i" "j"))).
    intros pattern Hp Hocc.
    unfold recognized_patterns in Hp. cbv zeta in Hp.
    repeat (apply elem_of_cons in Hp as [->|Hp]);
      [..|by apply elem_of_nil in Hp];
      vm_compute in Hocc;
      (inversion Hocc as [e m c Hm [θ [Hsub|(pa & k & Hpat & Hin)]]|e m c q k Hm Hq _];
       subst;
       [ apply elem_of_cons in Hm as [Hm|Hm];
         [|apply elem_of_cons in Hm as [Hm|Hm]; [|by apply elem_of_nil in Hm]];
         injection Hm as -> ->; cbn in Hsub;
         match type of Hsub with
         | ?l ⊆+ ?m =>
             pose proof (proj2 (Forall_forall (λ y, y ∈ m) l)
                           (λ y Hy, elem_of_submseteq _ _ y Hy Hsub)) as Hall
         end;
         clear Hsub; repeat (apply Forall_cons in Hall as [? Hall]);
         refute_membership
       | injection Hpat as <-; cbn in Hin; refute_membership
       | refute_membership ]).
Defined.

(** ** Generator and builders: the stated properties *)

(** C2. For [0 <= k <= n / 2] both copies of the generator return
    [n! / (2^k k! (n - 2k)!)] pairings. *)
Theorem generate_k_pairings_count (n k : nat) :
  k ≤ n `div` 2 →
  ∃ l, MultipoleMoments._generate_k_pairings n k = Some l
       ∧ DerivativeEngine._generate_k_pairings n k = Some l
       ∧ length l = fact n `div` (2 ^ k * fact k * fact (n - 2 * k)).
Proof.
  intros Hk. exists (pairings n k).
  split; [apply generate_pairings_eq|]. split; [apply generate_pairings_eq|].
  assert (2 * k ≤ n) as Hk2.
  { pose proof (Nat.Div0.mul_div_le n 2). lia. }
  pose proof (pairings_count k n Hk2) as Hc.
  assert (2 ^ k * fact k * fact (n - 2 * k) ≠ 0) as Hnz.
  { pose proof (fact_neq_0 k). pose proof (fact_neq_0 (n - 2 * k)).
    pose proof (Nat.pow_nonzero 2 k). lia. }
  rewrite <-Hc. by rewrite Nat.div_mul.
Qed.

Lemma generate_k_pairings_count_witness :
  ∃ l, MultipoleMoments._generate_k_pairings 4 2 = Some l
       ∧ DerivativeEngine._generate_k_pairings 4 2 = Some l
       ∧ length l = 3.
Proof. apply (generate_k_pairings_count 4 2). simpl. lia. Defined.

(** C6. The generator returns no two pairings that are equal as sets of
    unordered pairs, and no returned pairing uses a position twice. *)
Theorem generate_k_pairings_distinct (n k : nat) :
  ∃ l, MultipoleMoments._generate_k_pairings n k = Some l
       ∧ DerivativeEngine._generate_k_pairings n k = Some l
       ∧ (∀ a b p q, a ≠ b → l !! a = Some p → l !! b = Some q →
            unordered_pairs p ≠ unordered_pairs q)
       ∧ (∀ p, p ∈ l → NoDup (positions p)).
Proof.
  exists (pairings n k).
  split; [apply generate_pairings_eq|]. split; [apply generate_pairings_eq|]. split.
  - intros a b p q Hab Hp Hq Heq.
    pose proof (pairings_is_pairing _ _ _ (list_elem_of_lookup_2 _ _ _ Hp)) as Hwp.
    pose proof (pairings_is_pairing _ _ _ (list_elem_of_lookup_2 _ _ _ Hq)) as Hwq.
    apply Hab. apply (NoDup_lookup (normalized <$> pairings n k) a b (normalized p)).
    + apply pairings_NoDup.
    + by rewrite list_lookup_fmap, Hp.
    + rewrite list_lookup_fmap, Hq. simpl. f_equal. symmetry.
      apply normalized_eq_iff; [by eapply is_pairing_ascending..|].
      by eapply unordered_pairs_Permutation.
  - intros p Hp%pairings_is_pairing. apply Hp.
Qed.

(** C7. With more pairs than [n] positions allow, the generator returns the
    empty list and raises nothing. *)
Theorem generate_k_pairings_too_many_pairs (n k : nat) :
  n < 2 * k → MultipoleMoments._generate_k_pairings n k = Some [].
Proof.
  intros Hk. unfold MultipoleMoments._generate_k_pairings.
  by rewrite generate_pairings_eq, pairings_empty.
Qed.

Lemma generate_k_pairings_too_many_pairs_witness :
  MultipoleMoments._generate_k_pairings 3 2 = Some [].
Proof. apply (generate_k_pairings_too_many_pairs 3 2). lia. Defined.

Section builders.
Import MultipoleMoments.

(** C5. The concrete values of the tensor for the orders 0 to 3. *)
Theorem Q_tensor_concrete_values :
  Q_tensor 0 (Some []) = Some (num 1)
  ∧ (∀ i, Q_tensor 1 (Some [i]) = Some (xa i))
  ∧ (∀ i j, i ≠ j →
       Q_tensor 2 (Some [i; j])
       = Some (sub (mul (mul (num 3) (xa i)) (xa j)) (mul (delta i j) (pow ra0 2))))
  ∧ (∀ i j k, i ≠ j → i ≠ k → j ≠ k →
       Q_tensor 3 (Some [i; j; k])
       = Some (sub (mul (mul (mul (num 15) (xa i)) (xa j)) (xa k))
                   (mul (mul (num 3) (pow ra0 2))
                        (add (add (mul (delta i j) (xa k)) (mul (delta i k) (xa j)))
                             (mul (delta j k) (xa i)))))).
Proof.
  split_and!; [done|done|..].
  - intros i j Hij. exact (Q_general_order_two i j Hij).
  - intros i j k Hij Hik Hjk. exact (Q_general_order_three i j k Hij Hik Hjk).
Qed.

Lemma Q_tensor_concrete_values_witness :
  Q_tensor 2 (Some ["i"; "j"])
  = Some (sub (mul (mul (num 3) (xa "i")) (xa "j")) (mul (delta "i" "j") (pow ra0 2)))
  ∧ Q_tensor 3 (Some ["i"; "j"; "k"])
    = Some (sub (mul (mul (mul (num 15) (xa "i")) (xa "j")) (xa "k"))
                (mul (mul (num 3) (pow ra0 2))
                     (add (add (mul (delta "i" "j") (xa "k")) (mul (delta "i" "k") (xa "j")))
                          (mul (delta "j" "k") (xa "i"))))).
Proof.
  destruct Q_tensor_concrete_values as (_ & _ & H2 & H3). split.
  - apply H2. discriminate.
  - apply H3; discriminate.
Defined.

(** C10. On distinct labels the general pairing-sum path builds the same
    expressions as the hand-coded closed forms [_Q_2] and [_Q_3]. *)
Theorem Q_n_general_closed_forms :
  (∀ i j, i ≠ j → _Q_n_general 2 [i; j] = Some (_Q_2 i j))
  ∧ (∀ i j k, i ≠ j → i ≠ k → j ≠ k → _Q_n_general 3 [i; j; k] = Some (_Q_3 i j k)).
Proof.
  split.
  - exact Q_general_order_two.
  - exact Q_general_order_three.
Qed.

Lemma Q_n_general_closed_forms_witness :
  _Q_n_general 2 ["i"; "j"] = Some (_Q_2 "i" "j")
  ∧ _Q_n_general 3 ["i"; "j"; "k"] = Some (_Q_3 "i" "j" "k").
Proof.
  split.
  - apply (proj1 Q_n_general_closed_forms). discriminate.
  - apply (proj2 Q_n_general_closed_forms); discriminate.
Defined.

End builders.

Section double_factorial.

Lemma foldr_mul_app (l1 l2 : list Z) :
  foldr Z.mul 1%Z (l1 ++ l2) = (foldr Z.mul 1%Z l1 * foldr Z.mul 1%Z l2)%Z.
Proof. induction l1 as [|a l1 IH]; simpl; [lia|]. rewrite IH. lia. Qed.

(** The product of the integers of the parity of [m] up to [m + 2] is
    [m + 2] times the product up to [m]. *)
Lemma parity_product_step (m : Z) :
  (0 ≤ m)%Z →
  foldr Z.mul 1%Z (filter (λ j, Z.even j = Z.even (m + 2)) (seqZ 1 (m + 2)))
  = ((m + 2) * foldr Z.mul 1%Z (filter (λ j, Z.even j = Z.even m) (seqZ 1 m)))%Z.
Proof.
  intros Hm. rewrite seqZ_app by lia. rewrite filter_app, foldr_mul_app.
  assert (Z.even (m + 2) = Z.even m) as Heven.
  { replace (m + 2)%Z with (m + 2 * 1)%Z by lia. apply Z.even_add_mul_2. }
  rewrite Heven.
  change (seqZ (1 + m) 2) with [(Z.of_nat 0 + (1 + m))%Z; (Z.of_nat 1 + (1 + m))%Z].
  rewrite filter_cons, decide_False.
  2:{ replace (Z.of_nat 0 + (1 + m))%Z with (Z.succ m) by lia.
      rewrite Z.even_succ, <-Z.negb_even. by destruct (Z.even m). }
  rewrite filter_cons, decide_True, filter_nil.
  2:{ replace (Z.of_nat 1 + (1 + m))%Z with (m + 2)%Z by lia. exact Heven. }
  simpl. lia.
Qed.

(** The recursion of [_double_factorial] computes the double factorial of
    the specification. *)
Lemma double_factorial_spec (m : Z) :
  MultipoleMoments._double_factorial m = BuilderSpec.doubleFactorial m.
Proof.
  unfold MultipoleMoments._double_factorial, BuilderSpec.doubleFactorial.
  case_decide as Hm; [by replace (Z.to_nat m) with 0%nat by lia|].
  assert (m = Z.of_nat (Z.to_nat m)) as Hj by lia.
  revert Hj. generalize (Z.to_nat m). intros j ->. clear Hm.
  cut (MultipoleMoments.double_factorial_nat j
       = foldr Z.mul 1%Z
           (filter (λ i, Z.even i = Z.even (Z.of_nat j)) (seqZ 1 (Z.of_nat j)))
       ∧ MultipoleMoments.double_factorial_nat (S j)
         = foldr Z.mul 1%Z
             (filter (λ i, Z.even i = Z.even (Z.of_nat (S j))) (seqZ 1 (Z.of_nat (S j)))));
    [by intros [? _]|].
  induction j as [|j [IH1 IH2]]; [by split|].
  split; [exact IH2|].
  change (MultipoleMoments.double_factorial_nat (S (S j)))
    with (Z.of_nat (S (S j)) * MultipoleMoments.double_factorial_nat j)%Z.
  rewrite IH1. replace (Z.of_nat (S (S j))) with (Z.of_nat j + 2)%Z by lia.
  symmetry. apply parity_product_step. lia.
Qed.

End double_factorial.

Section builder_spec.
Context (vec : string → Expression) (mag : Expression) (alternating : bool).

Lemma main_term_spec n indices :
    main_term vec n indices = BuilderSpec.main_term vec n indices.
  Proof. unfold main_term, BuilderSpec.main_term. by rewrite double_factorial_spec. Qed.

Lemma trace_term_spec n indices k :
    (0 ≤ k)%Z →
    trace_term vec mag alternating n indices k
    = BuilderSpec.trace_term vec mag alternating n indices k.
  Proof.
    intros Hk. unfold trace_term, BuilderSpec.trace_term, coefficient.
    do 3 f_equal. f_equal.
    case_decide as Hpos; [apply double_factorial_spec|].
    unfold BuilderSpec.doubleFactorial. by rewrite decide_True by lia.
  Qed.

Lemma trace_sum_spec n indices :
    trace_sum vec mag alternating n indices
    = BuilderSpec.trace_sum vec mag alternating n indices.
  Proof.
    unfold trace_sum, BuilderSpec.trace_sum. generalize (num 0).
    assert (Forall (λ k, 0 ≤ k)%Z (seqZ 1 (n `div` 2))) as Hall.
    { apply Forall_forall. intros k Hk%elem_of_seqZ. lia. }
    induction Hall as [|k ks Hk _ IH]; intros e0; [done|].
    simpl. by rewrite trace_term_spec, IH.
  Qed.
End builder_spec.

Section derivative.
Import DerivativeEngine.

(** C1. For [n >= 3] the code returns the derivative of the specification:
    [(-1)^n] times the numerator over [r0^(2n+1)], where the numerator is
    the main term, the product of the components [x] weighted with the
    double factorial [(2n-1)!!], minus the trace sum.  The trace sum is the
    pairing sum of the tensor Q with the weights [(2n-2k-1)!!], with [x] for
    [xa], [r0] for [ra0] and no alternating sign; the tensor Q is the same
    sum with the sign [(-1)^k].  The double factorial is the product of the
    integers of one parity, not the recursion of the code. *)
Theorem nth_derivative_general_form (n : Z) (indices : list string) :
  (3 ≤ n)%Z → length indices = Z.to_nat n →
  nth_derivative_1_over_r n indices = Some (BuilderSpec.build_nth_derivative n indices)
  ∧ MultipoleMoments.Q_tensor n (Some indices) = Some (BuilderSpec.build_Q n indices).
Proof.
  intros Hn Hlen.
  unfold BuilderSpec.build_nth_derivative, BuilderSpec.numerator, BuilderSpec.build_Q.
  rewrite <-!main_term_spec, <-!trace_sum_spec. split.
  - unfold nth_derivative_1_over_r. rewrite !decide_False by lia.
    unfold _recursive_derivative, _build_derivative_numerator.
    rewrite compute_all_derivative_traces_total by lia. cbn [mbind option_bind].
    by rewrite pow_minus_one_spec by lia.
  - apply Q_tensor_general; lia.
Qed.

Lemma nth_derivative_general_form_witness :
  nth_derivative_1_over_r 3 ["i"; "j"; "k"]
  = Some (BuilderSpec.build_nth_derivative 3 ["i"; "j"; "k"])
  ∧ MultipoleMoments.Q_tensor 3 (Some ["i"; "j"; "k"])
    = Some (BuilderSpec.build_Q 3 ["i"; "j"; "k"]).
Proof. apply (nth_derivative_general_form 3 ["i"; "j"; "k"]); [lia|reflexivity]. Defined.

(** C9 fails: neither builder checks its arguments. *)
Lemma builders_do_not_validate :
  MultipoleMoments.Q_tensor 0 (Some ["i"]) = Some (num 1)
  ∧ MultipoleMoments.Q_tensor (-1) (Some []) = Some (num 1)
  ∧ nth_derivative_1_over_r 0 ["i"] = Some (div (num 1) r0)
  ∧ nth_derivative_1_over_r 1 ["i"; "j"] = Some (derivative_1_over_r "i").
Proof. split_and!; vm_compute; reflexivity. Qed.

(** C9, as amended. A builder raises exactly when it reads an index that is
    not there: when [n >= 1] and there are fewer than [n] indices.  For
    [n <= 0], and for more than [n] indices, it returns an expression. *)
Theorem builders_raise_on_missing_index (n : Z) (indices : list string) :
  (MultipoleMoments.Q_tensor n (Some indices) = None
     ↔ (1 ≤ n)%Z ∧ length indices < Z.to_nat n)
  ∧ (nth_derivative_1_over_r n indices = None
     ↔ (1 ≤ n)%Z ∧ length indices < Z.to_nat n).
Proof.
  split.
  - unfold MultipoleMoments.Q_tensor. cbn [default from_option id].
    destruct (decide (n = 0%Z)) as [->|H0]; [split; [done|intros ?; lia]|].
    destruct (decide (n = 1%Z)) as [->|H1].
    { destruct indices as [|i indices]; simpl;
        [split; [intros _; lia|done]|split; [done|intros ?; lia]]. }
    destruct (decide (Z.to_nat n ≤ length indices)) as [Hle|Hgt].
    + rewrite Q_n_general_total by done. split; [done|intros ?; lia].
    + unfold MultipoleMoments._Q_n_general.
      rewrite compute_all_traces_None by lia. split; [intros _; lia|done].
  - unfold nth_derivative_1_over_r.
    destruct (decide (n = 0%Z)) as [->|H0]; [split; [done|intros ?; lia]|].
    destruct (decide (n = 1%Z)) as [->|H1].
    { destruct indices as [|i indices]; simpl;
        [split; [intros _; lia|done]|split; [done|intros ?; lia]]. }
    destruct (decide (n = 2%Z)) as [->|H2].
    { destruct indices as [|i [|j indices]]; simpl;
        (split; [intros ?; (lia || done)|intros ?; (done || lia)]). }
    unfold _recursive_derivative, _build_derivative_numerator.
    destruct (decide (Z.to_nat n ≤ length indices)) as [Hle|Hgt].
    + rewrite compute_all_derivative_traces_total by done. split; [done|intros ?; lia].
    + rewrite compute_all_derivative_traces_None by lia. split; [intros _; lia|done].
Qed.

End derivative.

(** ** Canonical operations and values *)

Local Open Scope Z_scope.

Lemma lex_compare_eq {A} (cmp : A → A → comparison) (l1 : list A) : ∀ l2,
  (∀ x y, x ∈ l1 → cmp x y = Eq → x = y) →
  lex_compare cmp l1 l2 = Eq → l1 = l2.
Proof.
  induction l1 as [|x l1 IH]; intros [|y l2] Hcmp Hl; simpl in Hl; try done.
  destruct (cmp x y) eqn:Hxy; try done.
  f_equal.
  - apply Hcmp; [by left|done].
  - apply IH; [|done]. intros; apply Hcmp; [by right|done].
Qed.

Lemma pair_compare_eq {A} (cmp : A → A → comparison) (x y : A * Z) :
  (cmp x.1 y.1 = Eq → x.1 = y.1) → pair_compare cmp x y = Eq → x = y.
Proof.
  destruct x as [a e], y as [b e']. unfold pair_compare. simpl. intros Hcmp.
  destruct (cmp a b) eqn:Hab; try done. intros ->%Z.compare_eq. by rewrite Hcmp.
Qed.

Lemma compare_atom_eq_sized (size : nat) : ∀ a b,
  (atom_size a < size)%nat → compare_atom a b = Eq → a = b.
Proof.
  induction size as [|size IH]; intros a b Hsize; [lia|].
  destruct a as [s|f xs|p], b as [t|g ys|q]; simpl; try done.
  - by intros ->%String.compare_eq_iff.
  - destruct (String.compare f g) eqn:Hfg; try done.
    apply String.compare_eq_iff in Hfg as ->.
    intros Hl. f_equal. apply (lex_compare_eq String.compare); [|done].
    intros x y _. apply String.compare_eq_iff.
  - intros Hl. f_equal. revert Hl. apply lex_compare_eq.
    intros [m c] [m' c'] Hin. apply pair_compare_eq. simpl.
    apply lex_compare_eq. intros [a e] [b e'] Ha. apply pair_compare_eq. simpl.
    apply IH. pose proof (atom_size_elem p m c a e Hin Ha). lia.
Qed.

Lemma compare_atom_eq a b : compare_atom a b = Eq → a = b.
Proof. apply (compare_atom_eq_sized (S (atom_size a))). lia. Qed.

Lemma compare_monomial_eq m m' : compare_monomial m m' = Eq → m = m'.
Proof.
  apply lex_compare_eq. intros x y _. apply pair_compare_eq, compare_atom_eq.
Qed.

Section eval.
Context (ρ : interpretation).

Lemma eval_atom_sum p : eval_atom ρ (ASum p) = eval ρ p.
Proof. reflexivity. Qed.

Lemma eval_cons m c e : eval ρ ((m, c) :: e) = c * eval_monomial ρ m + eval ρ e.
Proof. reflexivity. Qed.

Lemma eval_monomial_cons a k m :
  eval_monomial ρ ((a, k) :: m) = eval_atom ρ a ^ k * eval_monomial ρ m.
Proof. reflexivity. Qed.

Lemma eval_insert_term m c e :
  eval ρ (insert_term m c e) = c * eval_monomial ρ m + eval ρ e.
Proof.
  induction e as [|[m' c'] e IH]; [done|]. simpl insert_term.
  destruct (compare_monomial m m') eqn:Hc.
  - apply compare_monomial_eq in Hc as <-.
    case_decide; rewrite !eval_cons; nia.
  - by rewrite !eval_cons.
  - rewrite !eval_cons, IH. lia.
Qed.

Lemma eval_add p q : eval ρ (add p q) = eval ρ p + eval ρ q.
Proof.
  unfold add. induction p as [|[m c] p IH]; [done|].
  simpl foldr. rewrite eval_insert_term, IH, eval_cons. lia.
Qed.

Lemma eval_insert_factor a k m :
  0 ≤ k → Forall (λ f : atom * Z, 0 ≤ f.2) m →
  eval_monomial ρ (insert_factor a k m) = eval_atom ρ a ^ k * eval_monomial ρ m.
Proof.
  intros Hk. induction 1 as [|[b k'] m Hb Hm IH]; [done|]. simpl in Hb.
  simpl insert_factor. destruct (compare_atom a b) eqn:Hc.
  - apply compare_atom_eq in Hc as <-.
    case_decide as Hz; rewrite !eval_monomial_cons.
    + assert (k = 0 ∧ k' = 0) as [-> ->] by lia. rewrite Z.pow_0_r. lia.
    + rewrite Z.pow_add_r by lia. lia.
  - by rewrite !eval_monomial_cons.
  - rewrite !eval_monomial_cons, IH. lia.
Qed.

Lemma insert_factor_nonneg a k m :
  0 ≤ k → Forall (λ f : atom * Z, 0 ≤ f.2) m →
  Forall (λ f : atom * Z, 0 ≤ f.2) (insert_factor a k m).
Proof.
  intros Hk. induction 1 as [|[b k'] m Hb Hm IH].
  { by apply Forall_singleton. }
  simpl in Hb. simpl insert_factor. destruct (compare_atom a b).
  - case_decide; [done|]. constructor; [simpl; lia|done].
  - constructor; [done|by constructor].
  - by constructor.
Qed.

Lemma mono_mul_nonneg m1 m2 :
  Forall (λ f : atom * Z, 0 ≤ f.2) m1 → Forall (λ f : atom * Z, 0 ≤ f.2) m2 →
  Forall (λ f : atom * Z, 0 ≤ f.2) (mono_mul m1 m2).
Proof.
  intros H1 H2. unfold mono_mul. induction H1 as [|[a k] m1 Ha H1 IH]; [done|].
  simpl foldr. by apply insert_factor_nonneg.
Qed.

Lemma eval_mono_mul m1 m2 :
  Forall (λ f : atom * Z, 0 ≤ f.2) m1 → Forall (λ f : atom * Z, 0 ≤ f.2) m2 →
  eval_monomial ρ (mono_mul m1 m2) = eval_monomial ρ m1 * eval_monomial ρ m2.
Proof.
  intros H1 H2. unfold mono_mul. induction H1 as [|[a k] m1 Ha H1 IH]; [simpl; lia|].
  simpl foldr. rewrite eval_insert_factor; [|done|].
  - rewrite IH, eval_monomial_cons. lia.
  - by apply mono_mul_nonneg.
Qed.

Lemma eval_as_term p :
  (as_term p).2 * eval_monomial ρ (as_term p).1 = eval ρ p.
Proof.
  destruct p as [|[m c] [|t p]]; cbn [as_term fst snd].
  - simpl. lia.
  - rewrite eval_cons. simpl. lia.
  - rewrite eval_monomial_cons, eval_atom_sum, Z.pow_1_r.
    change (eval_monomial ρ []) with 1. lia.
Qed.

Lemma as_term_nonneg p : nonneg p → Forall (λ f : atom * Z, 0 ≤ f.2) (as_term p).1.
Proof.
  intros Hp. destruct p as [|[m c] [|t p]]; simpl.
  - by repeat constructor.
  - unfold nonneg in Hp. rewrite Forall_singleton in Hp. exact Hp.
  - by repeat constructor.
Qed.

Lemma eval_of_term t : eval ρ (of_term t) = t.2 * eval_monomial ρ t.1.
Proof.
  assert (eval ρ [t] = t.2 * eval_monomial ρ t.1) as Hdef.
  { destruct t. rewrite eval_cons. simpl. lia. }
  destruct t as [[|[[s|f args|p] k] rest] c]; try exact Hdef.
  destruct k as [|[| |]|]; try exact Hdef.
  destruct rest; [|exact Hdef].
  destruct c as [|[| |]|]; try exact Hdef.
  cbn [of_term fst snd]. rewrite eval_monomial_cons, eval_atom_sum, Z.pow_1_r.
  change (eval_monomial ρ []) with 1. lia.
Qed.

(** The product of two expressions evaluates to the product of the values
    when no top-level exponent is negative. *)
Lemma eval_mul p q : nonneg p → nonneg q → eval ρ (mul p q) = eval ρ p * eval ρ q.
Proof.
  intros Hp Hq. unfold mul.
  destruct p as [|tp p]; [done|]. destruct q as [|tq q]; [simpl; lia|].
  rewrite eval_of_term. cbn [fst snd].
  rewrite eval_mono_mul by (by apply as_term_nonneg).
  rewrite <-(eval_as_term (tp :: p)), <-(eval_as_term (tq :: q)). lia.
Qed.

Lemma flat_nonneg p : flat p → nonneg p.
Proof.
  intros [_ Hp]. eapply Forall_impl; [exact Hp|]. intros t Ht.
  eapply Forall_impl; [exact Ht|]. by intros f [? _].
Qed.

Lemma insert_factor_flat a k m :
  0 ≤ k → is_sum a = false →
  Forall (λ f : atom * Z, 0 ≤ f.2 ∧ is_sum f.1 = false) m →
  Forall (λ f : atom * Z, 0 ≤ f.2 ∧ is_sum f.1 = false) (insert_factor a k m).
Proof.
  intros Hk Ha. induction 1 as [|[b k'] m Hb Hm IH].
  { apply Forall_singleton. by split. }
  simpl in Hb. simpl insert_factor. destruct (compare_atom a b).
  - case_decide; [done|]. constructor; [simpl; split; [lia|apply Hb]|done].
  - constructor; [by split|by constructor].
  - by constructor.
Qed.

Lemma of_term_flat m c :
  Forall (λ f : atom * Z, 0 ≤ f.2 ∧ is_sum f.1 = false) m → of_term (m, c) = [(m, c)].
Proof.
  intros Hm. destruct m as [|[[s|f args|p] k] m]; try done.
  rewrite Forall_cons in Hm. by destruct Hm as [[_ Hs] _].
Qed.

Lemma mul_flat p q : flat p → flat q → flat (mul p q).
Proof.
  intros [Hlp Hp] [Hlq Hq]. unfold mul.
  destruct p as [|[m1 c1] [|??]]; [by split|..]; [|simpl in Hlp; lia].
  destruct q as [|[m2 c2] [|??]]; [by split|..]; [|simpl in Hlq; lia].
  rewrite Forall_singleton in Hp, Hq. cbn [as_term fst snd] in *.
  assert (Forall (λ f : atom * Z, 0 ≤ f.2 ∧ is_sum f.1 = false) (mono_mul m1 m2)) as Hm.
  { unfold mono_mul. clear Hlp Hlq. induction Hp as [|[a k] m1 [Hk Ha] Hp IH]; [done|].
    simpl foldr. by apply insert_factor_flat. }
  rewrite of_term_flat by done. split; [done|]. by apply Forall_singleton.
Qed.

Lemma add_nonneg p q : nonneg p → nonneg q → nonneg (add p q).
Proof.
  intros Hp Hq. unfold add. induction Hp as [|[m c] p Hm Hp IH]; [done|].
  simpl foldr. revert IH. generalize (foldr (λ t acc, insert_term t.1 t.2 acc) q p).
  intros e He. induction He as [|[m' c'] e Hm' He IH]; [by repeat constructor|].
  simpl insert_term. destruct (compare_monomial m m').
  - case_decide; [done|]. by constructor.
  - by repeat constructor.
  - by constructor.
Qed.

Lemma num_flat c : flat (num c).
Proof. unfold num. case_decide; split; simpl; by repeat constructor. Qed.

Lemma call_flat f args : flat (call f args).
Proof. split; [done|]. by repeat constructor. Qed.

Lemma eval_num c : eval ρ (num c) = c.
Proof. unfold num. case_decide; simpl; lia. Qed.

Lemma eval_call f args : eval ρ (call f args) = fn_value ρ f args.
Proof. simpl. rewrite Z.pow_1_r. lia. Qed.

Lemma pow_symbol_flat s k : 0 ≤ k → flat (pow (symbol s) k).
Proof.
  intros Hk. unfold pow. case_decide; [apply num_flat|].
  case_decide; [split; [done|by repeat constructor]|].
  unfold symbol. rewrite decide_True by lia. split; [done|].
  repeat constructor; simpl; lia.
Qed.

Lemma eval_pow_symbol s k :
  0 ≤ k → eval ρ (pow (symbol s) k) = sym_value ρ s ^ k.
Proof.
  intros Hk. unfold pow. case_decide as H0; [subst; simpl; lia|].
  case_decide as H1; [subst; simpl; lia|].
  unfold symbol. rewrite decide_True by lia. simpl.
  rewrite Z.pow_1_l by lia. replace (1 * k) with k by lia. lia.
Qed.

Lemma eval_foldl_add {A} (g : A → Expression) (l : list A) e0 :
  eval ρ (foldl (λ acc x, add acc (g x)) e0 l)
  = eval ρ e0 + sumZ ((λ x, eval ρ (g x)) <$> l).
Proof.
  revert e0. induction l as [|x l IH]; intros e0; [simpl; unfold sumZ; simpl; lia|].
  simpl foldl. rewrite IH, eval_add, fmap_cons. unfold sumZ. simpl. lia.
Qed.


Lemma foldl_mul_flat {A} (g : A → Expression) (l : list A) e0 :
  flat e0 → (∀ x, flat (g x)) → flat (foldl (λ acc x, mul acc (g x)) e0 l).
Proof.
  intros H0 Hg. revert e0 H0. induction l as [|x l IH]; intros e0 H0; [done|].
  simpl. apply IH. by apply mul_flat.
Qed.

Lemma eval_foldl_mul {A} (g : A → Expression) (l : list A) e0 :
  flat e0 → (∀ x, flat (g x)) →
  eval ρ (foldl (λ acc x, mul acc (g x)) e0 l)
  = eval ρ e0 * prodZ ((λ x, eval ρ (g x)) <$> l).
Proof.
  intros H0 Hg. revert e0 H0.
  induction l as [|x l IH]; intros e0 H0; [simpl; unfold prodZ; simpl; lia|].
  simpl foldl. rewrite IH by (by apply mul_flat).
  rewrite eval_mul by (by apply flat_nonneg). rewrite fmap_cons.
  unfold prodZ. simpl. lia.
Qed.

End eval.
Local Close Scope Z_scope.

(** ** The value of the pairing sum *)

Global Instance sumZ_Permutation : Proper ((≡ₚ) ==> (=)) sumZ.
Proof.
  intros l1 l2 Hl. unfold sumZ.
  induction Hl; simpl; lia.
Qed.

Global Instance prodZ_Permutation : Proper ((≡ₚ) ==> (=)) prodZ.
Proof.
  intros l1 l2 Hl. unfold prodZ.
  induction Hl; simpl; lia.
Qed.

Lemma foldl_skip {A B} (P : B → Prop) `{∀ x, Decision (P x)} (g : A → B → A) (l : list B) a0 :
  foldl (λ a x, if decide (P x) then a else g a x) a0 l
  = foldl g a0 (filter (λ x, ¬ P x) l).
Proof.
  revert a0. induction l as [|x l IH]; intros a0; [done|].
  simpl foldl. rewrite filter_cons. destruct (decide (P x)) as [HP|HP].
  - rewrite decide_False by (intros Hn; by apply Hn). apply IH.
  - rewrite decide_True by done. simpl. apply IH.
Qed.

Section value.
Context (ρ : interpretation).






End value.

(** ** Renaming the positions of a pairing *)

Lemma tuple_sorted_cases a b :
  (a ≤ b ∧ tuple_sorted (a, b) = (a, b)) ∨ (b < a ∧ tuple_sorted (a, b) = (b, a)).
Proof.
  unfold tuple_sorted. simpl. case_decide; [left|right]; (split; [lia|done]).
Qed.

Lemma ascending_Permutation p q : p ≡ₚ q → ascending p → ascending q.
Proof. intros Hpq. unfold ascending. by rewrite Hpq. Qed.

Lemma normalized_Permutation p : ascending p → normalized p ≡ₚ p.
Proof.
  intros Hp. unfold normalized. rewrite tuple_sorted_ascending by done.
  apply merge_sort_Permutation.
Qed.

Lemma normalized_proper p q : ascending p → p ≡ₚ q → normalized p = normalized q.
Proof.
  intros Hp Hpq. apply normalized_eq_iff; [done| |done].
  by eapply ascending_Permutation.
Qed.

Lemma normalized_ascending p : ascending p → ascending (normalized p).
Proof.
  intros Hp. eapply ascending_Permutation; [|exact Hp].
  symmetry. by apply normalized_Permutation.
Qed.

Lemma normalized_idem p : ascending p → normalized (normalized p) = normalized p.
Proof.
  intros Hp. apply normalized_proper; [by apply normalized_ascending|].
  by apply normalized_Permutation.
Qed.

Lemma canonical_pairings n k s : s ∈ normalized <$> pairings n k ↔ canonical n k s.
Proof.
  rewrite list_elem_of_fmap. split.
  - intros (P & -> & HP%pairings_is_pairing).
    pose proof (is_pairing_ascending _ _ _ HP) as Ha. split.
    + eapply is_pairing_Permutation; [symmetry; by apply normalized_Permutation|done].
    + by apply normalized_idem.
  - intros [Hs Hn]. destruct (pairings_complete k n s Hs) as (q & Hq & Hqs).
    exists q. split; [|done]. rewrite <-Hn. symmetry. apply normalized_proper; [|done].
    by eapply is_pairing_ascending, pairings_is_pairing.
Qed.

Lemma pairing_value_Permutation ρ vec n indices P Q :
  P ≡ₚ Q → pairing_value ρ vec n indices P = pairing_value ρ vec n indices Q.
Proof.
  intros H. unfold pairing_value. f_equal.
  - by rewrite H.
  - do 2 f_equal. apply list_filter_iff. intros pos.
    by rewrite (positions_Permutation _ _ H).
Qed.

Section renaming.
Context (σ : nat → nat) (n : nat).
Hypothesis renaming_involutive : ∀ p, σ (σ p) = p.
Hypothesis renaming_bounded : ∀ p, p < n → σ p < n.

Lemma renaming_inj a b : σ a = σ b → a = b.
Proof.
  intros H. rewrite <-(renaming_involutive a), H. apply renaming_involutive.
Qed.

Lemma act_cons a b P : act σ ((a, b) :: P) = tuple_sorted (σ a, σ b) :: act σ P.
Proof. done. Qed.

Lemma positions_act P : positions (act σ P) ≡ₚ σ <$> positions P.
Proof.
  induction P as [|[a b] P IH]; [done|].
  rewrite act_cons, positions_cons, !fmap_cons.
  destruct (tuple_sorted_cases (σ a) (σ b)) as [[_ ->]|[_ ->]];
    rewrite positions_cons, IH; [done|apply perm_swap].
Qed.

Lemma elem_of_positions_act P x : x ∈ positions (act σ P) ↔ σ x ∈ positions P.
Proof.
  rewrite positions_act, list_elem_of_fmap. split.
  - intros (y & -> & Hy). by rewrite renaming_involutive.
  - intros Hx. exists (σ x). by rewrite renaming_involutive.
Qed.

Lemma is_pairing_act k P : is_pairing n k P → is_pairing n k (act σ P).
Proof.
  intros (Hl & Hr & Hnd). split_and!.
  - unfold act. by rewrite length_fmap.
  - unfold act. apply Forall_fmap. eapply Forall_impl; [exact Hr|].
    intros [a b] [Hab Hb]. simpl in *.
    assert (σ a ≠ σ b) by (intros ?%renaming_inj; lia).
    pose proof (renaming_bounded a). pose proof (renaming_bounded b).
    destruct (tuple_sorted_cases (σ a) (σ b)) as [[? ->]|[? ->]]; simpl; lia.
  - rewrite positions_act. apply NoDup_fmap_2; [|done].
    intros ??. apply renaming_inj.
Qed.

Lemma act_act P : ascending P → act σ (act σ P) = P.
Proof.
  intros HP. unfold act. rewrite <-list_fmap_compose.
  rewrite <-(list_fmap_id P) at 2.
  apply Forall_fmap_ext_1. eapply Forall_impl; [exact HP|].
  intros [a b] Hab. simpl in *.
  destruct (tuple_sorted_cases (σ a) (σ b)) as [[? ->]|[? ->]]; simpl;
    rewrite !renaming_involutive; unfold tuple_sorted; simpl;
    [rewrite decide_True by lia|rewrite decide_False by lia]; done.
Qed.

Lemma act_Permutation P Q : P ≡ₚ Q → act σ P ≡ₚ act σ Q.
Proof. intros H. unfold act. by rewrite H. Qed.

Lemma pairing_value_act ρ vec indices indices' k P :
  delta_symmetric ρ → (∀ p, indices' !!! p = indices !!! σ p) → is_pairing n k P →
  pairing_value ρ vec n indices' P = pairing_value ρ vec n indices (act σ P).
Proof.
  intros Hsym Hidx HP. unfold pairing_value. f_equal.
  - unfold act. rewrite <-list_fmap_compose. f_equal.
    apply list_fmap_ext. intros _ [a b] _. simpl. rewrite !Hidx.
    destruct (tuple_sorted_cases (σ a) (σ b)) as [[_ ->]|[_ ->]]; simpl;
      [done|apply Hsym].
  - trans (prodZ ((λ pos, fn_value ρ vec [indices !!! pos])
                    <$> (σ <$> filter (λ pos, pos ∉ positions P) (seq 0 n)))).
    { rewrite <-list_fmap_compose. f_equal.
      apply list_fmap_ext. intros _ pos _. simpl. by rewrite Hidx. }
    apply prodZ_Permutation, fmap_Permutation, NoDup_Permutation.
    + apply NoDup_fmap_2; [intros ??; apply renaming_inj|].
      apply NoDup_filter, NoDup_seq.
    + apply NoDup_filter, NoDup_seq.
    + intros pos. rewrite list_elem_of_fmap, list_elem_of_filter,
        elem_of_positions_act, elem_of_seq. split.
      * intros (y & -> & [Hy Hn]%list_elem_of_filter). apply elem_of_seq in Hn.
        rewrite renaming_involutive. split; [done|].
        pose proof (renaming_bounded y). lia.
      * intros [Hx Hn]. exists (σ pos).
        rewrite renaming_involutive, list_elem_of_filter, elem_of_seq.
        split_and!; [done|done|lia|]. pose proof (renaming_bounded pos). lia.
Qed.

Lemma canonical_act k s : canonical n k s → canonical n k (normalized (act σ s)).
Proof.
  intros [Hs _]. pose proof (is_pairing_act k s Hs) as Ha.
  pose proof (is_pairing_ascending _ _ _ Ha). split.
  - eapply is_pairing_Permutation; [symmetry; by apply normalized_Permutation|done].
  - by apply normalized_idem.
Qed.

Lemma normalized_act_act k s :
  canonical n k s → normalized (act σ (normalized (act σ s))) = s.
Proof.
  intros [Hs Hn].
  pose proof (is_pairing_act k s Hs) as Ha.
  pose proof (is_pairing_ascending _ _ _ Ha) as Haa.
  pose proof (is_pairing_ascending _ _ _ Hs) as Hsa.
  etrans; [|exact Hn].
  assert (is_pairing n k (act σ (normalized (act σ s)))) as Hb.
  { apply is_pairing_act. eapply is_pairing_Permutation; [|exact Ha].
    symmetry. by apply normalized_Permutation. }
  apply normalized_proper; [by eapply is_pairing_ascending|].
  etrans; [apply act_Permutation, normalized_Permutation, Haa|].
  by rewrite act_act.
Qed.

Lemma normalized_act_pairings k :
  normalized <$> (act σ <$> pairings n k) ≡ₚ normalized <$> pairings n k.
Proof.
  assert (normalized <$> (act σ <$> pairings n k)
          = (λ s, normalized (act σ s)) <$> (normalized <$> pairings n k)) as ->.
  { rewrite <-!list_fmap_compose. apply Forall_fmap_ext_1, Forall_forall.
    intros P HP%pairings_is_pairing. simpl.
    pose proof (is_pairing_ascending _ _ _ HP) as Ha.
    apply normalized_proper; [by eapply is_pairing_ascending, is_pairing_act|].
    apply act_Permutation. symmetry. by apply normalized_Permutation. }
  apply NoDup_Permutation.
  - apply NoDup_fmap_2_strong; [|apply pairings_NoDup].
    intros s t Hs%canonical_pairings Ht%canonical_pairings Heq.
    etrans; [symmetry; apply (normalized_act_act k s Hs)|].
    etrans; [|apply (normalized_act_act k t Ht)].
    by rewrite Heq.
  - apply pairings_NoDup.
  - intros s. rewrite list_elem_of_fmap. setoid_rewrite canonical_pairings. split.
    + intros (t & -> & Ht). by apply canonical_act.
    + intros Hs. exists (normalized (act σ s)). split; [|by apply canonical_act].
      symmetry. by apply (normalized_act_act k).
Qed.

Lemma sum_pairing_value_act ρ vec indices k :
  sumZ (pairing_value ρ vec n indices <$> (act σ <$> pairings n k))
  = sumZ (pairing_value ρ vec n indices <$> pairings n k).
Proof.
  assert (∀ L, Forall ascending L →
    pairing_value ρ vec n indices <$> L
    = pairing_value ρ vec n indices <$> (normalized <$> L)) as Hn.
  { intros L HL. rewrite <-list_fmap_compose. apply Forall_fmap_ext_1.
    eapply Forall_impl; [exact HL|]. intros P HP. simpl.
    apply pairing_value_Permutation. symmetry. by apply normalized_Permutation. }
  rewrite (Hn (act σ <$> pairings n k)), (Hn (pairings n k)).
  - apply sumZ_Permutation, fmap_Permutation, normalized_act_pairings.
  - apply Forall_forall. intros P HP%pairings_is_pairing.
    by eapply is_pairing_ascending.
  - apply Forall_fmap, Forall_forall. intros P HP%pairings_is_pairing. simpl.
    by eapply is_pairing_ascending, is_pairing_act.
Qed.

Lemma sum_pairing_value_renaming ρ vec indices indices' k :
  delta_symmetric ρ → (∀ p, indices' !!! p = indices !!! σ p) →
  sumZ (pairing_value ρ vec n indices' <$> pairings n k)
  = sumZ (pairing_value ρ vec n indices <$> pairings n k).
Proof.
  intros Hsym Hidx. etrans; [|apply sum_pairing_value_act]. f_equal.
  rewrite <-list_fmap_compose.
  apply Forall_fmap_ext_1, Forall_forall. intros P HP%pairings_is_pairing.
  by apply (pairing_value_act _ _ _ _ k).
Qed.

End renaming.

Lemma swap_at_involutive a p : swap_at a (swap_at a p) = p.
Proof. unfold swap_at. repeat case_decide; lia. Qed.

Lemma swap_at_bounded a n p : S a < n → p < n → swap_at a p < n.
Proof. unfold swap_at. repeat case_decide; lia. Qed.

Lemma lookup_transposition {A} (l1 l2 : list A) x y p :
  (l1 ++ x :: y :: l2) !! p = (l1 ++ y :: x :: l2) !! swap_at (length l1) p.
Proof.
  revert p. induction l1 as [|z l1 IH]; intros p.
  - destruct p as [|[|p]]; done.
  - destruct p as [|p]; [done|]. simpl. rewrite IH.
    unfold swap_at. repeat case_decide; (done || lia).
Qed.

Lemma sum_pairing_value_Permutation ρ vec (indices indices' : list string) :
  delta_symmetric ρ → indices ≡ₚ indices' →
  ∀ k, sumZ (pairing_value ρ vec (length indices) indices
               <$> pairings (length indices) k)
       = sumZ (pairing_value ρ vec (length indices') indices'
                 <$> pairings (length indices') k).
Proof.
  intros Hsym Hp. induction Hp using Permutation.Permutation_ind_transp; intros k.
  - done.
  - rewrite !length_app. simpl.
    apply (sum_pairing_value_renaming (swap_at (length l1))).
    + apply swap_at_involutive.
    + intros p. apply swap_at_bounded. lia.
    + done.
    + intros p. rewrite !list_lookup_total_alt. by rewrite lookup_transposition.
  - by rewrite IHHp1.
Qed.

(** ** Symmetry of the tensor *)

Section symmetry.
Import MultipoleMoments.

Lemma kronecker_symmetric : delta_symmetric kronecker.
Proof. intros a b. simpl. repeat case_decide; congruence. Qed.




End symmetry.

(** ** Factorials *)

Lemma foldl_factorial (m : nat) (a : Z) :
  foldl (λ result i, (result * i)%Z) a (seqZ 1 (Z.of_nat m)) = (a * Z.of_nat (fact m))%Z.
Proof.
  induction m as [|m IH]; [simpl; lia|].
  rewrite Nat2Z.inj_succ, <-Z.add_1_r, seqZ_app by lia.
  rewrite foldl_app, IH.
  change (seqZ (1 + Z.of_nat m) 1) with [(Z.of_nat 0 + (1 + Z.of_nat m))%Z].
  cbn [foldl]. rewrite (Nat2Z.inj_mul (S m) (fact m) : Z.of_nat (fact (S m)) = _). lia.
Qed.

Lemma double_factorial_nat_step (m : nat) :
  (MultipoleMoments.double_factorial_nat (S m) * MultipoleMoments.double_factorial_nat m
   = Z.of_nat (fact (S m)))%Z.
Proof.
  induction m as [|m IH]; [done|].
  change (MultipoleMoments.double_factorial_nat (S (S m)))
    with (Z.of_nat (S (S m)) * MultipoleMoments.double_factorial_nat m)%Z.
  rewrite (Nat2Z.inj_mul (S (S m)) (fact (S m)) : Z.of_nat (fact (S (S m))) = _).
  rewrite <-IH. lia.
Qed.

Lemma double_factorial_nat_pos (m : nat) :
  (0 < MultipoleMoments.double_factorial_nat m)%Z.
Proof.
  induction (lt_wf m) as [m _ IH]. destruct m as [|[|m]]; [done|done|].
  change (MultipoleMoments.double_factorial_nat (S (S m)))
    with (Z.of_nat (S (S m)) * MultipoleMoments.double_factorial_nat m)%Z.
  pose proof (IH m ltac:(lia)). lia.
Qed.

Section factorials.
Import MultipoleMoments.

Lemma factorial_eq (n : Z) : _factorial n = Z.of_nat (fact (Z.to_nat n)).
Proof.
  unfold _factorial. case_decide as Hn.
  - replace (Z.to_nat n) with 0 by lia. done.
  - rewrite <-(Z2Nat.id n) at 1 by lia. rewrite foldl_factorial. lia.
Qed.

(** X1. [_factorial(n)] is the factorial of [n] for [n >= 0] and 1 for a
    negative [n]. *)
Theorem factorial_closed_form (n : Z) : _factorial n = Z.of_nat (fact (Z.to_nat n)).
Proof. apply factorial_eq. Qed.

(** X2. For every integer [n], [_double_factorial(n)] times
    [_double_factorial(n - 1)] is [_factorial(n)]; both are 1 for [n <= 0]. *)
Theorem double_factorial_factorial (n : Z) :
  (_double_factorial n * _double_factorial (n - 1))%Z = _factorial n.
Proof.
  rewrite factorial_eq. unfold _double_factorial.
  destruct (decide (n ≤ 0)%Z) as [Hn|Hn].
  - replace (Z.to_nat n) with 0 by lia. replace (Z.to_nat (n - 1)) with 0 by lia. done.
  - replace (Z.to_nat n) with (S (Z.to_nat (n - 1))) by lia.
    apply double_factorial_nat_step.
Qed.

End factorials.

(** X23. For every integer [m], both copies of [_double_factorial] return
    the product of the integers of the parity of [m] from 1 to [m], and 1
    for [m <= 0]. *)
Theorem double_factorial_parity_product (m : Z) :
  MultipoleMoments._double_factorial m
  = (if decide (m ≤ 0)%Z then 1%Z
     else foldr Z.mul 1%Z (filter (λ j, Z.even j = Z.even m) (seqZ 1 m)))
  ∧ DerivativeEngine._double_factorial m = MultipoleMoments._double_factorial m.
Proof. split; [apply double_factorial_spec|reflexivity]. Qed.

(** ** The hand-written cases and the general formulas *)

Lemma double_factorial_nat_even (m : nat) :
  MultipoleMoments.double_factorial_nat (2 * m) = (2 ^ Z.of_nat m * Z.of_nat (fact m))%Z.
Proof.
  induction m as [|m IH]; [done|].
  replace (2 * S m) with (S (S (2 * m))) by lia.
  change (MultipoleMoments.double_factorial_nat (S (S (2 * m))))
    with (Z.of_nat (S (S (2 * m))) * MultipoleMoments.double_factorial_nat (2 * m))%Z.
  rewrite IH, (Nat2Z.inj_succ m), Z.pow_succ_r by lia.
  rewrite (Nat2Z.inj_mul (S m) (fact m) : Z.of_nat (fact (S m)) = _). lia.
Qed.

(** X3. The generator returns [(2m-1)!!] complete pairings of [2m]
    positions: the number it returns for [n = 2m] and [k = m] is
    [_double_factorial(2m - 1)]. *)
Theorem complete_pairings_count (m : nat) :
  ∃ l, MultipoleMoments._generate_k_pairings (2 * m) m = Some l
       ∧ Z.of_nat (length l) = MultipoleMoments._double_factorial (2 * Z.of_nat m - 1).
Proof.
  exists (pairings (2 * m) m). split; [apply generate_pairings_eq|].
  pose proof (pairings_count m (2 * m) ltac:(lia)) as Hc.
  replace (2 * m - 2 * m) with 0 in Hc by lia.
  apply (f_equal Z.of_nat) in Hc. rewrite !Nat2Z.inj_mul, Nat2Z.inj_pow in Hc.
  change (Z.of_nat (fact 0)) with 1%Z in Hc. change (Z.of_nat 2) with 2%Z in Hc.
  unfold MultipoleMoments._double_factorial.
  destruct m as [|m]; [done|].
  pose proof (double_factorial_nat_step (Z.to_nat (2 * Z.of_nat (S m) - 1))) as Hs.
  replace (S (Z.to_nat (2 * Z.of_nat (S m) - 1))) with (2 * S m) in Hs by lia.
  rewrite double_factorial_nat_even in Hs. rewrite <-Hs in Hc.
  assert (0 < 2 ^ Z.of_nat (S m) * Z.of_nat (fact (S m)))%Z as Hpos.
  { pose proof (lt_O_fact (S m)). apply Z.mul_pos_pos; [apply Z.pow_pos_nonneg|]; lia. }
  apply (Z.mul_cancel_r _ _ (2 ^ Z.of_nat (S m) * Z.of_nat (fact (S m)))%Z); lia.
Qed.

Section dispatch.
Import MultipoleMoments.

(** X4. On a list of exactly [n] labels the edge cases of [Q_tensor] are
    redundant: [Q_tensor] returns what the general formula [_Q_n_general]
    returns, for every integer [n]. *)
Theorem Q_tensor_is_general (n : Z) (indices : list string) :
  length indices = Z.to_nat n → Q_tensor n (Some indices) = _Q_n_general n indices.
Proof.
  intros Hlen. unfold Q_tensor. cbn [default from_option id].
  destruct (decide (n = 0%Z)) as [->|H0].
  { destruct indices; [|done]. vm_compute. reflexivity. }
  destruct (decide (n = 1%Z)) as [->|H1]; [|done].
  destruct indices as [|i [|??]]; [done| |done].
  rewrite Q_n_general_total by (simpl; lia). cbn [lookup list_lookup mbind option_bind].
  reflexivity.
Qed.

Lemma Q_tensor_is_general_witness :
  Q_tensor 1 (Some ["i"]) = _Q_n_general 1 ["i"].
Proof. apply (Q_tensor_is_general 1 ["i"]). reflexivity. Defined.

End dispatch.

Section derivative_dispatch.
Import DerivativeEngine.

Lemma recursive_derivative_total n indices :
  Z.to_nat n ≤ length indices →
  _recursive_derivative n indices
  = Some (div (mul (num (pow_minus_one n))
                   (sub (main_term x n indices) (trace_sum x r0 false n indices)))
              (pow r0 (2 * n + 1))).
Proof.
  intros Hlen. unfold _recursive_derivative, _build_derivative_numerator.
  by rewrite compute_all_derivative_traces_total by lia.
Qed.

Lemma recursive_derivative_two i j :
  _recursive_derivative 2 [i; j] = Some (second_derivative_1_over_r i j).
Proof.
  rewrite recursive_derivative_total by (simpl; lia). f_equal.
  unfold second_derivative_1_over_r. unfold_builder.
  destruct (decide (i = j)) as [->|Hij].
  - eval_expression. reflexivity.
  - order_labels i j Hij; eval_expression; reflexivity.
Qed.

(** X5. On a list of exactly [n] labels the hand-written cases of
    [nth_derivative_1_over_r] for the orders 0, 1 and 2 are redundant: the
    function returns what the general formula [_recursive_derivative]
    returns, for every integer [n]. *)
Theorem nth_derivative_is_recursive (n : Z) (indices : list string) :
  length indices = Z.to_nat n →
  nth_derivative_1_over_r n indices = _recursive_derivative n indices.
Proof.
  intros Hlen. unfold nth_derivative_1_over_r.
  destruct (decide (n = 0%Z)) as [->|H0].
  { destruct indices; [|done]. vm_compute. reflexivity. }
  destruct (decide (n = 1%Z)) as [->|H1].
  { destruct indices as [|i [|??]]; [done| |done].
    rewrite recursive_derivative_total by (simpl; lia).
    cbn [lookup list_lookup mbind option_bind]. reflexivity. }
  destruct (decide (n = 2%Z)) as [->|H2]; [|done].
  destruct indices as [|i [|j [|??]]]; [done|done| |done].
  cbn [lookup list_lookup mbind option_bind]. by rewrite recursive_derivative_two.
Qed.

Lemma nth_derivative_is_recursive_witness :
  nth_derivative_1_over_r 2 ["i"; "j"] = _recursive_derivative 2 ["i"; "j"].
Proof. apply (nth_derivative_is_recursive 2 ["i"; "j"]). reflexivity. Defined.

End derivative_dispatch.

(** ** Contraction: the second derivative and the rule catalogue *)

Section laplacian.
Import DerivativeEngine.

(** X6. The trace of the second derivative of 1/r contracts to zero: for
    every label [i], [apply_derivative_with_contraction(2, [i, i])] is the
    zero expression. *)
Theorem second_derivative_trace_zero (i : string) :
  apply_derivative_with_contraction 2 [i; i] = Some (num 0).
Proof.
  unfold apply_derivative_with_contraction, nth_derivative_1_over_r.
  cbn [decide Z.eq_dec lookup list_lookup mbind option_bind].
  rewrite !decide_False by done. rewrite decide_True by done.
  cbn [lookup list_lookup mbind option_bind]. f_equal.
  unfold second_derivative_1_over_r. unfold_builder.
  eval_expression. eval_contract. reflexivity.
Qed.

End laplacian.

Section rules.
Import TensorContraction.

Ltac contract_product :=
  unfold_builder; eval_expression; eval_contract; eval_expression; reflexivity.

Lemma contract_delta_second_index i j :
  contract_indices (mul (delta i j) (xa j)) = xa i
  ∧ contract_indices (mul (delta i j) (n j)) = n i.
Proof.
  destruct (decide (i = j)) as [->|Hij].
  - split; contract_product.
  - split; order_labels i j Hij; contract_product.
Qed.

(** X7. One pass of [contract_indices] rewrites each elementary contraction
    of the rule catalogue, for all labels: a vector with itself, a vector
    with the unit vector, and [delta] with a vector that carries its second
    index or with itself. *)
Theorem contract_rule_table (i j : string) :
  contract_indices (mul (xa i) (xa i)) = pow ra0 2
  ∧ contract_indices (mul (xa i) (n i)) = dot "xa" "n"
  ∧ contract_indices (mul (x i) (x i)) = pow r0 2
  ∧ contract_indices (mul (x i) (n i)) = r0
  ∧ contract_indices (mul (n i) (n i)) = num 1
  ∧ contract_indices (mul (delta i j) (xa j)) = xa i
  ∧ contract_indices (mul (delta i j) (n j)) = n i
  ∧ contract_indices (delta i i) = num 3.
Proof.
  split_and!.
  - contract_product.
  - contract_product.
  - contract_product.
  - contract_product.
  - contract_product.
  - exact (proj1 (contract_delta_second_index i j)).
  - exact (proj2 (contract_delta_second_index i j)).
  - contract_product.
Qed.

(** X8. What the catalogue leaves alone: for [i ≠ j], [delta(i,j)] is not
    contracted with a vector that carries its first index, and it is never
    contracted with the observation vector [x]. *)
Theorem contract_delta_left_alone (i j : string) :
  i ≠ j →
  contract_indices (mul (delta i j) (xa i)) = mul (delta i j) (xa i)
  ∧ contract_indices (mul (delta i j) (n i)) = mul (delta i j) (n i)
  ∧ contract_indices (mul (delta i j) (x j)) = mul (delta i j) (x j)
  ∧ contract_indices (mul (delta i j) (x i)) = mul (delta i j) (x i).
Proof.
  intros Hij. split_and!; order_labels i j Hij; contract_product.
Qed.

Lemma contract_delta_left_alone_witness :
  contract_indices (mul (delta "i" "k") (xa "i")) = mul (delta "i" "k") (xa "i")
  ∧ contract_indices (mul (delta "i" "k") (n "i")) = mul (delta "i" "k") (n "i")
  ∧ contract_indices (mul (delta "i" "k") (x "k")) = mul (delta "i" "k") (x "k")
  ∧ contract_indices (mul (delta "i" "k") (x "i")) = mul (delta "i" "k") (x "i").
Proof. apply (contract_delta_left_alone "i" "k"). discriminate. Defined.

End rules.

(** ** The derivative table *)

Lemma length_generic_indices n : length (MultipoleMoments.generic_indices n) = Z.to_nat n.
Proof. unfold MultipoleMoments.generic_indices. by rewrite length_fmap, length_seqZ. Qed.

Lemma nth_derivative_total n indices :
  Z.to_nat n ≤ length indices →
  is_Some (DerivativeEngine.nth_derivative_1_over_r n indices).
Proof.
  intros Hlen. unfold DerivativeEngine.nth_derivative_1_over_r.
  repeat case_decide; subst.
  - done.
  - destruct indices as [|i ?]; [simpl in Hlen; lia|]. done.
  - destruct indices as [|i [|j ?]]; [simpl in Hlen; lia..|]. done.
  - by rewrite recursive_derivative_total.
Qed.

Section table.
Import DerivativeEngine.

Local Abbreviation step :=
  (λ (table : gmap (Z * list string) Expression) (n : Z),
     let indices := MultipoleMoments.generic_indices n in
     match nth_derivative_1_over_r n indices with
     | Some deriv => <[(n, indices) := deriv]> table
     | None => table
     end).

Lemma table_fold_lookup (l : list Z) table (n : Z) (indices : list string) :
  foldl step table l !! (n, indices)
  = if decide (n ∈ l ∧ indices = MultipoleMoments.generic_indices n)
    then nth_derivative_1_over_r n indices else table !! (n, indices).
Proof.
  revert table. induction l as [|m l IH]; intros table.
  { cbn [foldl]. rewrite decide_False; [done|]. intros [[]%elem_of_nil _]. }
  cbn [foldl]. rewrite IH. cbv beta zeta.
  destruct (nth_derivative_total m (MultipoleMoments.generic_indices m)) as [d Hd].
  { by rewrite length_generic_indices. }
  rewrite Hd. destruct (decide (n ∈ l ∧ _)) as [[Hn ->]|Hn].
  - rewrite decide_True; [done|]. split; [by right|done].
  - destruct (decide ((m, MultipoleMoments.generic_indices m) = (n, indices))) as [Heq|Hne].
    + injection Heq as -> <-. rewrite lookup_insert_eq.
      rewrite decide_True; [done|]. split; [by left|done].
    + rewrite lookup_insert_ne by done.
      destruct (decide (n ∈ m :: l ∧ _)) as [[Hin ->]|?]; [|done].
      apply elem_of_cons in Hin as [->|Hin]; [done|]. destruct Hn. done.
Qed.

Lemma table_fold_size (l : list Z) table :
  NoDup l → (∀ n, n ∈ l → table !! (n, MultipoleMoments.generic_indices n) = None) →
  size (foldl step table l) = size table + length l.
Proof.
  revert table. induction l as [|m l IH]; intros table Hnd Hfresh; [simpl; lia|].
  apply NoDup_cons in Hnd as [Hm Hnd]. cbn [foldl]. rewrite IH; [|done|].
  - cbv beta zeta.
    destruct (nth_derivative_total m (MultipoleMoments.generic_indices m)) as [d ->].
    { by rewrite length_generic_indices. }
    rewrite map_size_insert_None by (apply Hfresh; by left). simpl. lia.
  - intros n Hn. cbv beta zeta.
    destruct (nth_derivative_1_over_r m _); [|apply Hfresh; by right].
    rewrite lookup_insert_ne; [apply Hfresh; by right|].
    intros [= -> _]. done.
Qed.

(** X9. The derivative table holds exactly one entry for each order from 0
    to [max_order]: the key [(n, [i1 ... in])] maps to the derivative of
    order [n], no order is left out because its derivative raised, and there
    are no other keys.  A negative [max_order] gives the empty table. *)
Theorem derivative_table_entries (max_order : Z) :
  (∀ n, (0 ≤ n ≤ max_order)%Z →
     ∃ deriv, nth_derivative_1_over_r n (MultipoleMoments.generic_indices n) = Some deriv
       ∧ generate_derivative_table max_order !! (n, MultipoleMoments.generic_indices n)
         = Some deriv)
  ∧ (∀ n indices, is_Some (generate_derivative_table max_order !! (n, indices)) →
       (0 ≤ n ≤ max_order)%Z ∧ indices = MultipoleMoments.generic_indices n)
  ∧ size (generate_derivative_table max_order) = Z.to_nat (max_order + 1).
Proof.
  unfold generate_derivative_table. split_and!.
  - intros n Hn.
    destruct (nth_derivative_total n (MultipoleMoments.generic_indices n)) as [d Hd].
    { by rewrite length_generic_indices. }
    exists d. split; [done|]. rewrite table_fold_lookup, decide_True; [done|].
    split; [|done]. apply elem_of_seqZ. lia.
  - intros n indices. rewrite table_fold_lookup.
    case_decide as H; [|by intros []%is_Some_None].
    destruct H as [Hn%elem_of_seqZ ->]. intros _. split; [lia|done].
  - rewrite table_fold_size; [by rewrite map_size_empty, length_seqZ|apply NoDup_seqZ|done].
Qed.

Lemma derivative_table_entries_witness :
  ∃ deriv,
    nth_derivative_1_over_r 1 (MultipoleMoments.generic_indices 1) = Some deriv
    ∧ generate_derivative_table 2 !! (1%Z, MultipoleMoments.generic_indices 1)
      = Some deriv.
Proof. apply (proj1 (derivative_table_entries 2) 1%Z). lia. Defined.

End table.

(** ** The generator, default labels and the checks that return True *)

(** X10. Every pairing the generator returns has exactly [k] pairs, and each
    pair is [(i, j)] with [i < j < n]. *)
Theorem generate_k_pairings_shape (n k : nat) :
  ∃ l, MultipoleMoments._generate_k_pairings n k = Some l
       ∧ DerivativeEngine._generate_k_pairings n k = Some l
       ∧ ∀ p, p ∈ l → length p = k ∧ Forall (λ pair, pair.1 < pair.2 < n) p.
Proof.
  exists (pairings n k).
  split; [apply generate_pairings_eq|]. split; [apply generate_pairings_eq|].
  intros p (Hl & Hr & _)%pairings_is_pairing. done.
Qed.

(** X11. The generator leaves no pairing out: every list of [k] pairs
    [(i, j)] with [i < j < n] that uses no position twice is returned, up to
    the order of its pairs. *)
Theorem generate_k_pairings_complete (n k : nat) (p : pairing) :
  length p = k → Forall (λ pair, pair.1 < pair.2 < n) p → NoDup (positions p) →
  ∃ l q, MultipoleMoments._generate_k_pairings n k = Some l
         ∧ DerivativeEngine._generate_k_pairings n k = Some l
         ∧ q ∈ l ∧ q ≡ₚ p.
Proof.
  intros Hl Hr Hnd.
  destruct (pairings_complete k n p) as (q & Hq & Hqp); [done|].
  exists (pairings n k), q.
  split; [apply generate_pairings_eq|]. split; [apply generate_pairings_eq|]. done.
Qed.

Lemma generate_k_pairings_complete_witness :
  ∃ l q, MultipoleMoments._generate_k_pairings 4 2 = Some l
         ∧ DerivativeEngine._generate_k_pairings 4 2 = Some l
         ∧ q ∈ l ∧ q ≡ₚ [(1, 2); (0, 3)].
Proof.
  apply (generate_k_pairings_complete 4 2 [(1, 2); (0, 3)]).
  - reflexivity.
  - repeat constructor; simpl; lia.
  - apply (bool_decide_unpack _). vm_compute. reflexivity.
Defined.

(** X12. For two or more pairs the duplicate-removal loop does real work:
    the list it runs over holds every pairing once for each of its pairs
    (the pair chosen first), so a generator call for [k] pairs builds [k]
    times as many entries as it returns. *)
Theorem generate_k_pairings_raw_duplicates (n k : nat) :
  MultipoleMoments._generate_k_pairings n (S (S k))
  = Some (remove_duplicates (candidates n (S k)) ∅ [])
  ∧ (∀ x, x ∈ candidates n (S k) →
       length (filter (λ y, normalized y = normalized x) (candidates n (S k))) = S (S k))
  ∧ length (candidates n (S k))
    = S (S k) * length (remove_duplicates (candidates n (S k)) ∅ []).
Proof.
  split_and!.
  - unfold MultipoleMoments._generate_k_pairings. by rewrite generate_pairings_eq.
  - intros x Hx. by apply candidates_multiplicity.
  - rewrite remove_duplicates_first_occurrences. cbn [app].
    pose proof (first_occurrences_count (S (S k)) ∅ (candidates n (S k))) as Hc.
    rewrite (filter_all _ (candidates n (S k))) in Hc
      by (apply Forall_forall; intros; set_solver).
    apply Hc. intros x Hx _. by apply candidates_multiplicity.
Qed.

Lemma generate_k_pairings_raw_duplicates_witness :
  length (filter (λ y, normalized y = normalized [(0, 1); (2, 3)]) (candidates 4 1)) = 2.
Proof.
  apply (proj1 (proj2 (generate_k_pairings_raw_duplicates 4 0)) [(0, 1); (2, 3)]).
  apply (bool_decide_unpack _). vm_compute. reflexivity.
Defined.

Lemma generic_indices_NoDup n : NoDup (MultipoleMoments.generic_indices n).
Proof.
  unfold MultipoleMoments.generic_indices. apply NoDup_fmap_2; [|apply NoDup_seqZ].
  intros a b Hab. apply (inj (String.app "i")) in Hab. by apply (inj pretty) in Hab.
Qed.

Lemma Q_tensor_total n indices :
  Z.to_nat n ≤ length indices → is_Some (MultipoleMoments.Q_tensor n (Some indices)).
Proof.
  intros Hlen. unfold MultipoleMoments.Q_tensor. cbn [default from_option id].
  repeat case_decide; subst.
  - done.
  - destruct indices as [|i ?]; [simpl in Hlen; lia|]. done.
  - by rewrite Q_n_general_total.
Qed.

Section defaults.
Import MultipoleMoments.

(** X13. With the indices left out, [Q_tensor(n)] never raises, for any
    integer [n]: it builds the tensor on the [n] pairwise distinct labels
    [i1 ... in] (on no label for [n <= 0]). *)
Theorem Q_tensor_default_indices (n : Z) :
  is_Some (Q_tensor n None)
  ∧ Q_tensor n None = Q_tensor n (Some (generic_indices n))
  ∧ length (generic_indices n) = Z.to_nat n
  ∧ NoDup (generic_indices n)
  ∧ (∀ k, (1 ≤ k ≤ n)%Z → generic_indices n !! Z.to_nat (k - 1) = Some ("i" +:+ pretty k)).
Proof.
  split_and!.
  - apply (Q_tensor_total n (generic_indices n)). by rewrite length_generic_indices.
  - done.
  - apply length_generic_indices.
  - apply generic_indices_NoDup.
  - intros k Hk. unfold generic_indices. rewrite list_lookup_fmap.
    rewrite (lookup_seqZ_lt 1 n (Z.to_nat (k - 1))) by lia.
    replace (1 + Z.of_nat (Z.to_nat (k - 1)))%Z with k by lia. done.
Qed.

Lemma Q_tensor_default_indices_witness :
  generic_indices 3 !! Z.to_nat (2 - 1) = Some ("i" +:+ pretty 2%Z).
Proof. apply (proj2 (proj2 (proj2 (proj2 (Q_tensor_default_indices 3))))). lia. Defined.

End defaults.

(** X14. [verify_traceless] cannot fail: for every expression and every list
    of labels it returns [True] and raises nothing, whatever the contraction
    it computes on the way comes to. *)
Theorem verify_traceless_always_true (Q_expr : Expression) (indices : list string) :
  verify_traceless Q_expr indices = Some true.
Proof.
  unfold verify_traceless. case_decide as Hlen; [done|].
  destruct indices as [|i [|j rest]]; [simpl in Hlen; lia..|].
  cbn [lookup list_lookup mbind option_bind drop app]. rewrite drop_0.
  destruct (Q_tensor_total (Z.of_nat (length (i :: j :: rest))) (i :: i :: rest)) as [e ->].
  { simpl. lia. }
  done.
Qed.

(** X15. [verify_Q_symmetry] cannot fail either: for every integer [n] it
    returns [True] and raises nothing; it builds the tensors but compares
    nothing. *)
Theorem verify_Q_symmetry_always_true (n : Z) (verbose : bool) :
  Verifier.verify_Q_symmetry n verbose = Some true.
Proof.
  unfold Verifier.verify_Q_symmetry.
  destruct (decide (n = 0%Z)) as [|H0]; [done|].
  destruct (decide (n = 1%Z)) as [|H1]; [done|].
  destruct (Q_tensor_total n (MultipoleMoments.generic_indices n)) as [e ->].
  { by rewrite length_generic_indices. }
  cbn [mbind option_bind].
  destruct (decide (n = 2%Z)) as [->|H2]; [vm_compute; reflexivity|].
  destruct (decide (n = 3%Z)) as [->|H3]; [vm_compute; reflexivity|].
  done.
Qed.

(** ** Values of sums of products and of differences *)

Local Open Scope Z_scope.

Lemma flat_terms_nonneg e : flat_terms e → nonneg e.
Proof.
  intros He. eapply Forall_impl; [exact He|]. intros t Ht.
  eapply Forall_impl; [exact Ht|]. by intros f [? _].
Qed.

Lemma flat_flat_terms e : flat e → flat_terms e.
Proof. by intros [_ ?]. Qed.

Lemma add_flat_terms p q : flat_terms p → flat_terms q → flat_terms (add p q).
Proof.
  intros Hp Hq. unfold add. induction Hp as [|[m c] p Hm Hp IH]; [done|].
  simpl foldr. revert IH. generalize (foldr (λ t acc, insert_term t.1 t.2 acc) q p).
  intros e He. induction He as [|[m' c'] e Hm' He IH]; [by repeat constructor|].
  simpl insert_term. destruct (compare_monomial m m').
  - case_decide; [done|]. by constructor.
  - by repeat constructor.
  - by constructor.
Qed.

Lemma foldl_add_flat_terms {A} (g : A → Expression) (l : list A) e0 :
  flat_terms e0 → (∀ x, flat_terms (g x)) →
  flat_terms (foldl (λ acc x, add acc (g x)) e0 l).
Proof.
  intros H0 Hg. revert e0 H0. induction l as [|x l IH]; intros e0 H0; [done|].
  simpl. apply IH. by apply add_flat_terms.
Qed.

Lemma insert_factor_sum a e (M : monomial) (s : atom * Z) :
  is_sum a = false →
  Forall (λ f : atom * Z, is_sum f.1 = true → f = s) M →
  Forall (λ f : atom * Z, is_sum f.1 = true → f = s) (insert_factor a e M).
Proof.
  intros Ha HM. induction HM as [|[b e'] M Hb HM IH].
  { constructor; [|done]. simpl. by rewrite Ha. }
  simpl insert_factor. destruct (compare_atom a b) eqn:Hc.
  - apply compare_atom_eq in Hc as <-. case_decide; [done|].
    constructor; [|done]. simpl. by rewrite Ha.
  - constructor; [simpl; by rewrite Ha|]. by constructor.
  - by constructor.
Qed.

Lemma of_term_cases (t : term) :
  of_term t = [t] ∨ ∃ p, t = ([(ASum p, 1)], 1) ∧ of_term t = p.
Proof.
  destruct t as [[|[[s|f args|p] e] m] c]; try (by left).
  destruct (decide (e = 1)) as [->|He]; [|left; by destruct e as [|[]|]].
  destruct (decide (c = 1)) as [->|Hc]; [|left; destruct m; by destruct c as [|[]|]].
  destruct m; [|by left]. right. by exists p.
Qed.

(** A product of a single flat term with a sum of flat terms has
    non-negative exponents at its top level. *)
Lemma mul_flat_terms p q : flat p → flat_terms q → nonneg (mul p q).
Proof.
  intros Hp Hq.
  destruct q as [|t1 [|t2 q]].
  - unfold mul. destruct p; constructor.
  - apply flat_nonneg, mul_flat; [done|]. split; [done|exact Hq].
  - pose proof Hp as [Hlp Hfp]. unfold mul.
    destruct p as [|[m1 c1] [|??]]; [constructor| |simpl in Hlp; lia].
    rewrite Forall_singleton in Hfp. cbn [as_term fst snd] in *.
    set (q' := t1 :: t2 :: q) in *.
    assert (Forall (λ f : atom * Z, 0 ≤ f.2) (mono_mul m1 [(ASum q', 1)])) as Hnn.
    { apply mono_mul_nonneg; [|by repeat constructor].
      eapply Forall_impl; [exact Hfp|]. by intros f [? _]. }
    assert (Forall (λ f : atom * Z, is_sum f.1 = true → f = (ASum q', 1))
              (mono_mul m1 [(ASum q', 1)])) as Hsum.
    { unfold mono_mul. clear Hnn Hlp Hp.
      induction Hfp as [|[a k] m1 [Hk Ha] Hfp IH].
      { simpl. apply Forall_singleton. by intros _. }
      cbn [foldr fst snd] in *. by apply insert_factor_sum. }
    destruct (of_term_cases (mono_mul m1 [(ASum q', 1)], c1 * 1)) as [->|(p' & Heq & ->)].
    + by apply Forall_singleton.
    + injection Heq as Heq _. rewrite Heq in Hsum.
      rewrite Forall_singleton in Hsum. specialize (Hsum eq_refl).
      injection Hsum as ->. by apply flat_terms_nonneg.
Qed.

Section eval_more.
Context (ρ : interpretation).

Lemma eval_neg p : nonneg p → eval ρ (neg p) = - eval ρ p.
Proof.
  intros Hp. unfold neg. rewrite eval_mul; [|done|apply flat_nonneg, num_flat].
  rewrite eval_num. lia.
Qed.

Lemma eval_sub p q : nonneg q → eval ρ (sub p q) = eval ρ p - eval ρ q.
Proof. intros Hq. unfold sub. rewrite eval_add, eval_neg by done. lia. Qed.

End eval_more.

(** The value of the pairing sum, for any vector and magnitude symbol and
    either sign convention. *)
Section value_general.
Context (ρ : interpretation) (v m : string) (alternating : bool).

Lemma eval_pairing_product_call n indices (P : pairing) :
  eval ρ (pairing_product (λ i, call v [i]) n indices P)
  = pairing_value ρ v (Z.to_nat n) indices P.
Proof.
  unfold pairing_product, pairing_value.
  rewrite (foldl_skip (λ pos, pos ∈ positions P)
             (λ term pos, mul term (call v [indices !!! pos]))).
  rewrite range_0.
  rewrite (eval_foldl_mul ρ (λ pos, call v [indices !!! pos])).
  - rewrite (eval_foldl_mul ρ
      (λ p, TensorContraction.delta (indices !!! p.1) (indices !!! p.2)));
      [|apply num_flat|intros; apply call_flat].
    rewrite eval_num, Z.mul_1_l. f_equal.
    + apply f_equal, list_fmap_ext. intros _ p _. apply eval_call.
    + apply f_equal, list_fmap_ext. intros _ pos _. apply eval_call.
  - apply (foldl_mul_flat
      (λ p, TensorContraction.delta (indices !!! p.1) (indices !!! p.2)));
      [apply num_flat|intros; apply call_flat].
  - intros. apply call_flat.
Qed.

Lemma pairing_product_call_flat n indices (P : pairing) :
  flat (pairing_product (λ i, call v [i]) n indices P).
Proof.
  unfold pairing_product.
  rewrite (foldl_skip (λ pos, pos ∈ positions P)
             (λ term pos, mul term (call v [indices !!! pos]))).
  apply (foldl_mul_flat (λ pos, call v [indices !!! pos]));
    [|intros; apply call_flat].
  apply (foldl_mul_flat
      (λ p, TensorContraction.delta (indices !!! p.1) (indices !!! p.2)));
    [apply num_flat|intros; apply call_flat].
Qed.

Lemma eval_main_term_call n indices :
  eval ρ (main_term (λ i, call v [i]) n indices)
  = MultipoleMoments._double_factorial (2 * n - 1)
    * prodZ ((λ i, fn_value ρ v [i]) <$> indices).
Proof.
  unfold main_term.
  rewrite (eval_foldl_mul ρ (λ i, call v [i]));
    [|apply num_flat|intros; apply call_flat].
  rewrite eval_num. do 2 f_equal. apply list_fmap_ext. intros _ i _. apply eval_call.
Qed.

Lemma pairing_total_flat_terms n indices (l : list pairing) :
  flat_terms (foldl (λ total pairing,
                add total (pairing_product (λ i, call v [i]) n indices pairing))
              (num 0) l).
Proof.
  apply (foldl_add_flat_terms (pairing_product (λ i, call v [i]) n indices)).
  - apply flat_flat_terms, num_flat.
  - intros. apply flat_flat_terms, pairing_product_call_flat.
Qed.

Lemma trace_term_nonneg n indices k :
  0 ≤ k → nonneg (trace_term (λ i, call v [i]) (symbol m) alternating n indices k).
Proof.
  intros Hk. unfold trace_term. apply mul_flat_terms.
  - apply mul_flat; [apply num_flat|apply pow_symbol_flat; lia].
  - apply pairing_total_flat_terms.
Qed.

Lemma eval_trace_term_call n indices k :
  0 ≤ k →
  eval ρ (trace_term (λ i, call v [i]) (symbol m) alternating n indices k)
  = coefficient alternating n k * sym_value ρ m ^ (2 * k)
    * sumZ (pairing_value ρ v (Z.to_nat n) indices
              <$> pairings (Z.to_nat n) (Z.to_nat k)).
Proof.
  intros Hk. unfold trace_term.
  rewrite eval_mul.
  - rewrite eval_mul; [|apply flat_nonneg, num_flat|apply flat_nonneg, pow_symbol_flat; lia].
    rewrite eval_num, eval_pow_symbol by lia.
    rewrite (eval_foldl_add ρ (pairing_product (λ i, call v [i]) n indices)).
    change (eval ρ (num 0)) with 0. rewrite Z.add_0_l.
    do 2 f_equal. apply list_fmap_ext. intros _ P _. apply eval_pairing_product_call.
  - apply flat_nonneg, mul_flat; [apply num_flat|apply pow_symbol_flat; lia].
  - apply flat_terms_nonneg, pairing_total_flat_terms.
Qed.

Lemma trace_sum_nonneg n indices :
  nonneg (trace_sum (λ i, call v [i]) (symbol m) alternating n indices).
Proof.
  unfold trace_sum.
  assert (∀ l e0, nonneg e0 → Forall (λ k, 0 ≤ k) l →
    nonneg (foldl (λ total k,
              add total (trace_term (λ i, call v [i]) (symbol m) alternating n indices k))
            e0 l)) as H.
  { induction l as [|k l IH]; intros e0 H0 Hl; [done|].
    apply Forall_cons in Hl as [Hk Hl]. simpl. apply IH; [|done].
    apply add_nonneg; [done|]. by apply trace_term_nonneg. }
  apply H; [apply flat_nonneg, num_flat|].
  apply Forall_forall. intros k Hk%elem_of_seqZ. lia.
Qed.

Lemma eval_trace_sum_call n indices :
  eval ρ (trace_sum (λ i, call v [i]) (symbol m) alternating n indices)
  = sumZ ((λ k, coefficient alternating n k * sym_value ρ m ^ (2 * k)
                * sumZ (pairing_value ρ v (Z.to_nat n) indices
                          <$> pairings (Z.to_nat n) (Z.to_nat k)))
            <$> seqZ 1 (n `div` 2)).
Proof.
  unfold trace_sum.
  rewrite (eval_foldl_add ρ
    (trace_term (λ i, call v [i]) (symbol m) alternating n indices)).
  change (eval ρ (num 0)) with 0. rewrite Z.add_0_l. f_equal.
  apply Forall_fmap_ext_1, Forall_forall. intros k Hk%elem_of_seqZ.
  apply eval_trace_term_call. lia.
Qed.

End value_general.
Local Close Scope Z_scope.

(** ** Symmetry of the derivative numerator *)

Section numerator.
Import DerivativeEngine.

Lemma build_derivative_numerator_total n indices :
  Z.to_nat n ≤ length indices →
  _build_derivative_numerator n indices
  = Some (sub (main_term x n indices) (trace_sum x r0 false n indices)).
Proof.
  intros Hlen. unfold _build_derivative_numerator.
  by rewrite compute_all_derivative_traces_total by lia.
Qed.

Lemma eval_derivative_numerator ρ n indices :
  eval ρ (sub (main_term x n indices) (trace_sum x r0 false n indices))
  = (MultipoleMoments._double_factorial (2 * n - 1)
       * prodZ ((λ i, fn_value ρ "x" [i]) <$> indices)
     - sumZ ((λ k, coefficient false n k * sym_value ρ "r0" ^ (2 * k)
                   * sumZ (pairing_value ρ "x" (Z.to_nat n) indices
                             <$> pairings (Z.to_nat n) (Z.to_nat k)))
               <$> seqZ 1 (n `div` 2)))%Z.
Proof.
  rewrite eval_sub by apply (trace_sum_nonneg "x" "r0" false).
  rewrite (eval_main_term_call ρ "x"), (eval_trace_sum_call ρ "x" "r0" false). done.
Qed.

(** X16. The numerator of the derivative is symmetric in value: for a list of
    [n] labels and a permutation of it, [_build_derivative_numerator]
    returns an expression for both, and the two have the same value under
    every interpretation of the symbols that reads [delta] as symmetric. *)
Theorem derivative_numerator_symmetric (n : Z) (indices indices' : list string)
    (ρ : interpretation) :
  length indices = Z.to_nat n → indices ≡ₚ indices' → delta_symmetric ρ →
  ∃ e e', _build_derivative_numerator n indices = Some e
          ∧ _build_derivative_numerator n indices' = Some e'
          ∧ eval ρ e = eval ρ e'.
Proof.
  intros Hlen Hperm Hsym.
  pose proof (Permutation_length Hperm) as Hlen'.
  eexists _, _. split_and!.
  - apply build_derivative_numerator_total. lia.
  - apply build_derivative_numerator_total. lia.
  - rewrite !eval_derivative_numerator. f_equal.
    + f_equal. by apply prodZ_Permutation, fmap_Permutation.
    + f_equal. apply list_fmap_ext. intros _ k _. f_equal.
      rewrite <-Hlen at 1 2. rewrite Hlen' in Hlen. rewrite <-Hlen.
      by apply sum_pairing_value_Permutation.
Qed.

Lemma derivative_numerator_symmetric_witness :
  ∃ e e', _build_derivative_numerator 4 ["i"; "j"; "k"; "l"] = Some e
          ∧ _build_derivative_numerator 4 ["l"; "k"; "i"; "j"] = Some e'
          ∧ eval kronecker e = eval kronecker e'.
Proof.
  apply (derivative_numerator_symmetric 4 ["i"; "j"; "k"; "l"] ["l"; "k"; "i"; "j"]
           kronecker).
  - reflexivity.
  - apply (bool_decide_unpack _). vm_compute. reflexivity.
  - apply kronecker_symmetric.
Defined.

End numerator.

(** ** The recursion of the pairing sums *)

Lemma sumZ_nil : sumZ [] = 0%Z.
Proof. done. Qed.

Lemma sumZ_cons x l : sumZ (x :: l) = (x + sumZ l)%Z.
Proof. done. Qed.

Lemma sumZ_app l1 l2 : sumZ (l1 ++ l2) = (sumZ l1 + sumZ l2)%Z.
Proof. unfold sumZ. induction l1 as [|x l1 IH]; simpl; lia. Qed.

Lemma sumZ_bind {A B} (f : B → Z) (g : A → list B) (l : list A) :
  sumZ (f <$> (l ≫= g)) = sumZ ((λ x, sumZ (f <$> g x)) <$> l).
Proof.
  induction l as [|x l IH]; [done|].
  rewrite bind_cons, fmap_app, sumZ_app, IH. done.
Qed.

Lemma sumZ_fmap_mul {A} (c : Z) (f : A → Z) (l : list A) :
  sumZ ((λ x, c * f x)%Z <$> l) = (c * sumZ (f <$> l))%Z.
Proof.
  induction l as [|x l IH]; [unfold sumZ; simpl; lia|].
  rewrite !fmap_cons, !sumZ_cons, IH. lia.
Qed.

Lemma sumZ_fmap_add {A} (f g : A → Z) (l : list A) :
  sumZ ((λ x, f x + g x)%Z <$> l) = (sumZ (f <$> l) + sumZ (g <$> l))%Z.
Proof.
  induction l as [|x l IH]; [done|].
  rewrite !fmap_cons, !sumZ_cons, IH. lia.
Qed.

Lemma sumZ_fmap_ext {A} (f g : A → Z) (l : list A) :
  (∀ x, x ∈ l → f x = g x) → sumZ (f <$> l) = sumZ (g <$> l).
Proof.
  intros Hfg. f_equal. apply Forall_fmap_ext_1, Forall_forall. exact Hfg.
Qed.

Lemma sumZ_fmap_const {A} (c : Z) (l : list A) :
  sumZ ((λ _, c) <$> l) = (Z.of_nat (length l) * c)%Z.
Proof.
  induction l as [|x l IH]; [done|].
  rewrite fmap_cons, sumZ_cons, IH. cbn [length]. lia.
Qed.

(** Sums over the list the duplicate-removal loop runs over: if every
    normal form occurs [m] times and the summand does not depend on the
    representative, the sum is [m] times the sum over the kept pairings. *)
Section dedup_sum.
Context (f : pairing → Z) (m : nat).

Lemma sum_filter_seen_split (a : list (nat * nat)) (seen : gset (list (nat * nat))) l :
  a ∉ seen →
  sumZ (f <$> filter (λ y, normalized y ∉ seen) l)
  = (sumZ (f <$> filter (λ y, normalized y = a) l)
     + sumZ (f <$> filter (λ y, normalized y ∉ {[a]} ∪ seen) l))%Z.
Proof.
  intros Ha. induction l as [|y l IH]; [done|].
  rewrite !filter_cons.
  destruct (decide (normalized y = a)) as [Heq|Hne].
  - rewrite decide_True by (by rewrite Heq).
    rewrite decide_False by set_solver. rewrite !fmap_cons, !sumZ_cons, IH. lia.
  - destruct (decide (normalized y ∉ seen)) as [Hy|Hy].
    + rewrite decide_True by set_solver. rewrite !fmap_cons, !sumZ_cons, IH. lia.
    + rewrite decide_False by set_solver. done.
Qed.

Lemma sum_same_class (a : pairing) l :
  (∀ y, y ∈ l → normalized y = normalized a → f y = f a) →
  sumZ (f <$> filter (λ y, normalized y = normalized a) l)
  = (Z.of_nat (length (filter (λ y, normalized y = normalized a) l)) * f a)%Z.
Proof.
  intros Hf. induction l as [|y l IH]; [done|].
  rewrite filter_cons. case_decide as Hy.
  - rewrite fmap_cons, sumZ_cons, IH by (intros; apply Hf; [by right|done]).
    rewrite (Hf y) by (done || by left). cbn [length]. lia.
  - apply IH. intros; apply Hf; [by right|done].
Qed.

Lemma first_occurrences_sum seen l :
  (∀ x y, x ∈ l → y ∈ l → normalized x = normalized y → f x = f y) →
  (∀ x, x ∈ l → normalized x ∉ seen →
     length (filter (λ y, normalized y = normalized x) l) = m) →
  sumZ (f <$> filter (λ y, normalized y ∉ seen) l)
  = (Z.of_nat m * sumZ (f <$> first_occurrences seen l))%Z.
Proof.
  revert seen. induction l as [|a l IH]; intros seen Hf Hm; [unfold sumZ; simpl; lia|].
  simpl first_occurrences. rewrite filter_cons.
  destruct (decide (normalized a ∈ seen)) as [Ha|Ha].
  - rewrite decide_False by (intros Hn; by apply Hn).
    apply IH.
    + intros x y Hx Hy. apply Hf; by right.
    + intros x Hx Hn. rewrite <-(Hm x) by (done || by right).
      rewrite filter_cons, decide_False; [done|]. intros Heq. apply Hn. by rewrite <-Heq.
  - rewrite decide_True by done.
    rewrite !fmap_cons, !sumZ_cons.
    rewrite (sum_filter_seen_split (normalized a)) by done.
    rewrite (IH ({[normalized a]} ∪ seen)).
    + specialize (Hm a (list_elem_of_here _ _) Ha).
      rewrite filter_cons, decide_True in Hm by done. cbn [length] in Hm.
      rewrite sum_same_class.
      * replace (Z.of_nat m) with (1 + Z.of_nat (length
          (filter (λ y, normalized y = normalized a) l)))%Z by lia. lia.
      * intros y Hy Hn. apply Hf; [by right|by left|done].
    + intros x y Hx Hy. apply Hf; by right.
    + intros x Hx Hn.
      rewrite <-(Hm x) by (by right || set_solver).
      rewrite filter_cons, decide_False; [done|]. set_solver.
Qed.

End dedup_sum.

Lemma fmap_lookup_total_seq {A} `{Inhabited A} (l : list A) :
  (λ pos, l !!! pos) <$> seq 0 (length l) = l.
Proof.
  induction l as [|x l IH]; [done|].
  cbn [length seq]. rewrite fmap_cons, <-fmap_S_seq, <-list_fmap_compose.
  f_equal. exact IH.
Qed.

Lemma length_without indices i j :
  i < j < length indices → length (without indices (i, j)) = length indices - 2.
Proof. intros Hij. unfold without. by rewrite length_fmap, remaining_of_length. Qed.

Lemma lookup_total_without indices i j a :
  i < j < length indices → a < length indices - 2 →
  without indices (i, j) !!! a = indices !!! skip2 i j a.
Proof.
  intros Hij Ha. unfold without.
  rewrite (list_lookup_total_fmap (λ pos, indices !!! pos))
    by (by rewrite remaining_of_length).
  by rewrite (remaining_of_lookup_total (length indices)).
Qed.

(** The term of a pairing whose first pair is [(i, j)]: the [delta] of that
    pair times the term of the other pairs on the remaining labels. *)
Lemma pairing_value_cons ρ vec indices i j k sub :
  i < j < length indices → is_pairing (length indices - 2) k sub →
  pairing_value ρ vec (length indices) indices
    ((i, j) :: map_back_total (remaining_of (length indices) (i, j)) sub)
  = (fn_value ρ "delta" [indices !!! i; indices !!! j]
     * pairing_value ρ vec (length indices - 2) (without indices (i, j)) sub)%Z.
Proof.
  intros Hij Hsub. pose proof Hsub as (Hl & Hr & Hnd).
  rewrite (map_back_total_skip2 (length indices)) by done.
  unfold pairing_value. rewrite fmap_cons. unfold prodZ at 1. cbn [foldr fst snd].
  fold (prodZ ((λ p, fn_value ρ "delta" [indices !!! p.1; indices !!! p.2])
                 <$> ((λ pair, (skip2 i j pair.1, skip2 i j pair.2)) <$> sub))).
  rewrite <-Z.mul_assoc. f_equal. f_equal.
  - rewrite <-list_fmap_compose. f_equal.
    apply Forall_fmap_ext_1. eapply Forall_impl; [exact Hr|].
    intros [a b] Hab. simpl in *.
    by rewrite !lookup_total_without by lia.
  - trans (prodZ ((λ pos, fn_value ρ vec [indices !!! pos])
                    <$> (skip2 i j <$> filter (λ pos, pos ∉ positions sub)
                                         (seq 0 (length indices - 2))))).
    + apply prodZ_Permutation, fmap_Permutation, NoDup_Permutation.
      * apply NoDup_filter, NoDup_seq.
      * apply NoDup_fmap_2; [apply skip2_inj|]. apply NoDup_filter, NoDup_seq.
      * intros x. rewrite list_elem_of_filter, elem_of_seq, positions_cons,
          positions_fmap, list_elem_of_fmap.
        setoid_rewrite list_elem_of_filter. setoid_rewrite elem_of_seq.
        split.
        -- intros [Hx Hn]. exists (unskip2 i j x).
           assert (x ≠ i ∧ x ≠ j) as [Hxi Hxj].
           { split; intros ->; apply Hx; set_solver. }
           rewrite skip2_unskip2 by (done || lia). split; [done|]. split.
           ++ intros Hin. apply Hx. right. right.
              apply list_elem_of_fmap. exists (unskip2 i j x).
              by rewrite skip2_unskip2 by (done || lia).
           ++ pose proof (unskip2_bound (length indices) i j x). lia.
        -- intros (y & -> & Hy & Hn). split.
           ++ pose proof (skip2_avoids i j y ltac:(lia)) as [??].
              rewrite !elem_of_cons, list_elem_of_fmap.
              intros [?|[?|(z & Hz%skip2_inj & Hin)]]; [done|done|]. by subst.
           ++ pose proof (skip2_bound (length indices) i j y). lia.
    + rewrite <-list_fmap_compose. f_equal.
      apply Forall_fmap_ext_1, Forall_forall.
      intros pos [_ Hpos%elem_of_seq]%list_elem_of_filter. simpl.
      by rewrite lookup_total_without by lia.
Qed.

Lemma pairings_one n : pairings n 1 = candidates n 0.
Proof.
  cbn [pairings]. unfold candidates.
  induction (all_pairs n) as [|ij l IH]; [done|].
  rewrite fmap_cons, bind_cons, IH. rewrite decide_True by lia. done.
Qed.

Section recursion.
Context (ρ : interpretation) (vec : string).

(** The sum over the list before duplicate removal. *)
Lemma candidates_sum k indices :
  sumZ (pairing_value ρ vec (length indices) indices <$> candidates (length indices) k)
  = sumZ ((λ ij, fn_value ρ "delta" [indices !!! ij.1; indices !!! ij.2]
                 * pairing_sum ρ vec k (without indices ij))%Z
            <$> all_pairs (length indices)).
Proof.
  unfold candidates. rewrite sumZ_bind. apply sumZ_fmap_ext.
  intros [i j] Hij%elem_of_all_pairs. cbn [fst snd].
  unfold pairing_sum. rewrite length_without, remaining_of_length by done.
  case_decide as Hk.
  - rewrite <-sumZ_fmap_mul, <-list_fmap_compose. apply sumZ_fmap_ext.
    intros sub Hsub%pairings_is_pairing. simpl.
    by apply (pairing_value_cons _ _ _ _ _ k).
  - rewrite pairings_empty by lia. unfold sumZ. simpl. lia.
Qed.

(** The recursion of the generator, on the sums: [k + 1] times the sum over
    the pairings with [k + 1] pairs is the sum, over all first pairs, of
    the [delta] of the pair times the sum over the pairings with [k] pairs
    of the remaining labels. *)
Lemma pairing_sum_step k indices :
  (Z.of_nat (S k) * pairing_sum ρ vec (S k) indices)%Z
  = sumZ ((λ ij, fn_value ρ "delta" [indices !!! ij.1; indices !!! ij.2]
                 * pairing_sum ρ vec k (without indices ij))%Z
            <$> all_pairs (length indices)).
Proof.
  rewrite <-candidates_sum. unfold pairing_sum at 1.
  destruct k as [|k].
  - rewrite pairings_one. lia.
  - rewrite pairings_unfold.
    rewrite <-(first_occurrences_sum _ (S (S k)) ∅ (candidates (length indices) (S k))).
    + by rewrite filter_all by (apply Forall_forall; intros; set_solver).
    + intros x y Hx%candidates_is_pairing Hy%candidates_is_pairing Hn.
      apply pairing_value_Permutation.
      by apply normalized_eq_iff; [eapply is_pairing_ascending..|].
    + intros x Hx _. by apply candidates_multiplicity.
Qed.

Lemma pairing_sum_zero indices :
  pairing_sum ρ vec 0 indices = prodZ ((λ l, fn_value ρ vec [l]) <$> indices).
Proof.
  unfold pairing_sum. change (pairings (length indices) 0) with [[] : pairing].
  rewrite fmap_cons, fmap_nil, sumZ_cons, sumZ_nil, Z.add_0_r.
  unfold pairing_value. change (positions []) with (@nil nat).
  rewrite filter_all by (apply Forall_forall; intros ? _ []%elem_of_nil).
  rewrite fmap_nil. change (prodZ []) with 1%Z. rewrite Z.mul_1_l. f_equal.
  etrans; [|apply (f_equal (fmap (λ l, fn_value ρ vec [l])) (fmap_lookup_total_seq indices))].
  by rewrite <-list_fmap_compose.
Qed.

Lemma pairing_sum_empty k indices :
  length indices < 2 * k → pairing_sum ρ vec k indices = 0%Z.
Proof. intros Hk. unfold pairing_sum. by rewrite pairings_empty. Qed.

Lemma pairing_sum_Permutation k indices indices' :
  delta_symmetric ρ → indices ≡ₚ indices' →
  pairing_sum ρ vec k indices = pairing_sum ρ vec k indices'.
Proof. intros Hsym Hp. unfold pairing_sum. by apply sum_pairing_value_Permutation. Qed.

End recursion.

(** ** Two equal labels at the front *)

Lemma filter_fmap_comm {A B} (P : B → Prop) `{∀ x, Decision (P x)} (f : A → B) (l : list A) :
  filter P (f <$> l) = f <$> filter (λ x, P (f x)) l.
Proof.
  induction l as [|x l IH]; [done|].
  rewrite fmap_cons, !filter_cons. case_decide; [rewrite fmap_cons|]; by rewrite IH.
Qed.

Lemma remaining_of_succ n a b :
  remaining_of (S n) (S a, S b) = 0 :: (S <$> remaining_of n (a, b)).
Proof.
  unfold remaining_of. rewrite !range_0. cbn [seq fst snd].
  rewrite filter_cons, decide_True by lia. f_equal.
  rewrite <-fmap_S_seq, filter_fmap_comm. f_equal.
  apply list_filter_iff. intros x. lia.
Qed.

Lemma remaining_of_zero n b :
  remaining_of (S n) (0, S b) = S <$> filter (λ p, p ≠ b) (seq 0 n).
Proof.
  unfold remaining_of. rewrite !range_0. cbn [seq fst snd].
  rewrite filter_cons, decide_False by lia.
  rewrite <-fmap_S_seq, filter_fmap_comm. f_equal.
  apply list_filter_iff. intros x. lia.
Qed.

Lemma without_succ x indices a b :
  without (x :: indices) (S a, S b) = x :: without indices (a, b).
Proof.
  unfold without. cbn [length]. rewrite remaining_of_succ, fmap_cons.
  f_equal. by rewrite <-list_fmap_compose.
Qed.

Lemma lookup_total_filter_ne (indices : list string) b :
  (λ pos, indices !!! pos) <$> filter (λ p, p ≠ b) (seq 0 (length indices))
  = delete b indices.
Proof.
  revert b. induction indices as [|y l IH]; intros b; [done|].
  cbn [length seq]. rewrite filter_cons, <-fmap_S_seq, filter_fmap_comm.
  destruct b as [|b].
  - rewrite decide_False by lia.
    rewrite filter_all by (apply Forall_forall; intros; lia).
    rewrite <-list_fmap_compose. apply fmap_lookup_total_seq.
  - rewrite decide_True by lia. rewrite fmap_cons, <-list_fmap_compose.
    cbn [delete list_delete]. f_equal.
    rewrite <-IH. f_equal. apply list_filter_iff. intros x. lia.
Qed.

Lemma without_zero x indices b :
  without (x :: indices) (0, S b) = delete b indices.
Proof.
  unfold without. cbn [length]. rewrite remaining_of_zero, <-list_fmap_compose.
  apply lookup_total_filter_ne.
Qed.

Lemma all_pairs_succ n :
  all_pairs (S n)
  ≡ₚ ((λ j, (0, S j)) <$> seq 0 n) ++ ((λ ab, (S ab.1, S ab.2)) <$> all_pairs n).
Proof.
  apply NoDup_Permutation.
  - apply NoDup_all_pairs.
  - apply NoDup_app. split_and!.
    + apply NoDup_fmap_2; [intros ?? [=]; done|apply NoDup_seq].
    + intros [a b] (j & [= -> ->] & _)%list_elem_of_fmap
        ([a' b'] & [=] & _)%list_elem_of_fmap.
    + apply NoDup_fmap_2; [intros [??] [??] [=]; by subst|apply NoDup_all_pairs].
  - intros [a b]. rewrite elem_of_all_pairs, elem_of_app, !list_elem_of_fmap. split.
    + intros Hab. destruct a as [|a], b as [|b]; try lia.
      * left. exists b. split; [done|]. apply elem_of_seq. lia.
      * right. exists (a, b). split; [done|]. apply elem_of_all_pairs. lia.
    + intros [(j & [= -> ->] & Hj%elem_of_seq)|([a' b'] & [= -> ->] & Hab%elem_of_all_pairs)];
        simpl in *; lia.
Qed.

Lemma sum_all_pairs_succ (g : nat * nat → Z) n :
  sumZ (g <$> all_pairs (S n))
  = (sumZ ((λ j, g (0%nat, S j)) <$> seq 0 n)
     + sumZ ((λ ab, g (S ab.1, S ab.2)) <$> all_pairs n))%Z.
Proof.
  rewrite (sumZ_Permutation _ _ (fmap_Permutation g _ _ (all_pairs_succ n))).
  by rewrite fmap_app, sumZ_app, <-!list_fmap_compose.
Qed.

(** The sum over the first pairs of a list that begins with two labels:
    the pair of the first two positions, the pairs of one of them with a
    later position, and the pairs of later positions. *)
Lemma sum_all_pairs_two (g : nat * nat → Z) m :
  sumZ (g <$> all_pairs (S (S m)))
  = (g (0%nat, 1%nat)
     + sumZ ((λ j, g (0%nat, S (S j))) <$> seq 0 m)
     + sumZ ((λ j, g (1%nat, S (S j))) <$> seq 0 m)
     + sumZ ((λ ab, g (S (S ab.1), S (S ab.2))) <$> all_pairs m))%Z.
Proof.
  rewrite sum_all_pairs_succ. cbn [seq]. rewrite fmap_cons, sumZ_cons.
  rewrite <-fmap_S_seq, <-list_fmap_compose.
  rewrite (sum_all_pairs_succ (λ ab, g (S ab.1, S ab.2))).
  rewrite <-?list_fmap_compose. unfold compose. cbn [fst snd]. lia.
Qed.

Lemma euclid_delta_symmetric coord X r : delta_symmetric (euclid coord X r).
Proof. intros a b. simpl. repeat case_decide; congruence. Qed.

(** Under the Euclidean reading the sums depend on the coordinates of the
    labels only. *)
Lemma pairing_sum_euclid_ext coord1 coord2 X r vec k indices1 indices2 :
  coord1 <$> indices1 = coord2 <$> indices2 →
  pairing_sum (euclid coord1 X r) vec k indices1
  = pairing_sum (euclid coord2 X r) vec k indices2.
Proof.
  intros Hc. assert (length indices1 = length indices2) as Hlen.
  { by rewrite <-(length_fmap coord1), Hc, length_fmap. }
  assert (∀ a, a < length indices1 → coord1 (indices1 !!! a) = coord2 (indices2 !!! a)) as Hco.
  { intros a Ha. rewrite <-(list_lookup_total_fmap coord1), Hc by done.
    apply list_lookup_total_fmap. lia. }
  unfold pairing_sum. rewrite <-Hlen. apply sumZ_fmap_ext.
  intros P (Hl & Hr & Hnd)%pairings_is_pairing. unfold pairing_value. f_equal.
  - f_equal. apply Forall_fmap_ext_1. eapply Forall_impl; [exact Hr|].
    intros [a b] Hab. simpl in *. by rewrite !Hco by lia.
  - f_equal. apply Forall_fmap_ext_1, Forall_forall.
    intros pos [_ Hpos%elem_of_seq]%list_elem_of_filter. simpl. by rewrite Hco by lia.
Qed.

Lemma set_coord_fresh i c coord (indices : list string) :
  i ∉ indices → set_coord i c coord <$> indices = coord <$> indices.
Proof.
  intros Hi. apply Forall_fmap_ext_1, Forall_forall. intros l Hl.
  unfold set_coord. rewrite decide_False; [done|]. by intros ->.
Qed.

Lemma elem_of_without x indices a b :
  a < b < length indices → x ∈ without indices (a, b) → x ∈ indices.
Proof.
  intros Hab (p & -> & Hp)%list_elem_of_fmap.
  apply list_elem_of_lookup_total_2.
  apply list_elem_of_filter in Hp as [_ Hp]. rewrite range_0 in Hp.
  apply elem_of_seq in Hp. lia.
Qed.

Lemma sum_three (f : nat → Z) :
  sumZ (f <$> seq 0 3) = (f 0%nat + f 1%nat + f 2%nat)%Z.
Proof. unfold sumZ. simpl. lia. Qed.

(** ** The trace of the pairing sums

    Two equal labels at the front, summed over the three coordinates. *)
Section trace.
Context (X : nat → Z) (r : Z) (vec : string) (i : string) (coord : string → nat).
Hypothesis magnitude :
  (r * r = X 0%nat * X 0%nat + X 1%nat * X 1%nat + X 2%nat * X 2%nat)%Z.

Lemma kronecker_sum (h : nat → Z) (c0 : nat) :
  c0 < 3 →
  sumZ ((λ c, (if decide (c = c0) then 1 else 0) * h c)%Z <$> seq 0 3) = h c0.
Proof.
  intros Hc. rewrite sum_three.
  destruct c0 as [|[|[|?]]]; [..|lia]; repeat case_decide; try lia.
Qed.

Lemma pairing_sum_fresh c k (rest : list string) :
  i ∉ rest →
  pairing_sum (euclid (set_coord i c coord) X r) vec k rest
  = pairing_sum (euclid coord X r) vec k rest.
Proof. intros Hi. apply pairing_sum_euclid_ext. by apply set_coord_fresh. Qed.

Lemma pairing_sum_moved k (rest : list string) j :
  i ∉ rest → j < length rest →
  pairing_sum (euclid (set_coord i (coord (rest !!! j)) coord) X r) vec k
    (i :: delete j rest)
  = pairing_sum (euclid coord X r) vec k rest.
Proof.
  intros Hi Hj.
  destruct (lookup_lt_is_Some_2 rest j Hj) as [l Hl].
  rewrite (list_lookup_total_correct _ _ _ Hl).
  rewrite (pairing_sum_Permutation _ _ _ rest (l :: delete j rest));
    [|apply euclid_delta_symmetric|by apply delete_Permutation].
  apply pairing_sum_euclid_ext. rewrite !fmap_cons. f_equal.
  - unfold set_coord. by rewrite decide_True.
  - apply set_coord_fresh. by intros ?%list_elem_of_delete_inv.
Qed.

(** One coordinate: the recursion on a list that begins with the label [i]
    twice. *)
Lemma pairing_sum_step_two c k (rest : list string) :
  i ∉ rest →
  (Z.of_nat (S k)
   * pairing_sum (euclid (set_coord i c coord) X r) vec (S k) (i :: i :: rest))%Z
  = (pairing_sum (euclid coord X r) vec k rest
     + 2 * sumZ ((λ j, (if decide (c = coord (rest !!! j)) then 1 else 0)
                       * pairing_sum (euclid (set_coord i c coord) X r) vec k
                           (i :: delete j rest))
                   <$> seq 0 (length rest))
     + sumZ ((λ ab, fn_value (euclid coord X r) "delta" [rest !!! ab.1; rest !!! ab.2]
                    * pairing_sum (euclid (set_coord i c coord) X r) vec k
                        (i :: i :: without rest ab))
               <$> all_pairs (length rest)))%Z.
Proof.
  intros Hi. rewrite pairing_sum_step. cbn [length]. rewrite sum_all_pairs_two.
  cbn [fst snd].
  assert (∀ p, p < length rest → set_coord i c coord (rest !!! p) = coord (rest !!! p))
    as Hrest.
  { intros p Hp. unfold set_coord. rewrite decide_False; [done|].
    intros Heq. apply Hi. rewrite <-Heq. by apply list_elem_of_lookup_total_2. }
  assert (set_coord i c coord i = c) as Hic.
  { unfold set_coord. by rewrite decide_True. }
  rewrite (sumZ_fmap_ext
    (λ j, fn_value _ "delta" [(i :: i :: rest) !!! 0%nat; (i :: i :: rest) !!! S (S j)] * _)%Z
    (λ j, (if decide (c = coord (rest !!! j)) then 1 else 0)
          * pairing_sum (euclid (set_coord i c coord) X r) vec k (i :: delete j rest))%Z).
  2:{ intros j Hj%elem_of_seq. rewrite without_zero.
      cbn [lookup_total list_lookup_total delete list_delete fn_value euclid].
      rewrite Hic, Hrest by lia. done. }
  rewrite (sumZ_fmap_ext
    (λ j, fn_value _ "delta" [(i :: i :: rest) !!! 1%nat; (i :: i :: rest) !!! S (S j)] * _)%Z
    (λ j, (if decide (c = coord (rest !!! j)) then 1 else 0)
          * pairing_sum (euclid (set_coord i c coord) X r) vec k (i :: delete j rest))%Z).
  2:{ intros j Hj%elem_of_seq. rewrite without_succ, without_zero.
      cbn [lookup_total list_lookup_total fn_value euclid].
      rewrite Hic, Hrest by lia. done. }
  rewrite (sumZ_fmap_ext
    (λ ab, fn_value _ "delta"
             [(i :: i :: rest) !!! S (S ab.1); (i :: i :: rest) !!! S (S ab.2)] * _)%Z
    (λ ab, fn_value (euclid coord X r) "delta" [rest !!! ab.1; rest !!! ab.2]
           * pairing_sum (euclid (set_coord i c coord) X r) vec k
               (i :: i :: without rest ab))%Z).
  2:{ intros [a b] Hab%elem_of_all_pairs. rewrite !without_succ.
      cbn [lookup_total list_lookup_total fn_value euclid fst snd].
      rewrite !Hrest by lia. done. }
  rewrite without_zero. cbn [lookup_total list_lookup_total delete list_delete fn_value euclid].
  rewrite decide_True by done. rewrite pairing_sum_fresh by done. lia.
Qed.

(** The three coordinates together. *)
Lemma trace_pairing_sum_step k (rest : list string) :
  i ∉ rest → Forall (λ l, coord l < 3) rest →
  (Z.of_nat (S k)
   * sumZ ((λ c, pairing_sum (euclid (set_coord i c coord) X r) vec (S k) (i :: i :: rest))
             <$> seq 0 3))%Z
  = ((3 + 2 * Z.of_nat (length rest)) * pairing_sum (euclid coord X r) vec k rest
     + sumZ ((λ ab, fn_value (euclid coord X r) "delta" [rest !!! ab.1; rest !!! ab.2]
                    * sumZ ((λ c, pairing_sum (euclid (set_coord i c coord) X r) vec k
                                    (i :: i :: without rest ab)) <$> seq 0 3))
               <$> all_pairs (length rest)))%Z.
Proof.
  intros Hi Hb.
  rewrite <-sumZ_fmap_mul.
  rewrite (sumZ_fmap_ext _ _ _ (λ c _, pairing_sum_step_two c k rest Hi)).
  rewrite !sumZ_fmap_add, sumZ_fmap_const, length_seq.
  rewrite sumZ_fmap_mul.
  (* the pairs of a front position with a later one *)
  assert (sumZ ((λ c, sumZ ((λ j, (if decide (c = coord (rest !!! j)) then 1 else 0)
                       * pairing_sum (euclid (set_coord i c coord) X r) vec k
                           (i :: delete j rest))%Z
                   <$> seq 0 (length rest))) <$> seq 0 3)
          = (Z.of_nat (length rest) * pairing_sum (euclid coord X r) vec k rest)%Z) as ->.
  { trans (sumZ ((λ _, pairing_sum (euclid coord X r) vec k rest) <$> seq 0 (length rest)));
      [|by rewrite sumZ_fmap_const, length_seq].
    rewrite !sum_three, <-!sumZ_fmap_add.
    apply sumZ_fmap_ext. intros j Hj%elem_of_seq.
    rewrite <-(pairing_sum_moved k rest j) by (done || lia).
    rewrite <-(kronecker_sum
      (λ c, pairing_sum (euclid (set_coord i c coord) X r) vec k (i :: delete j rest))
      (coord (rest !!! j))).
    - rewrite sum_three. lia.
    - rewrite Forall_forall in Hb. apply Hb, list_elem_of_lookup_total_2. lia. }
  (* the pairs of later positions *)
  assert (sumZ ((λ c, sumZ ((λ ab,
                    fn_value (euclid coord X r) "delta" [rest !!! ab.1; rest !!! ab.2]
                    * pairing_sum (euclid (set_coord i c coord) X r) vec k
                        (i :: i :: without rest ab))%Z
               <$> all_pairs (length rest))) <$> seq 0 3)
          = sumZ ((λ ab, fn_value (euclid coord X r) "delta" [rest !!! ab.1; rest !!! ab.2]
                    * sumZ ((λ c, pairing_sum (euclid (set_coord i c coord) X r) vec k
                                    (i :: i :: without rest ab)) <$> seq 0 3))%Z
               <$> all_pairs (length rest))) as ->.
  { rewrite sum_three, <-!sumZ_fmap_add. apply sumZ_fmap_ext. intros ab _.
    rewrite sum_three. lia. }
  lia.
Qed.

Lemma trace_pairing_sum_zero (rest : list string) :
  i ∉ rest →
  sumZ ((λ c, pairing_sum (euclid (set_coord i c coord) X r) vec 0 (i :: i :: rest))
          <$> seq 0 3)
  = (r * r * pairing_sum (euclid coord X r) vec 0 rest)%Z.
Proof.
  intros Hi. rewrite sum_three, !pairing_sum_zero, !fmap_cons.
  assert (∀ c, (λ l, fn_value (euclid (set_coord i c coord) X r) vec [l]) <$> rest
               = (λ l, fn_value (euclid coord X r) vec [l]) <$> rest) as Hrest.
  { intros c. apply Forall_fmap_ext_1, Forall_forall. intros l Hl. simpl.
    unfold set_coord. rewrite decide_False; [done|]. by intros ->. }
  rewrite !Hrest. unfold prodZ. cbn [foldr fn_value euclid].
  unfold set_coord. rewrite !decide_True by done. rewrite magnitude. lia.
Qed.

(** The trace of the sum over the pairings with [k + 1] pairs, in terms of
    the sums on the remaining labels. *)
Lemma trace_pairing_sum k : ∀ rest : list string,
  i ∉ rest → Forall (λ l, coord l < 3) rest →
  sumZ ((λ c, pairing_sum (euclid (set_coord i c coord) X r) vec (S k) (i :: i :: rest))
          <$> seq 0 3)
  = ((2 * Z.of_nat (length rest) - 2 * Z.of_nat k + 3)
       * pairing_sum (euclid coord X r) vec k rest
     + r * r * pairing_sum (euclid coord X r) vec (S k) rest)%Z.
Proof.
  induction k as [|k IH]; intros rest Hi Hb.
  - pose proof (trace_pairing_sum_step 0 rest Hi Hb) as Hs.
    rewrite (sumZ_fmap_ext _
      (λ ab, r * r * (fn_value (euclid coord X r) "delta" [rest !!! ab.1; rest !!! ab.2]
                      * pairing_sum (euclid coord X r) vec 0 (without rest ab)))%Z) in Hs.
    2:{ intros [a b] Hab%elem_of_all_pairs. rewrite trace_pairing_sum_zero; [lia|].
        intros Hin. apply Hi. by eapply elem_of_without. }
    rewrite sumZ_fmap_mul, <-pairing_sum_step in Hs. lia.
  - pose proof (trace_pairing_sum_step (S k) rest Hi Hb) as Hs.
    rewrite (sumZ_fmap_ext _
      (λ ab, (2 * Z.of_nat (length rest) - 2 * Z.of_nat k - 1)
               * (fn_value (euclid coord X r) "delta" [rest !!! ab.1; rest !!! ab.2]
                  * pairing_sum (euclid coord X r) vec k (without rest ab))
             + r * r * (fn_value (euclid coord X r) "delta" [rest !!! ab.1; rest !!! ab.2]
                        * pairing_sum (euclid coord X r) vec (S k) (without rest ab)))%Z)
      in Hs.
    2:{ intros [a b] Hab%elem_of_all_pairs. rewrite IH.
        - rewrite length_without by done.
          replace (Z.of_nat (length rest - 2)) with (Z.of_nat (length rest) - 2)%Z by lia.
          ring.
        - intros Hin. apply Hi. by eapply elem_of_without.
        - apply Forall_forall. intros l Hl. rewrite Forall_forall in Hb.
          apply Hb. by eapply elem_of_without. }
    rewrite sumZ_fmap_add, !sumZ_fmap_mul, <-!pairing_sum_step in Hs.
    nia.
Qed.

End trace.

(** ** Values by the number of pairs *)

Lemma seqZ_one_seq (K : Z) : seqZ 1 K = (λ k, Z.of_nat (S k)) <$> seq 0 (Z.to_nat K).
Proof.
  unfold seqZ. apply list_fmap_ext. intros _ k _. lia.
Qed.

Lemma double_factorial_step (a : Z) :
  (2 ≤ a)%Z →
  MultipoleMoments._double_factorial a = (a * MultipoleMoments._double_factorial (a - 2))%Z.
Proof.
  intros Ha. unfold MultipoleMoments._double_factorial.
  replace (Z.to_nat a) with (S (S (Z.to_nat (a - 2)))) by lia.
  change (MultipoleMoments.double_factorial_nat (S (S (Z.to_nat (a - 2)))))
    with (Z.of_nat (S (S (Z.to_nat (a - 2))))
          * MultipoleMoments.double_factorial_nat (Z.to_nat (a - 2)))%Z.
  f_equal. lia.
Qed.

(** The value of the pairing sum of a builder as one sum over the number of
    pairs, the main term being the term of no pair. *)
Section formula.
Context (ρ : interpretation) (v m : string) (alternating : bool).

Lemma eval_pairing_sum_formula (sign : Z) n indices :
  (1 ≤ n)%Z → length indices = Z.to_nat n →
  (eval ρ (main_term (λ i, call v [i]) n indices)
   + sign * eval ρ (trace_sum (λ i, call v [i]) (symbol m) alternating n indices))%Z
  = (coefficient alternating n 0 * pairing_sum ρ v 0 indices
     + sign * sumZ ((λ k, coefficient alternating n (Z.of_nat (S k))
                          * sym_value ρ m ^ (2 * Z.of_nat (S k))
                          * pairing_sum ρ v (S k) indices)
                      <$> seq 0 (Z.to_nat (n `div` 2))))%Z.
Proof.
  intros Hn Hlen.
  rewrite (eval_main_term_call ρ v), (eval_trace_sum_call ρ v m alternating).
  rewrite pairing_sum_zero. f_equal.
  - f_equal. unfold coefficient. rewrite decide_True by lia.
    replace (2 * n - 2 * 0 - 1)%Z with (2 * n - 1)%Z by lia.
    rewrite Z.pow_0_r. destruct alternating; lia.
  - f_equal. rewrite seqZ_one_seq, <-list_fmap_compose. f_equal.
    apply list_fmap_ext. intros _ k _. unfold compose.
    unfold pairing_sum. by rewrite Hlen, Nat2Z.id.
Qed.

End formula.

Lemma sumZ_telescope (A : nat → Z) K :
  sumZ ((λ k, A (S k) - A k)%Z <$> seq 0 K) = (A K - A 0%nat)%Z.
Proof.
  induction K as [|K IH]; [unfold sumZ; simpl; lia|].
  rewrite seq_S, fmap_app, sumZ_app, IH. unfold sumZ. simpl. lia.
Qed.

Lemma coefficient_step (alternating : bool) (n : Z) (k : nat) :
  (2 * Z.of_nat (S k) ≤ n)%Z →
  (coefficient alternating n (Z.of_nat (S k)) * (2 * n - 2 * Z.of_nat k - 1))%Z
  = ((if alternating then -1 else 1) * coefficient alternating n (Z.of_nat k))%Z.
Proof.
  intros Hk. unfold coefficient. rewrite !decide_True by lia.
  rewrite (double_factorial_step (2 * n - 2 * Z.of_nat k - 1)) by lia.
  replace (2 * n - 2 * Z.of_nat k - 1 - 2)%Z with (2 * n - 2 * Z.of_nat (S k) - 1)%Z by lia.
  destruct alternating; [|lia].
  rewrite Nat2Z.inj_succ, Z.pow_succ_r by lia. lia.
Qed.

Section trace_value.
Context (X : nat → Z) (r : Z) (vec m : string) (alternating : bool) (i : string)
  (coord : string → nat).
Hypothesis magnitude :
  (r * r = X 0%nat * X 0%nat + X 1%nat * X 1%nat + X 2%nat * X 2%nat)%Z.

(** The trace of the value of a builder, by the number of pairs. *)
Lemma trace_pairing_sum_formula (sign : Z) (n : Z) (rest : list string) :
  i ∉ rest → Forall (λ l, coord l < 3) rest →
  sumZ ((λ c,
      coefficient alternating n 0
        * pairing_sum (euclid (set_coord i c coord) X r) vec 0 (i :: i :: rest)
      + sign * sumZ ((λ k, coefficient alternating n (Z.of_nat (S k))
                           * r ^ (2 * Z.of_nat (S k))
                           * pairing_sum (euclid (set_coord i c coord) X r) vec (S k)
                               (i :: i :: rest))
                       <$> seq 0 (Z.to_nat (n `div` 2))))%Z <$> seq 0 3)
  = (coefficient alternating n 0 * (r * r * pairing_sum (euclid coord X r) vec 0 rest)
     + sign * sumZ ((λ k, coefficient alternating n (Z.of_nat (S k))
                          * r ^ (2 * Z.of_nat (S k))
                          * ((2 * Z.of_nat (length rest) - 2 * Z.of_nat k + 3)
                               * pairing_sum (euclid coord X r) vec k rest
                             + r * r * pairing_sum (euclid coord X r) vec (S k) rest))
                      <$> seq 0 (Z.to_nat (n `div` 2))))%Z.
Proof.
  intros Hi Hb.
  rewrite sumZ_fmap_add, !sumZ_fmap_mul.
  rewrite (trace_pairing_sum_zero X r vec i coord magnitude) by done.
  f_equal. f_equal.
  rewrite sum_three, <-!sumZ_fmap_add. apply sumZ_fmap_ext. intros k _.
  rewrite <-(trace_pairing_sum X r vec i coord magnitude k rest Hi Hb), sum_three. lia.
Qed.

End trace_value.

(** ** The trace of a builder value *)

Lemma Q_tensor_value n indices :
  (2 ≤ n)%Z → length indices = Z.to_nat n →
  ∃ e, MultipoleMoments.Q_tensor n (Some indices) = Some e
       ∧ ∀ ρ, eval ρ e
         = (coefficient true n 0 * pairing_sum ρ "xa" 0 indices
            + 1 * sumZ ((λ k, coefficient true n (Z.of_nat (S k))
                              * sym_value ρ "ra0" ^ (2 * Z.of_nat (S k))
                              * pairing_sum ρ "xa" (S k) indices)
                          <$> seq 0 (Z.to_nat (n `div` 2))))%Z.
Proof.
  intros Hn Hlen. eexists. split; [apply Q_tensor_general; lia|].
  intros ρ. rewrite eval_add.
  rewrite <-(Z.mul_1_l (eval ρ (trace_sum _ _ _ _ _))).
  apply (eval_pairing_sum_formula ρ "xa" "ra0" true 1); [lia|done].
Qed.

Lemma derivative_numerator_value n indices :
  (2 ≤ n)%Z → length indices = Z.to_nat n →
  ∃ e, DerivativeEngine._build_derivative_numerator n indices = Some e
       ∧ ∀ ρ, eval ρ e
         = (coefficient false n 0 * pairing_sum ρ "x" 0 indices
            + -1 * sumZ ((λ k, coefficient false n (Z.of_nat (S k))
                               * sym_value ρ "r0" ^ (2 * Z.of_nat (S k))
                               * pairing_sum ρ "x" (S k) indices)
                           <$> seq 0 (Z.to_nat (n `div` 2))))%Z.
Proof.
  intros Hn Hlen. eexists. split; [apply build_derivative_numerator_total; lia|].
  intros ρ. rewrite eval_sub by apply (trace_sum_nonneg "x" "r0" false).
  rewrite <-Z.add_opp_r, Z.opp_eq_mul_m1, Z.mul_comm.
  apply (eval_pairing_sum_formula ρ "x" "r0" false (-1)); [lia|done].
Qed.

Section traces.
Context (X : nat → Z) (r : Z) (i : string) (coord : string → nat).
Hypothesis magnitude :
  (r * r = X 0%nat * X 0%nat + X 1%nat * X 1%nat + X 2%nat * X 2%nat)%Z.

(** The trace of the value of a builder on labels that are a permutation of
    [i, i, rest]. *)
Lemma trace_over_builder vec m alternating sign n rest indices e :
  (2 ≤ n)%Z → length rest = Z.to_nat (n - 2) → i ∉ rest →
  Forall (λ l, coord l < 3) rest → indices ≡ₚ i :: i :: rest →
  (∀ ρ, eval ρ e
        = (coefficient alternating n 0 * pairing_sum ρ vec 0 indices
           + sign * sumZ ((λ k, coefficient alternating n (Z.of_nat (S k))
                                * sym_value ρ m ^ (2 * Z.of_nat (S k))
                                * pairing_sum ρ vec (S k) indices)
                            <$> seq 0 (Z.to_nat (n `div` 2))))%Z) →
  trace_over i coord X r e
  = (coefficient alternating n 0 * (r * r * pairing_sum (euclid coord X r) vec 0 rest)
     + sign * sumZ ((λ k, coefficient alternating n (Z.of_nat (S k))
                          * r ^ (2 * Z.of_nat (S k))
                          * ((2 * Z.of_nat (length rest) - 2 * Z.of_nat k + 3)
                               * pairing_sum (euclid coord X r) vec k rest
                             + r * r * pairing_sum (euclid coord X r) vec (S k) rest))
                      <$> seq 0 (Z.to_nat (n `div` 2))))%Z.
Proof.
  intros Hn Hlen Hi Hb Hperm He. unfold trace_over.
  rewrite <-(trace_pairing_sum_formula X r vec alternating i coord magnitude sign n rest)
    by done.
  apply sumZ_fmap_ext. intros c _. rewrite He.
  rewrite (pairing_sum_Permutation _ _ 0 indices (i :: i :: rest));
    [|apply euclid_delta_symmetric|done].
  f_equal. f_equal. apply sumZ_fmap_ext. intros k _.
  rewrite (pairing_sum_Permutation _ _ (S k) indices (i :: i :: rest));
    [|apply euclid_delta_symmetric|done].
  done.
Qed.

End traces.

(** ** Tracelessness in value *)

Lemma pow_even_succ (r : Z) (k : nat) :
  (r ^ (2 * Z.of_nat (S k)) = r ^ (2 * Z.of_nat k) * (r * r))%Z.
Proof.
  replace (2 * Z.of_nat (S k))%Z with (2 * Z.of_nat k + 2)%Z by lia.
  rewrite Z.pow_add_r, Z.pow_2_r by lia. done.
Qed.

(** With alternating signs the traces of consecutive numbers of pairs
    cancel. *)
Lemma alternating_trace_cancels (n : Z) (m : nat) (r : Z) (S_ : nat → Z) :
  (2 ≤ n)%Z → m = Z.to_nat (n - 2) → S_ (Z.to_nat (n `div` 2)) = 0%Z →
  (coefficient true n 0 * (r * r * S_ 0%nat)
   + 1 * sumZ ((λ k, coefficient true n (Z.of_nat (S k))
                     * r ^ (2 * Z.of_nat (S k))
                     * ((2 * Z.of_nat m - 2 * Z.of_nat k + 3) * S_ k
                        + r * r * S_ (S k)))
                 <$> seq 0 (Z.to_nat (n `div` 2))))%Z = 0%Z.
Proof.
  intros Hn Hm HK.
  pose proof (Z.mul_div_le n 2 ltac:(lia)) as Hdiv.
  set (A := λ k, (coefficient true n (Z.of_nat k) * (r ^ (2 * Z.of_nat k) * (r * r)) * S_ k)%Z).
  rewrite (sumZ_fmap_ext _ (λ k, A (S k) - A k)%Z).
  - rewrite sumZ_telescope. unfold A. rewrite HK.
    change (Z.of_nat 0) with 0%Z. rewrite Z.mul_0_r, Z.pow_0_r. lia.
  - intros k Hk%elem_of_seq. unfold A.
    assert (2 * Z.of_nat (S k) ≤ n)%Z as Hkn by (clear -Hk Hdiv; lia).
    pose proof (coefficient_step true n k Hkn) as Hc.
    replace (2 * Z.of_nat m - 2 * Z.of_nat k + 3)%Z
      with (2 * n - 2 * Z.of_nat k - 1)%Z by lia.
    rewrite (pow_even_succ r k).
    set (c' := coefficient true n (Z.of_nat (S k))) in *.
    set (c := coefficient true n (Z.of_nat k)) in *.
    set (a := (2 * n - 2 * Z.of_nat k - 1)%Z) in *.
    clearbody c c' a. cbv iota in Hc. assert (c = - (c' * a))%Z as -> by lia.
    ring.
Qed.

Section tracelessness.
Import MultipoleMoments.

(** X17. The tensor Q is traceless in value, for every order [n >= 2]: when
    a label [i] stands at two positions and is summed over the three
    coordinates, the values add up to zero, under every Euclidean reading of
    the symbols ([xa] a vector, [delta] the Kronecker symbol, [ra0] with
    [ra0^2 = |xa|^2]). *)
Theorem Q_tensor_traceless_in_value (n : Z) (i : string) (rest indices : list string)
    (coord : string → nat) (X : nat → Z) (r : Z) :
  (2 ≤ n)%Z → length rest = Z.to_nat (n - 2) → i ∉ rest →
  Forall (λ l, coord l < 3) rest → indices ≡ₚ i :: i :: rest →
  (r * r = X 0%nat * X 0%nat + X 1%nat * X 1%nat + X 2%nat * X 2%nat)%Z →
  ∃ e, Q_tensor n (Some indices) = Some e ∧ trace_over i coord X r e = 0%Z.
Proof.
  intros Hn Hlen Hi Hb Hperm Hr.
  destruct (Q_tensor_value n indices) as (e & He & Hval); [done| |].
  { rewrite Hperm. cbn [length]. lia. }
  exists e. split; [done|].
  rewrite (trace_over_builder X r i coord Hr "xa" "ra0" true 1 n rest indices e)
    by done.
  apply (alternating_trace_cancels n (length rest) r
           (λ k, pairing_sum (euclid coord X r) "xa" k rest)); [done|done|].
  apply pairing_sum_empty.
  pose proof (Z.mul_succ_div_gt n 2 ltac:(lia)). lia.
Qed.

Lemma Q_tensor_traceless_in_value_witness :
  ∃ e, Q_tensor 4 (Some ["k"; "i"; "l"; "i"]) = Some e
       ∧ trace_over "i" (λ l, String.length l) (λ c, if decide (c = 0%nat) then 1%Z else 2%Z)
           3%Z e = 0%Z.
Proof.
  apply (Q_tensor_traceless_in_value 4 "i" ["k"; "l"] ["k"; "i"; "l"; "i"]).
  - lia.
  - reflexivity.
  - apply (bool_decide_unpack _). vm_compute. reflexivity.
  - repeat constructor.
  - apply (bool_decide_unpack _). vm_compute. reflexivity.
  - reflexivity.
Defined.

End tracelessness.

(** Without alternating signs the traces of consecutive numbers of pairs
    add up instead. *)
Lemma plain_trace_adds (n : Z) (m : nat) (r : Z) (S_ : nat → Z) :
  (2 ≤ n)%Z → m = Z.to_nat (n - 2) →
  (coefficient false n 0 * (r * r * S_ 0%nat)
   + -1 * sumZ ((λ k, coefficient false n (Z.of_nat (S k))
                      * r ^ (2 * Z.of_nat (S k))
                      * ((2 * Z.of_nat m - 2 * Z.of_nat k + 3) * S_ k
                         + r * r * S_ (S k)))
                  <$> seq 0 (Z.to_nat (n `div` 2))))%Z
  = (coefficient false n 0 * (r * r) * S_ 0%nat
     - sumZ ((λ k, coefficient false n (Z.of_nat k) * (r ^ (2 * Z.of_nat k) * (r * r)) * S_ k
                   + coefficient false n (Z.of_nat (S k))
                     * (r ^ (2 * Z.of_nat (S k)) * (r * r)) * S_ (S k))
               <$> seq 0 (Z.to_nat (n `div` 2))))%Z.
Proof.
  intros Hn Hm.
  pose proof (Z.mul_div_le n 2 ltac:(lia)) as Hdiv.
  rewrite (sumZ_fmap_ext _
    (λ k, coefficient false n (Z.of_nat k) * (r ^ (2 * Z.of_nat k) * (r * r)) * S_ k
          + coefficient false n (Z.of_nat (S k))
            * (r ^ (2 * Z.of_nat (S k)) * (r * r)) * S_ (S k))%Z); [lia|].
  intros k Hk%elem_of_seq.
  assert (2 * Z.of_nat (S k) ≤ n)%Z as Hkn by (clear -Hk Hdiv; lia).
  pose proof (coefficient_step false n k Hkn) as Hc.
  replace (2 * Z.of_nat m - 2 * Z.of_nat k + 3)%Z
    with (2 * n - 2 * Z.of_nat k - 1)%Z by lia.
  rewrite (pow_even_succ r k).
  set (c' := coefficient false n (Z.of_nat (S k))) in *.
  set (c := coefficient false n (Z.of_nat k)) in *.
  set (a := (2 * n - 2 * Z.of_nat k - 1)%Z) in *.
  clearbody c c' a. cbv iota in Hc. assert (c = c' * a)%Z as -> by lia.
  ring.
Qed.

Section numerator_trace.
Import DerivativeEngine.

(** X18. For the orders 2 and 3 the numerator of the derivative is traceless
    in value: with a label [i] at two positions, summed over the three
    coordinates, the values add up to zero under every Euclidean reading
    ([x] a vector, [delta] the Kronecker symbol, [r0^2 = |x|^2]). *)
Theorem derivative_numerator_traceless_low_orders (n : Z) (i : string)
    (rest indices : list string) (coord : string → nat) (X : nat → Z) (r : Z) :
  (2 ≤ n ≤ 3)%Z → length rest = Z.to_nat (n - 2) → i ∉ rest →
  Forall (λ l, coord l < 3) rest → indices ≡ₚ i :: i :: rest →
  (r * r = X 0%nat * X 0%nat + X 1%nat * X 1%nat + X 2%nat * X 2%nat)%Z →
  ∃ e, _build_derivative_numerator n indices = Some e ∧ trace_over i coord X r e = 0%Z.
Proof.
  intros Hn Hlen Hi Hb Hperm Hr.
  destruct (derivative_numerator_value n indices) as (e & He & Hval); [lia| |].
  { rewrite Hperm. cbn [length]. lia. }
  exists e. split; [done|].
  rewrite (trace_over_builder X r i coord Hr "x" "r0" false (-1) n rest indices e)
    by (done || lia).
  rewrite (plain_trace_adds n (length rest) r
             (λ k, pairing_sum (euclid coord X r) "x" k rest)) by (done || lia).
  assert (n `div` 2 = 1)%Z as ->.
  { destruct (decide (n = 2%Z)) as [->|]; [done|]. by replace n with 3%Z by lia. }
  change (Z.to_nat 1) with 1. cbn [seq fmap list_fmap].
  rewrite sumZ_cons, sumZ_nil.
  rewrite (pairing_sum_empty (euclid coord X r) "x" 1 rest) by lia.
  change (Z.of_nat 0) with 0%Z. rewrite Z.pow_0_r. lia.
Qed.

Lemma derivative_numerator_traceless_low_orders_witness :
  ∃ e, _build_derivative_numerator 3 ["i"; "k"; "i"] = Some e
       ∧ trace_over "i" (λ l, String.length l) (λ c, if decide (c = 0%nat) then 1%Z else 2%Z)
           3%Z e = 0%Z.
Proof.
  apply (derivative_numerator_traceless_low_orders 3 "i" ["k"] ["i"; "k"; "i"]).
  - lia.
  - reflexivity.
  - apply (bool_decide_unpack _). vm_compute. reflexivity.
  - repeat constructor.
  - apply (bool_decide_unpack _). vm_compute. reflexivity.
  - reflexivity.
Defined.

Lemma pairing_sum_one_two ρ vec (k l : string) :
  pairing_sum ρ vec 1 [k; l] = fn_value ρ "delta" [k; l].
Proof.
  unfold pairing_sum. change (pairings (length [k; l]) 1) with [[(0, 1)]].
  cbn [fmap list_fmap]. rewrite sumZ_cons, sumZ_nil.
  unfold pairing_value, prodZ. simpl. lia.
Qed.

(** X19. For the order 4 the numerator of the derivative is not traceless:
    with the label [i] at two positions and the labels [k], [l] at the
    others, the values summed over the coordinates of [i] come to
    [-30 · r0^4 · delta(k,l)]. *)
Theorem derivative_numerator_trace_order_four (i k l : string) (indices : list string)
    (coord : string → nat) (X : nat → Z) (r : Z) :
  i ≠ k → i ≠ l → coord k < 3 → coord l < 3 → indices ≡ₚ [i; i; k; l] →
  (r * r = X 0%nat * X 0%nat + X 1%nat * X 1%nat + X 2%nat * X 2%nat)%Z →
  ∃ e, _build_derivative_numerator 4 indices = Some e
       ∧ trace_over i coord X r e
         = (-30 * r ^ 4 * (if decide (coord k = coord l) then 1 else 0))%Z.
Proof.
  intros Hik Hil Hk Hl Hperm Hr.
  destruct (derivative_numerator_value 4 indices) as (e & He & Hval); [lia| |].
  { by rewrite Hperm. }
  exists e. split; [done|].
  assert (Forall (λ l, coord l < 3) [k; l]) as Hb.
  { apply Forall_cons. split; [done|]. by apply Forall_singleton. }
  rewrite (trace_over_builder X r i coord Hr "x" "r0" false (-1) 4 [k; l] indices e);
    [|lia|done|set_solver|done|done|done].
  rewrite (plain_trace_adds 4 (length [k; l]) r
             (λ k', pairing_sum (euclid coord X r) "x" k' [k; l])) by (done || lia).
  change (Z.to_nat (4 `div` 2)) with 2. cbn [seq fmap list_fmap].
  rewrite !sumZ_cons, sumZ_nil.
  rewrite (pairing_sum_empty (euclid coord X r) "x" 2 [k; l]) by (simpl; lia).
  rewrite pairing_sum_one_two.
  change (coefficient false 4 (Z.of_nat 1)) with 15%Z.
  change (Z.of_nat 0) with 0%Z. change (Z.of_nat 1) with 1%Z.
  cbn [fn_value euclid]. rewrite Z.pow_0_r.
  replace (r ^ 4)%Z with (r * r * (r * r))%Z
    by (change 4%Z with (2 + 2)%Z; by rewrite Z.pow_add_r, Z.pow_2_r by lia).
  change (2 * 1)%Z with 2%Z. rewrite Z.pow_2_r. lia.
Qed.

Lemma derivative_numerator_trace_order_four_witness :
  ∃ e, _build_derivative_numerator 4 ["k"; "i"; "l"; "i"] = Some e
       ∧ trace_over "i" (λ l, String.length l) (λ c, if decide (c = 0%nat) then 1%Z else 2%Z)
           3%Z e
         = (-30 * 3 ^ 4 * (if decide (String.length "k" = String.length "l") then 1 else 0))%Z.
Proof.
  apply (derivative_numerator_trace_order_four "i" "k" "l" ["k"; "i"; "l"; "i"]).
  - discriminate.
  - discriminate.
  - simpl. lia.
  - simpl. lia.
  - apply (bool_decide_unpack _). vm_compute. reflexivity.
  - reflexivity.
Defined.

End numerator_trace.

(** ** Indexed products *)

(** X20. [create_indexed_product(tensor_fn, indices)] is a single product,
    never a sum, and under every interpretation its value is the product of
    the components [tensor_fn(idx)] over the given labels, repeated labels
    counted as often as they occur; for an empty list of labels it is the
    number 1. *)
Theorem create_indexed_product_value (tensor_fn : string) (indices : list string)
    (ρ : interpretation) :
  flat (create_indexed_product tensor_fn indices)
  ∧ eval ρ (create_indexed_product tensor_fn indices)
    = prodZ ((λ idx, fn_value ρ tensor_fn [idx]) <$> indices)
  ∧ create_indexed_product tensor_fn [] = num 1.
Proof.
  unfold create_indexed_product. split_and!.
  - apply (foldl_mul_flat (λ idx, call tensor_fn [idx])); [apply num_flat|].
    intros idx. apply call_flat.
  - rewrite (eval_foldl_mul ρ (λ idx, call tensor_fn [idx]));
      [|apply num_flat|intros idx; apply call_flat].
    rewrite eval_num, Z.mul_1_l. apply f_equal, list_fmap_ext.
    intros _ idx _. apply eval_call.
  - reflexivity.
Qed.

(** ** Normal form of the enumerated pairings *)

Lemma StronglySorted_bind {A B} (R1 : relation A) (R2 : relation B)
    (g : A → list B) (l : list A) :
  (∀ x, x ∈ l → StronglySorted R2 (g x)) →
  (∀ x y a b, R1 x y → a ∈ g x → b ∈ g y → R2 a b) →
  StronglySorted R1 l → StronglySorted R2 (l ≫= g).
Proof.
  intros Hg Hcross Hl. induction Hl as [|x l Hl IH Hx]; [constructor|].
  rewrite bind_cons. apply StronglySorted_app. split_and!.
  - intros a b Ha (y & Hb & Hy)%list_elem_of_bind.
    rewrite Forall_forall in Hx. eapply Hcross; [by apply Hx|done..].
  - apply Hg. by left.
  - apply IH. intros y Hy. apply Hg. by right.
Qed.

Lemma seq_sorted a n : StronglySorted lt (seq a n).
Proof.
  revert a. induction n as [|n IH]; intros a; [constructor|].
  simpl. constructor; [apply IH|].
  apply Forall_forall. intros x Hx%elem_of_seq. lia.
Qed.

Lemma all_pairs_sorted n : StronglySorted tuple_le (all_pairs n).
Proof.
  unfold all_pairs, range.
  apply (StronglySorted_bind lt); [| |apply seq_sorted].
  - intros i _. apply (StronglySorted_bind lt); [| |apply seq_sorted].
    + intros j _. repeat constructor.
    + intros j j' a b Hj ->%list_elem_of_singleton ->%list_elem_of_singleton.
      right. simpl. lia.
  - intros i i' a b Hi (j & ->%list_elem_of_singleton & _)%list_elem_of_bind
      (j' & ->%list_elem_of_singleton & _)%list_elem_of_bind.
    left. simpl. lia.
Qed.

(** A pairing that the duplicate-removal loop keeps from the second of two
    stretches of its input has a normal form that no pairing of the first
    stretch has. *)
Lemma first_occurrences_app_elem seen l1 l2 p :
  p ∈ first_occurrences seen (l1 ++ l2) →
  p ∈ first_occurrences seen l1
  ∨ (p ∈ l2 ∧ ∀ y, y ∈ l1 → normalized y ≠ normalized p).
Proof.
  revert seen. induction l1 as [|q l1 IH]; intros seen Hp.
  { right. split; [by apply first_occurrences_elem_of in Hp as [? _]|].
    by intros y ?%elem_of_nil. }
  simpl in Hp. simpl. case_decide as Hq.
  - pose proof (first_occurrences_elem_of _ _ _ Hp) as [_ Hn].
    destruct (IH _ Hp) as [?|[? Hy]]; [by left|]. right. split; [done|].
    intros y [->|?]%elem_of_cons; [congruence|by apply Hy].
  - apply elem_of_cons in Hp as [->|Hp]; [left; by left|].
    pose proof (first_occurrences_elem_of _ _ _ Hp) as [_ Hn].
    destruct (IH _ Hp) as [?|[? Hy]]; [left; by right|]. right. split; [done|].
    intros y [->|?]%elem_of_cons; [set_solver|by apply Hy].
Qed.

Lemma sorted_normalized p :
  ascending p → StronglySorted tuple_le p → normalized p = p.
Proof.
  intros Hp Hs. unfold normalized. rewrite tuple_sorted_ascending by done.
  apply (Sorted_unique tuple_le).
  - apply Sorted_merge_sort, _.
  - by apply StronglySorted_Sorted.
  - apply merge_sort_Permutation.
Qed.

Lemma skip2_le i j y y' : y ≤ y' → skip2 i j y ≤ skip2 i j y'.
Proof.
  intros Hy. destruct (decide (y = y')) as [->|]; [done|].
  apply Nat.lt_le_incl, skip2_lt. lia.
Qed.

(** The pairs of every enumerated pairing are listed in increasing order. *)
Lemma pairings_sorted k : ∀ n p, p ∈ pairings n k → StronglySorted tuple_le p.
Proof.
  induction k as [|k IH]; intros n p Hp.
  { apply list_elem_of_singleton in Hp as ->. constructor. }
  destruct k as [|k'].
  { simpl in Hp. apply list_elem_of_fmap in Hp as (ij & -> & _). repeat constructor. }
  rewrite pairings_unfold in Hp.
  pose proof (first_occurrences_elem_of _ _ _ Hp) as [Hcand _].
  pose proof (candidates_is_pairing _ _ _ Hcand) as Hwf.
  pose proof Hcand as Hblock.
  apply list_elem_of_bind in Hblock as ([i j] & Hblock & Hij).
  case_decide as Hk; [|by apply elem_of_nil in Hblock].
  apply list_elem_of_fmap in Hblock as (sub & Heq & Hsub).
  pose proof Hij as Hrange. apply elem_of_all_pairs in Hrange.
  rewrite remaining_of_length in Hsub, Hk by done.
  pose proof (pairings_is_pairing _ _ _ Hsub) as Hsubwf.
  rewrite (map_back_total_skip2 n) in Heq by (done || apply Hsubwf).
  apply list_elem_of_split in Hij as (A & B & HAB).
  pose proof (all_pairs_sorted n) as Hsorted. rewrite HAB in Hsorted.
  pose proof (NoDup_all_pairs n) as Hnodup. rewrite HAB in Hnodup.
  unfold candidates in Hp. rewrite HAB, bind_app in Hp.
  apply first_occurrences_app_elem in Hp as [Hp|[_ Hfresh]].
  { exfalso. apply first_occurrences_elem_of in Hp as [Hp _].
    apply list_elem_of_bind in Hp as (a & Hp & Ha).
    case_decide; [|by apply elem_of_nil in Hp].
    apply list_elem_of_fmap in Hp as (sub' & Heq' & _).
    rewrite Heq in Heq'. injection Heq' as <- _.
    apply NoDup_app in Hnodup as (_ & Hdis & _).
    apply (Hdis _ Ha). by left. }
  subst p. constructor.
  { eapply StronglySorted_fmap; [|exact (IH _ _ Hsub)].
    intros [a b] [c d] [Hlt|[-> Hle]]; simpl in *.
    - left. simpl. by apply skip2_lt.
    - right. simpl. split; [done|by apply skip2_le]. }
  apply Forall_forall. intros q Hq.
  destruct (decide (tuple_le (i, j) q)) as [|Hnle]; [done|]. exfalso.
  assert (q ∈ all_pairs n) as Hqin.
  { destruct Hwf as (_ & Hr & _). rewrite Forall_forall in Hr.
    destruct q as [a b]. apply elem_of_all_pairs. apply (Hr (a, b)). by right. }
  rewrite HAB in Hqin. apply elem_of_app in Hqin as [HqA|HqB].
  2:{ apply StronglySorted_app in Hsorted as (_ & _ & Hsorted).
      apply elem_of_cons in HqB as [->|HqB]; [by apply Hnle; right|].
      inversion Hsorted as [|?? _ Hall]; subst.
      rewrite Forall_forall in Hall. by apply Hnle, Hall. }
  assert (q ∈ (i, j) :: ((λ pair, (skip2 i j pair.1, skip2 i j pair.2)) <$> sub))
    as Hqp by by right.
  apply elem_of_Permutation in Hqp as (p' & Hperm).
  pose proof (is_pairing_Permutation _ _ _ _ Hperm Hwf) as Hwf'.
  destruct q as [a b].
  destruct (is_pairing_uncons _ _ _ _ _ Hwf') as (Hab & Hsub' & Hback).
  destruct (pairings_complete _ _ _ Hsub') as (sub' & Hin' & Hperm').
  pose proof (is_pairing_bound _ _ _ Hsub') as Hk'.
  apply (Hfresh ((a, b) :: ((λ pair, (skip2 a b pair.1, skip2 a b pair.2)) <$> sub'))).
  - apply list_elem_of_bind. exists (a, b). split; [|done].
    rewrite remaining_of_length by done. rewrite decide_True by done.
    apply list_elem_of_fmap. exists sub'. split; [|done].
    rewrite (map_back_total_skip2 n); [done..|].
    apply pairings_is_pairing in Hin'. apply Hin'.
  - apply normalized_eq_iff.
    + eapply is_pairing_ascending, is_pairing_cons; [done|].
      by apply pairings_is_pairing.
    + by eapply is_pairing_ascending.
    + rewrite Hperm, Hperm', Hback. done.
Qed.

(** X21. Every pairing the generator returns is already in the normal form
    that its duplicate removal compares: each pair is ascending and the pairs
    are listed in increasing order, so sorting the pairing gives it back. *)
Theorem generate_k_pairings_normal_form (n k : nat) :
  ∃ l, MultipoleMoments._generate_k_pairings n k = Some l
       ∧ DerivativeEngine._generate_k_pairings n k = Some l
       ∧ ∀ p, p ∈ l → normalized p = p.
Proof.
  exists (pairings n k).
  split; [apply generate_pairings_eq|]. split; [apply generate_pairings_eq|].
  intros p Hp. apply sorted_normalized.
  - by eapply is_pairing_ascending, pairings_is_pairing.
  - by eapply pairings_sorted.
Qed.
